(** * eVoting: ECC / ECDH / graph-isomorphism ZKP core, verified against its source

    The JavaScript sources are embedded shallowly:
    - [BigInt] values are [Z]; bytes are [Z] in [0, 256);
    - a function that may [throw] returns a [res] ([Ok] or [Err]);
    - the verifier's [Map] of sessions is a [gmap string Session];
    - [crypto.createHash('sha256')] is the FIPS 180-4 function, written out
      so that concrete seeds can be evaluated. *)

From Stdlib Require Import ZArith Zdivisibility Zpow_facts List Lia String Ascii Bool.
From Stdlib Require Import Permutation Field NsatzTactic Eqdep_dec.
From Bignums Require Import BigZ.
From stdpp Require Import base option list strings gmap pretty sorting.

Local Open Scope Z_scope.

(** ** Exceptions *)

Inductive error : Type :=
| InvalidSession      (* Error('Invalid session') *)
| InvalidRound        (* Error('Invalid round') *)
| NoInverse           (* Error('Modular inverse does not exist') *)
| KeyNotDerived       (* Error('Session key not yet derived...') *)
| TypeError           (* property access on undefined / null *)
| RangeError          (* BigInt division by zero, randomInt on an empty range *)
| SyntaxError.        (* BigInt() on a string that is not a number *)

Inductive res (A : Type) : Type :=
| Ok (a : A)
| Err (e : error).
Arguments Ok {A} a.
Arguments Err {A} e.

Definition bind {A B} (r : res A) (k : A -> res B) : res B :=
  match r with
  | Ok a => k a
  | Err e => Err e
  end.

Definition rmap {A B} (f : A -> B) (r : res A) : res B :=
  bind r (fun a => Ok (f a)).

Declare Scope result_scope.
Delimit Scope result_scope with res.
Notation "'let*' x ':=' r 'in' k" := (bind r (fun x => k))
  (at level 10, x pattern, r at level 100, k at level 200) : result_scope.
Local Open Scope result_scope.

Definition is_ok {A} (r : res A) : bool :=
  match r with Ok _ => true | Err _ => false end.

(** ** SHA-256 (the hash behind [crypto.createHash('sha256')] and
    [crypto.subtle.digest('SHA-256', _)]) *)

Module Sha256.

Definition w32 (x : Z) : Z := x mod 2 ^ 32.

Definition rotr (n x : Z) : Z :=
  Z.lor (Z.shiftr x n) (w32 (Z.shiftl x (32 - n))).

Definition Ch (x y z : Z) : Z :=
  Z.lxor (Z.land x y) (Z.land (Z.lxor x (2 ^ 32 - 1)) z).
Definition Maj (x y z : Z) : Z :=
  Z.lxor (Z.lxor (Z.land x y) (Z.land x z)) (Z.land y z).
Definition bsig0 (x : Z) : Z :=
  Z.lxor (Z.lxor (rotr 2 x) (rotr 13 x)) (rotr 22 x).
Definition bsig1 (x : Z) : Z :=
  Z.lxor (Z.lxor (rotr 6 x) (rotr 11 x)) (rotr 25 x).
Definition ssig0 (x : Z) : Z :=
  Z.lxor (Z.lxor (rotr 7 x) (rotr 18 x)) (Z.shiftr x 3).
Definition ssig1 (x : Z) : Z :=
  Z.lxor (Z.lxor (rotr 17 x) (rotr 19 x)) (Z.shiftr x 10).

Definition K256 : list Z :=
  [ 0x428A2F98; 0x71374491; 0xB5C0FBCF; 0xE9B5DBA5; 0x3956C25B; 0x59F111F1;
    0x923F82A4; 0xAB1C5ED5; 0xD807AA98; 0x12835B01; 0x243185BE; 0x550C7DC3;
    0x72BE5D74; 0x80DEB1FE; 0x9BDC06A7; 0xC19BF174; 0xE49B69C1; 0xEFBE4786;
    0x0FC19DC6; 0x240CA1CC; 0x2DE92C6F; 0x4A7484AA; 0x5CB0A9DC; 0x76F988DA;
    0x983E5152; 0xA831C66D; 0xB00327C8; 0xBF597FC7; 0xC6E00BF3; 0xD5A79147;
    0x06CA6351; 0x14292967; 0x27B70A85; 0x2E1B2138; 0x4D2C6DFC; 0x53380D13;
    0x650A7354; 0x766A0ABB; 0x81C2C92E; 0x92722C85; 0xA2BFE8A1; 0xA81A664B;
    0xC24B8B70; 0xC76C51A3; 0xD192E819; 0xD6990624; 0xF40E3585; 0x106AA070;
    0x19A4C116; 0x1E376C08; 0x2748774C; 0x34B0BCB5; 0x391C0CB3; 0x4ED8AA4A;
    0x5B9CCA4F; 0x682E6FF3; 0x748F82EE; 0x78A5636F; 0x84C87814; 0x8CC70208;
    0x90BEFFFA; 0xA4506CEB; 0xBEF9A3F7; 0xC67178F2 ].

Definition H0 : list Z :=
  [ 0x6A09E667; 0xBB67AE85; 0x3C6EF372; 0xA54FF53A;
    0x510E527F; 0x9B05688C; 0x1F83D9AB; 0x5BE0CD19 ].

(** Padding: 0x80, zeros up to 56 mod 64, then the bit length on 8 bytes. *)
Definition be_bytes (width : nat) (x : Z) : list Z :=
  map (fun i => (Z.shiftr x (8 * Z.of_nat i)) mod 256) (rev (seq 0 width)).

Definition pad (msg : list Z) : list Z :=
  let len := Z.of_nat (length msg) in
  let zeros := Z.to_nat ((55 - len) mod 64) in
  msg ++ [0x80] ++ repeat 0 zeros ++ be_bytes 8 (8 * len).

Definition be_word (bs : list Z) : Z :=
  fold_left (fun acc b => acc * 256 + b) bs 0.

Fixpoint chunks (fuel k : nat) (l : list Z) : list (list Z) :=
  match fuel with
  | O => []
  | S fuel' =>
      match l with
      | [] => []
      | _ => take k l :: chunks fuel' k (drop k l)
      end
  end.

Definition words_of_block (block : list Z) : list Z :=
  map be_word (chunks 16 4 block).

(** Message schedule, most recent word first. *)
Fixpoint schedule (n : nat) (rw : list Z) : list Z :=
  match n with
  | O => rw
  | S n' =>
      let w := w32 (ssig1 (nth 1 rw 0) + nth 6 rw 0
                    + ssig0 (nth 14 rw 0) + nth 15 rw 0) in
      schedule n' (w :: rw)
  end.

Definition round (st : list Z) (kw : Z * Z) : list Z :=
  match st with
  | [a; b; c; d; e; f; g; h] =>
      let t1 := h + bsig1 e + Ch e f g + fst kw + snd kw in
      let t2 := bsig0 a + Maj a b c in
      [w32 (t1 + t2); a; b; c; w32 (d + t1); e; f; g]
  | _ => st
  end.

Definition compress (st block : list Z) : list Z :=
  let w := rev (schedule 48 (rev (words_of_block block))) in
  let st' := fold_left round (combine K256 w) st in
  map (fun p => w32 (fst p + snd p)) (combine st st').

(** The 32 digest bytes. *)
Definition digest (msg : list Z) : list Z :=
  let p := pad msg in
  let blocks := chunks (length p) 64 p in
  concat (map (be_bytes 4) (fold_left compress blocks H0)).

End Sha256.

(** ** Strings, bytes and hexadecimal *)

(** A [string] is a byte string; it stands for the UTF-8 encoding that both
    Node's [update(str)] and the browser's [TextEncoder] apply. *)
Definition bytes_of_string (s : string) : list Z :=
  map (fun c => Z.of_N (N_of_ascii c)) (list_ascii_of_string s).

Definition hex_digit (d : Z) : ascii :=
  ascii_of_N (Z.to_N (if d <? 10 then 48 + d else 87 + d)).

(** [parseInt(_, 16)] / [BigInt('0x' + _)] on one character. *)
Definition hex_value (c : ascii) : option Z :=
  let n := Z.of_N (N_of_ascii c) in
  if (48 <=? n) && (n <=? 57) then Some (n - 48)
  else if (97 <=? n) && (n <=? 102) then Some (n - 87)
  else if (65 <=? n) && (n <=? 70) then Some (n - 55)
  else None.

(** [b.toString(16).padStart(2, '0')] for a byte. *)
Definition hex_of_byte (b : Z) : string :=
  String (hex_digit (b / 16)) (String (hex_digit (b mod 16)) EmptyString).

(** [digest('hex')]. *)
Definition hex_of_bytes (bs : list Z) : string :=
  fold_right (fun b acc => hex_of_byte b +:+ acc) EmptyString bs.

Definition sha256_hex (s : string) : string :=
  hex_of_bytes (Sha256.digest (bytes_of_string s)).

(** ** Graph model (server: zkp/graphIsomorphism.js; the client's [Graph]
    class has the same fields and methods) *)

Record Graph : Type := mkGraph {
  numNodes : nat;
  adjacencyMatrix : list (list Z)
}.

(** [new Graph(numNodes)] *)
Definition newGraph (n : nat) : Graph :=
  mkGraph n (replicate n (replicate n 0)).

(** [addEdge(i, j)]. On the square matrix of [new Graph(n)] an index outside
    the matrix makes one of the two assignments hit [undefined[_] = 1]. *)
Definition addEdge (g : Graph) (i j : nat) : res Graph :=
  let m := adjacencyMatrix g in
  if bool_decide (i < length m)%nat && bool_decide (j < length m)%nat then
    let m1 := alter (fun row => <[j := 1]> row) i m in
    let m2 := alter (fun row => <[i := 1]> row) j m1 in
    Ok (mkGraph (numNodes g) m2)
  else Err TypeError.

(** [adjacencyMatrix[i][j] === 1] with [i] a row that exists. *)
Definition entry_is_one (row : list Z) (j : nat) : bool :=
  match row !! j with
  | Some v => v =? 1
  | None => false
  end.

(** [getNeighbors(i)]: reading a column of a missing row throws, unless the
    loop body never runs. *)
Definition getNeighbors (g : Graph) (i : Z) : res (list nat) :=
  match numNodes g with
  | O => Ok []
  | _ =>
      match (if 0 <=? i then adjacencyMatrix g !! Z.to_nat i else None) with
      | Some row => Ok (filter (fun j => entry_is_one row j = true)
                               (seq 0 (numNodes g)))
      | None => Err TypeError
      end
  end.

(** [JSON.stringify(adjacencyMatrix)] *)
Definition json_list (items : list string) : string :=
  "[" +:+ String.concat "," items +:+ "]".
Definition json_matrix (m : list (list Z)) : string :=
  json_list (map (fun row => json_list (map pretty row)) m).

(** [getHash()] *)
Definition getHash (g : Graph) : string :=
  sha256_hex (json_matrix (adjacencyMatrix g)).

(** *** Secret graph from a seed *)

Fixpoint foldM {A S} (f : S -> A -> res S) (l : list A) (s : S) : res S :=
  match l with
  | [] => Ok s
  | a :: l' => let* s' := f s a in foldM f l' s'
  end.

(** The pairs visited by [for i < n) for (j = i + 1; j < n)], in order. *)
Definition edge_slots (n : nat) : list (nat * nat) :=
  flat_map (fun i => map (pair i) (seq (S i) (n - S i))) (seq 0 n).

Record BitCursor : Type := mkCursor {
  cur_graph : Graph;
  byteIndex : nat;
  bitIndex : nat
}.

(** One iteration of the inner loop, [bits byteIndex] being the value of
    [hash[byteIndex]] (resp. [hashBytes[byteIndex]]). *)
Definition edge_step (bytes : nat -> Z) (hashLength : nat)
    (st : BitCursor) (ij : nat * nat) : res BitCursor :=
  let bit := Z.land (Z.shiftr (bytes (byteIndex st)) (Z.of_nat (bitIndex st))) 1 in
  let* g := (if bit =? 1 then addEdge (cur_graph st) (fst ij) (snd ij)
             else Ok (cur_graph st)) in
  let bi := S (bitIndex st) in
  if (bi =? 8)%nat
  then Ok (mkCursor g ((byteIndex st + 1) mod hashLength)%nat 0)
  else Ok (mkCursor g (byteIndex st) bi).

(** One iteration of "Ensure graph has minimum connectivity". *)
Definition connect_step (g : Graph) (i : nat) : res Graph :=
  let* ns := getNeighbors g (Z.of_nat i) in
  if (length ns =? 0)%nat then addEdge g i ((i + 1) mod numNodes g)%nat
  else Ok g.

Definition graph_from_bytes (bytes : nat -> Z) (hashLength : nat)
    (numNodes : nat) : res Graph :=
  let* st := foldM (edge_step bytes hashLength) (edge_slots numNodes)
                   (mkCursor (newGraph numNodes) 0 0) in
  foldM connect_step (seq 0 (numNodes - 1)) (cur_graph st).

(** Server, zkp/graphIsomorphism.js: [hash] is the digest [Buffer]; reading
    past its end gives [undefined], and [undefined >> k] is 0. *)
Module Server.
Definition generateSecretGraph (seed : string) (numNodes : nat) : res Graph :=
  let hash := Sha256.digest (bytes_of_string seed) in
  graph_from_bytes (fun k => default 0 (hash !! k)) (length hash) numNodes.
End Server.

(** Client, zkp prover: [hashBytes] is rebuilt from the hex digest with
    [parseInt(hashHex.substr(i, 2), 16)]; [None] is [NaN]. *)
Module Client.
Definition parseInt16 (s : list ascii) : option Z :=
  match s with
  | [] => None
  | c1 :: rest =>
      match hex_value c1 with
      | None => None
      | Some a =>
          match rest with
          | c2 :: _ =>
              match hex_value c2 with
              | Some b => Some (16 * a + b)
              | None => Some a
              end
          | [] => Some a
          end
      end
  end.

Fixpoint hex_pairs (fuel : nat) (s : list ascii) : list (option Z) :=
  match fuel with
  | O => []
  | S fuel' =>
      match s with
      | [] => []
      | _ => parseInt16 (take 2 s) :: hex_pairs fuel' (drop 2 s)
      end
  end.

Definition hashBytes_of (hashHex : string) : list (option Z) :=
  let cs := list_ascii_of_string hashHex in
  hex_pairs (length cs) cs.

(** [NaN >> k] and [undefined >> k] are 0. *)
Definition byte_at (hashBytes : list (option Z)) (k : nat) : Z :=
  match hashBytes !! k with
  | Some (Some b) => b
  | _ => 0
  end.

Definition generateSecretGraph (seed : string) (numNodes : nat) : res Graph :=
  let hashHex := sha256_hex seed in
  let hashBytes := hashBytes_of hashHex in
  graph_from_bytes (byte_at hashBytes) (length hashBytes) numNodes.
End Client.

(** *** Permutations of a graph *)

(** [hasEdge(i, j)] *)
Definition hasEdge (g : Graph) (i j : nat) : res bool :=
  match adjacencyMatrix g !! i with
  | Some row => Ok (entry_is_one row j)
  | None => Err TypeError
  end.

(** [newGraph.addEdge(permutation[i], permutation[j])]: an entry of the
    permutation that is missing or negative throws like any index outside the
    matrix. *)
Definition addEdge_perm (newGraph : Graph) (permutation : list Z) (i j : nat)
    : res Graph :=
  match permutation !! i, permutation !! j with
  | Some a, Some b =>
      if (0 <=? a) && (0 <=? b) then addEdge newGraph (Z.to_nat a) (Z.to_nat b)
      else Err TypeError
  | _, _ => Err TypeError
  end.

(** One iteration of the inner loop of [applyPermutation]. *)
Definition permute_step (this : Graph) (permutation : list Z)
    (newGraph : Graph) (ij : nat * nat) : res Graph :=
  match adjacencyMatrix this !! fst ij with
  | None => Err TypeError
  | Some row =>
      if entry_is_one row (snd ij)
      then addEdge_perm newGraph permutation (fst ij) (snd ij)
      else Ok newGraph
  end.

Definition applyPermutation (this : Graph) (permutation : list Z) : res Graph :=
  foldM (permute_step this permutation) (edge_slots (numNodes this))
        (newGraph (numNodes this)).

(** [m[a][b]] for indices that may be [undefined] ([None]) or negative: a
    missing row throws, a missing column reads [undefined]. *)
Definition matrix_entry (m : list (list Z)) (a b : option Z)
    : res (option Z) :=
  match a with
  | Some a' =>
      if 0 <=? a' then
        match m !! Z.to_nat a' with
        | Some row =>
            Ok (match b with
                | Some b' => if 0 <=? b' then row !! Z.to_nat b' else None
                | None => None
                end)
        | None => Err TypeError
        end
      else Err TypeError
  | None => Err TypeError
  end.

(** The double loop of [isIsomorphicVia], which returns at the first
    difference. *)
Fixpoint isIsomorphicVia_loop (this other : list (list Z))
    (permutation : list Z) (slots : list (nat * nat)) : res bool :=
  match slots with
  | [] => Ok true
  | (i, j) :: rest =>
      let* x := matrix_entry this (Some (Z.of_nat i)) (Some (Z.of_nat j)) in
      let* y := matrix_entry other (permutation !! i) (permutation !! j) in
      if bool_decide (x = y)
      then isIsomorphicVia_loop this other permutation rest
      else Ok false
  end.

Definition isIsomorphicVia (this other : Graph) (permutation : list Z)
    : res bool :=
  isIsomorphicVia_loop (adjacencyMatrix this) (adjacencyMatrix other)
    permutation
    (flat_map (fun i => map (pair i) (seq 0 (numNodes this)))
              (seq 0 (numNodes this))).

(** [[perm[i], perm[j]] = [perm[j], perm[i]]]: both reads, then the two
    writes. [crypto.randomInt(0, i + 1)] returns [j <= i], inside the array;
    the array is left alone for an index outside it, which the loop never
    produces. *)
Definition swap_entries (perm : list nat) (i j : nat) : list nat :=
  match perm !! i, perm !! j with
  | Some a, Some b => <[j := a]> (<[i := b]> perm)
  | _, _ => perm
  end.

(** The loop [for (i = n - 1; i > 0; i--)] of [generateRandomPermutation];
    [draw i] is what [crypto.randomInt(0, i + 1)] returned in iteration
    [i]. *)
Fixpoint shuffle_from (i : nat) (draw : nat -> nat) (perm : list nat)
    : list nat :=
  match i with
  | O => perm
  | S i' => shuffle_from i' draw (swap_entries perm i (draw i))
  end.

Definition generateRandomPermutation (n : nat) (draw : nat -> nat) : list nat :=
  shuffle_from (n - 1) draw (seq 0 n).

(** [composePermutations(perm1, perm2)]: [perm1.map(i => perm2[i])]. *)
Definition composePermutations (perm1 perm2 : list nat) : list (option nat) :=
  map (fun i => perm2 !! i) perm1.

(** [inv[k] = v] on an array with holes ([None]); a write past the end
    grows the array. *)
Definition array_set (inv : list (option nat)) (k v : nat)
    : list (option nat) :=
  if bool_decide (k < length inv)%nat then <[k := Some v]> inv
  else inv ++ replicate (k - length inv) None ++ [Some v].

(** [inversePermutation(perm)] *)
Definition inversePermutation (perm : list nat) : list (option nat) :=
  fold_left (fun inv ip => array_set inv (snd ip) (fst ip))
            (zip (seq 0 (length perm)) perm)
            (replicate (length perm) None).

(** ** ZKP verifier session state machine ([SimpleZKPVerifier]) *)

Record Round : Type := mkRound {
  permutedGraph : Graph;
  permutedHash : string;
  challengeNode : nat;
  verified : bool
}.

Record Session : Type := mkSession {
  registeredHash : string;
  rounds : list Round;
  currentRound : nat;
  maxRounds : nat
}.

(** [this.sessions], a [Map] keyed by session id. *)
Abbreviation Verifier := (gmap string Session).

(** [new SimpleZKPVerifier()] *)
Definition newVerifier : Verifier := ∅.

Definition startSession (V : Verifier) (sessionId registeredGraphHash : string)
    : Verifier * (string * nat) :=
  (<[sessionId := mkSession registeredGraphHash [] 0 5]> V, (sessionId, 5%nat)).

(** [generateChallenge]; [draw] is the value [crypto.randomInt(0, numNodes)]
    returned, which throws on the empty range. *)
Definition generateChallenge (V : Verifier) (sessionId : string)
    (permutedGraphJSON : Graph) (draw : nat) : res (Verifier * (nat * nat)) :=
  match V !! sessionId with
  | None => Err InvalidSession
  | Some session =>
      let graph := permutedGraphJSON in
      if (numNodes graph =? 0)%nat then Err RangeError
      else
        let r := mkRound permutedGraphJSON (getHash graph) draw false in
        let session' := mkSession (registeredHash session)
                                  (rounds session ++ [r])
                                  (currentRound session)
                                  (maxRounds session) in
        Ok (<[sessionId := session']> V, (draw, currentRound session))
  end.

(** [permutation.indexOf(challengeNode)] *)
Fixpoint indexOf_from (k : Z) (l : list Z) (v : Z) : Z :=
  match l with
  | [] => -1
  | x :: l' => if x =? v then k else indexOf_from (k + 1) l' v
  end.
Definition indexOf (l : list Z) (v : Z) : Z := indexOf_from 0 l v.

(** [Array.prototype.sort()] without a comparator: [undefined] (here [None])
    goes last, the rest is ordered by the code units of [String(x)]. *)
Definition js_sort_le (x y : option Z) : bool :=
  match x, y with
  | _, None => true
  | None, Some _ => false
  | Some u, Some v => String.leb (pretty u) (pretty v)
  end.

Fixpoint js_insert (x : option Z) (l : list (option Z)) : list (option Z) :=
  match l with
  | [] => [x]
  | y :: l' => if js_sort_le x y then x :: l else y :: js_insert x l'
  end.

Definition js_sort (l : list (option Z)) : list (option Z) :=
  foldr js_insert [] l.

(** [JSON.stringify] of an array of numbers; [undefined] prints as [null]. *)
Definition json_numbers (l : list (option Z)) : string :=
  json_list (map (fun v => match v with Some z => pretty z | None => "null" end) l).

(** The check of [verifyResponse], from [originalNode] to [valid]. *)
Definition neighborsMatch (originalGraph permGraph : Graph)
    (permutation : list Z) (challenge : Z) : res bool :=
  let originalNode := indexOf permutation challenge in
  let* originalNeighbors := getNeighbors originalGraph originalNode in
  let* permutedNeighbors := getNeighbors permGraph challenge in
  let mappedNeighbors :=
    js_sort (map (fun n => permutation !! n) originalNeighbors) in
  let sortedPermutedNeighbors :=
    js_sort (map (fun j => Some (Z.of_nat j)) permutedNeighbors) in
  Ok (String.eqb (json_numbers mappedNeighbors)
                 (json_numbers sortedPermutedNeighbors)).

Record VerifyResult : Type := mkVerifyResult {
  valid : bool;
  round : nat;
  remaining : Z
}.

Definition set_verified (v : bool) (r : Round) : Round :=
  mkRound (permutedGraph r) (permutedHash r) (challengeNode r) v.

Definition verifyResponse (V : Verifier) (sessionId : string)
    (originalGraph : Graph) (permutation : list Z) (challenge : Z)
    : res (Verifier * VerifyResult) :=
  match V !! sessionId with
  | None => Err InvalidSession
  | Some session =>
      match rounds session !! currentRound session with
      | None => Err InvalidRound
      | Some r =>
          let* valid :=
            neighborsMatch originalGraph (permutedGraph r) permutation challenge in
          let session' :=
            mkSession (registeredHash session)
                      (<[currentRound session := set_verified valid r]> (rounds session))
                      (S (currentRound session))
                      (maxRounds session) in
          Ok (<[sessionId := session']> V,
              mkVerifyResult valid (currentRound session)
                (Z.of_nat (maxRounds session) - Z.of_nat (S (currentRound session))))
      end
  end.

Record Completion : Type := mkCompletion {
  complete : bool;
  success : bool;
  rounds_played : option nat
}.

Definition isComplete (V : Verifier) (sessionId : string) : Completion :=
  match V !! sessionId with
  | None => mkCompletion false false None
  | Some session =>
      let complete := bool_decide (maxRounds session <= currentRound session)%nat in
      let success := complete && forallb verified (rounds session) in
      mkCompletion complete success (Some (currentRound session))
  end.

Definition endSession (V : Verifier) (sessionId : string) : Verifier * Completion :=
  (delete sessionId V, isComplete V sessionId).

(** Verifier states that the class's methods can produce. *)
Inductive reachable : Verifier -> Prop :=
| reach_new : reachable newVerifier
| reach_start V sid h :
    reachable V -> reachable (fst (startSession V sid h))
| reach_challenge V sid g d V' out :
    reachable V -> generateChallenge V sid g d = Ok (V', out) -> reachable V'
| reach_verify V sid og perm c V' out :
    reachable V -> verifyResponse V sid og perm c = Ok (V', out) -> reachable V'
| reach_end V sid :
    reachable V -> reachable (fst (endSession V sid)).

(** ** Finite-field arithmetic (crypto/ecc.js; the browser copy is identical) *)

(** [mod(a, m)]: [%] is the truncating remainder. [a % 0n] throws a
    RangeError, which the callers that receive their modulus as an argument
    raise before they call [js_mod]. *)
Definition js_mod (a m : Z) : Z :=
  let result := Z.rem a m in
  if 0 <=? result then result else result + m.

Record EGcd : Type := mkEGcd { gcd : Z; coef_x : Z; coef_y : Z }.

(** [extendedGcd(a, b)], with the depth of the recursion as fuel. *)
Fixpoint extendedGcd_fuel (fuel : nat) (a b : Z) : option EGcd :=
  match fuel with
  | O => None
  | S fuel' =>
      if a =? 0 then Some (mkEGcd b 0 1)
      else
        match extendedGcd_fuel fuel' (js_mod b a) a with
        | Some r => Some (mkEGcd (gcd r)
                            (coef_y r - (Z.quot b a) * coef_x r) (coef_x r))
        | None => None
        end
  end.

(** Two calls at least halve a non-negative first argument, so this depth is
    never exceeded when [0 <= a] (lemma [extendedGcd_total]). With a negative
    [a] the JavaScript recursion may not end; running out of fuel stands for
    its "Maximum call stack size exceeded" RangeError. *)
Definition egcd_depth (a : Z) : nat := 3 + 2 * Z.to_nat (Z.log2 (Z.abs a)).

Definition extendedGcd (a b : Z) : res EGcd :=
  match extendedGcd_fuel (egcd_depth a) a b with
  | Some r => Ok r
  | None => Err RangeError
  end.

Definition modInverse (a m : Z) : res Z :=
  if m =? 0 then Err RangeError
  else
    let a := js_mod a m in
    let* r := extendedGcd a m in
    if negb (gcd r =? 1) then Err NoInverse
    else Ok (js_mod (coef_x r) m).

(** The [while (exp > 0n)] loop of [modPow]: [exp % 2n === 1n] is the low
    bit and [exp / 2n] drops it. *)
Fixpoint modPow_loop (exp : positive) (base result m : Z) : Z :=
  match exp with
  | xH => js_mod (result * base) m
  | xO exp' => modPow_loop exp' (js_mod (base * base) m) result m
  | xI exp' =>
      modPow_loop exp' (js_mod (base * base) m) (js_mod (result * base) m) m
  end.

Definition modPow (base exp m : Z) : res Z :=
  if m =? 0 then Err RangeError
  else
    let base := js_mod base m in
    match exp with
    | Zpos e => Ok (modPow_loop e base 1 m)
    | _ => Ok 1
    end.

(** ** Elliptic-curve group (secp256k1) *)

Module CURVE.
Definition p : Z :=
  0xFFFFFFFFFFFFFFFFFFFFFFFFFFFFFFFFFFFFFFFFFFFFFFFFFFFFFFFEFFFFFC2F.
Definition a : Z := 0.
Definition b : Z := 7.
Definition Gx : Z :=
  0x79BE667EF9DCBBAC55A06295CE870B07029BFCDB2DCE28D959F2815B16F81798.
Definition Gy : Z :=
  0x483ADA7726A3C4655DA4FBFC0E1108A8FD17B448A68554199C47D08FFB10D4B8.
Definition n : Z :=
  0xFFFFFFFFFFFFFFFFFFFFFFFFFFFFFFFEBAAEDCE6AF48A03BBFD25E8CD0364141.
Definition h : Z := 1.
End CURVE.

(** [Point]: [Infinity] is [new Point(null, null)]. *)
Inductive Point : Type :=
| Infinity
| Affine (x y : Z).

Definition isInfinity (P : Point) : bool :=
  match P with Infinity => true | Affine _ _ => false end.

Definition isOnCurve (P : Point) : bool :=
  match P with
  | Infinity => true
  | Affine x y =>
      let left := js_mod (y * y) CURVE.p in
      let right := js_mod (x * x * x + CURVE.a * x + CURVE.b) CURVE.p in
      left =? right
  end.

Definition negate (P : Point) : Point :=
  match P with
  | Infinity => Infinity
  | Affine x y => Affine x (js_mod (- y) CURVE.p)
  end.

Definition pointAdd (P Q : Point) : res Point :=
  match P, Q with
  | Infinity, _ => Ok Q
  | _, Infinity => Ok P
  | Affine x1 y1, Affine x2 y2 =>
      if (x1 =? x2) && (js_mod (y1 + y2) CURVE.p =? 0) then Ok Infinity
      else if (x1 =? x2) && (y1 =? y2) then
        if y1 =? 0 then Ok Infinity
        else
          let numerator := js_mod (3 * x1 * x1 + CURVE.a) CURVE.p in
          let denominator := js_mod (2 * y1) CURVE.p in
          let* inv := modInverse denominator CURVE.p in
          let s := js_mod (numerator * inv) CURVE.p in
          let x3 := js_mod (s * s - x1 - x2) CURVE.p in
          let y3 := js_mod (s * (x1 - x3) - y1) CURVE.p in
          Ok (Affine x3 y3)
      else
        let numerator := js_mod (y2 - y1) CURVE.p in
        let denominator := js_mod (x2 - x1) CURVE.p in
        let* inv := modInverse denominator CURVE.p in
        let s := js_mod (numerator * inv) CURVE.p in
        let x3 := js_mod (s * s - x1 - x2) CURVE.p in
        let y3 := js_mod (s * (x1 - x3) - y1) CURVE.p in
        Ok (Affine x3 y3)
  end.

Definition pointDouble (P : Point) : res Point := pointAdd P P.

(** The [while (k > 0n)] loop of [scalarMultiply]: [k & 1n] is the low bit,
    [k >> 1n] drops it; the addend is doubled in every iteration, the last
    one included. *)
Fixpoint scalarMultiply_loop (k : positive) (result addend : Point)
    : res Point :=
  match k with
  | xH =>
      let* result := pointAdd result addend in
      let* _ := pointDouble addend in
      Ok result
  | xO k' =>
      let* addend := pointDouble addend in
      scalarMultiply_loop k' result addend
  | xI k' =>
      let* result := pointAdd result addend in
      let* addend := pointDouble addend in
      scalarMultiply_loop k' result addend
  end.

Definition scalarMultiply (k : Z) (P : Point) : res Point :=
  match k with
  | Z0 => Ok Infinity
  | Zneg k' => scalarMultiply_loop k' Infinity (negate P)
  | Zpos k' => scalarMultiply_loop k' Infinity P
  end.

Definition getGenerator : Point := Affine CURVE.Gx CURVE.Gy.

(** [generatePrivateKeySync()], [bytes] being what [crypto.randomBytes(32)]
    returned. *)
Definition generatePrivateKeySync (bytes : list Z) : Z :=
  let privateKey := fold_left (fun acc byte => Z.shiftl acc 8 + byte) bytes 0 in
  js_mod privateKey (CURVE.n - 1) + 1.

Definition generatePublicKey (privateKey : Z) : res Point :=
  scalarMultiply privateKey getGenerator.

(** [x.toString(16)] for a BigInt. *)
Definition hex_width (x : Z) : nat :=
  if x =? 0 then 1%nat else Z.to_nat (Z.log2 x / 4 + 1).
Definition hex_digits (x : Z) : list ascii :=
  map (fun i => hex_digit ((x / 16 ^ Z.of_nat i) mod 16))
      (rev (seq 0 (hex_width x))).
Definition toString16 (x : Z) : list ascii :=
  if x <? 0 then "-"%char :: hex_digits (- x) else hex_digits x.

(** [s.padStart(64, '0')] *)
Definition padStart64 (s : list ascii) : list ascii :=
  replicate (64 - length s) "0"%char ++ s.

(** [BigInt('0x' + s)] for [s] made of hexadecimal digits; anything else,
    the empty string included, is a SyntaxError. (The white space that
    [BigInt] would trim around the digits is not modelled.) *)
Fixpoint parse_hex_from (acc : Z) (s : list ascii) : res Z :=
  match s with
  | [] => Ok acc
  | c :: s' =>
      match hex_value c with
      | Some d => parse_hex_from (16 * acc + d) s'
      | None => Err SyntaxError
      end
  end.
Definition bigint_of_hex (s : list ascii) : res Z :=
  match s with
  | [] => Err SyntaxError
  | _ => parse_hex_from 0 s
  end.

Definition privateKeyToHex (privateKey : Z) : string :=
  string_of_list_ascii (padStart64 (toString16 privateKey)).

Definition hexToPrivateKey (hex : string) : res Z :=
  bigint_of_hex (list_ascii_of_string hex).

Definition compressPublicKey (publicKey : Point) : string :=
  match publicKey with
  | Infinity => "00"
  | Affine x y =>
      let prefix := if Z.rem y 2 =? 0 then "02" else "03" in
      prefix +:+ string_of_list_ascii (padStart64 (toString16 x))
  end.

Definition decompressPublicKey (compressed : string) : res Point :=
  if String.eqb compressed "00" then Ok Infinity
  else
    let cs := list_ascii_of_string compressed in
    let prefix := string_of_list_ascii (take 2 cs) in
    let* x := bigint_of_hex (drop 2 cs) in
    let ySquared := js_mod (x * x * x + CURVE.a * x + CURVE.b) CURVE.p in
    let* y := modPow ySquared (Z.quot (CURVE.p + 1) 4) CURVE.p in
    let isEven := Z.rem y 2 =? 0 in
    let y := if (String.eqb prefix "02" && negb isEven)
                || (String.eqb prefix "03" && isEven)
             then js_mod (- y) CURVE.p else y in
    Ok (Affine x y).

(** [P.equals(other)] *)
Definition equals (P other : Point) : bool :=
  match P, other with
  | Infinity, Infinity => true
  | Affine x1 y1, Affine x2 y2 => (x1 =? x2) && (y1 =? y2)
  | _, _ => false
  end.

(** The object [toJSON] returns and [fromJSON] reads: [None] is [null]. *)
Record PointJSON : Type := mkPointJSON {
  json_x : option string;
  json_y : option string
}.

Definition toJSON (P : Point) : PointJSON :=
  match P with
  | Infinity => mkPointJSON None None
  | Affine x y =>
      mkPointJSON (Some (string_of_list_ascii (toString16 x)))
                  (Some (string_of_list_ascii (toString16 y)))
  end.

(** ['0x' + json.x], where [null] prints as ["null"]. *)
Definition json_hex (v : option string) : list ascii :=
  list_ascii_of_string (match v with Some s => s | None => "null" end).

Definition fromJSON (json : PointJSON) : res Point :=
  match json_x json, json_y json with
  | None, None => Ok Infinity
  | jx, jy =>
      let* x := bigint_of_hex (json_hex jx) in
      let* y := bigint_of_hex (json_hex jy) in
      Ok (Affine x y)
  end.

Definition isValidPublicKey (publicKey : Point) : res bool :=
  if isInfinity publicKey then Ok false
  else if negb (isOnCurve publicKey) then Ok false
  else
    let* check := scalarMultiply CURVE.n publicKey in
    Ok (isInfinity check).

(** [generateKeyPair()], from the random bytes drawn. *)
Definition generateKeyPair (bytes : list Z) : res (Z * Point) :=
  let privateKey := generatePrivateKeySync bytes in
  let* publicKey := generatePublicKey privateKey in
  Ok (privateKey, publicKey).

(** [simpleHash(data)] for a string, given by its UTF-16 code units
    ([str.charCodeAt(i)]); [hash || 1n] replaces [0n]. *)
Definition simpleHash (str : list Z) : Z :=
  let hash := fold_left (fun hash c => js_mod (hash * 31 + c) CURVE.n) str 0 in
  if hash =? 0 then 1 else hash.

(** ** Key agreement (crypto/ecdh.js) *)

(** The two dynamically typed arguments of [computeSharedSecret]. *)
Inductive PrivArg : Type := PrivHex (hex : string) | PrivInt (k : Z).
Inductive PubArg : Type := PubCompressed (c : string) | PubPoint (P : Point).

(** [sharedPoint.x], which is [null] ([None]) at infinity. *)
Definition point_x (P : Point) : option Z :=
  match P with Infinity => None | Affine x _ => Some x end.

Definition computeSharedSecret (ourPrivateKey : PrivArg)
    (theirPublicKey : PubArg) : res (option Z) :=
  let* privKey := (match ourPrivateKey with
                   | PrivHex hex => hexToPrivateKey hex
                   | PrivInt k => Ok k
                   end) in
  let* pubKey := (match theirPublicKey with
                  | PubCompressed c => decompressPublicKey c
                  | PubPoint P => Ok P
                  end) in
  let* sharedPoint := scalarMultiply privKey pubKey in
  Ok (point_x sharedPoint).

(** [Buffer.from(hex, 'hex')]: one byte per pair of hexadecimal digits, up to
    the first pair that is not one. *)
Fixpoint buffer_of_hex (s : list ascii) : list Z :=
  match s with
  | c1 :: c2 :: s' =>
      match hex_value c1, hex_value c2 with
      | Some h, Some l => (16 * h + l) :: buffer_of_hex s'
      | _, _ => []
      end
  | _ => []
  end.

(** [deriveSymmetricKey]; [null.toString] is a TypeError. *)
Definition deriveSymmetricKey (sharedSecret : option Z) : res (list Z) :=
  match sharedSecret with
  | None => Err TypeError
  | Some secret =>
      let secretHex := padStart64 (toString16 secret) in
      let secretBuffer := buffer_of_hex secretHex in
      Ok (Sha256.digest secretBuffer)
  end.

Definition performECDH (ourPrivateKey : PrivArg) (theirPublicKey : PubArg)
    : res (list Z) :=
  let* sharedSecret := computeSharedSecret ourPrivateKey theirPublicKey in
  deriveSymmetricKey sharedSecret.

Record ECDHSession : Type := mkECDHSession {
  privateKey : Z;
  publicKey : Point;
  privateKeyHex : string;
  publicKeyCompressed : string;
  sessionKey : option (list Z);
  peerPublicKey : option Point
}.

(** [new ECDHSession()], [bytes] being the random bytes drawn for the
    ephemeral private key. *)
Definition newECDHSession (bytes : list Z) : res ECDHSession :=
  let privateKey := generatePrivateKeySync bytes in
  let* publicKey := generatePublicKey privateKey in
  Ok (mkECDHSession privateKey publicKey (privateKeyToHex privateKey)
        (compressPublicKey publicKey) None None).

(** [setRemotePublicKey]: the two assignments happen one after the other, so
    an exception in [performECDH] leaves [peerPublicKey] set and
    [sessionKey] as it was. *)
Definition setRemotePublicKey (s : ECDHSession)
    (peerPublicKeyCompressed : string) : ECDHSession * res (list Z) :=
  match decompressPublicKey peerPublicKeyCompressed with
  | Err e => (s, Err e)
  | Ok peer =>
      let s1 := mkECDHSession (privateKey s) (publicKey s) (privateKeyHex s)
                  (publicKeyCompressed s) (sessionKey s) (Some peer) in
      match performECDH (PrivInt (privateKey s)) (PubPoint peer) with
      | Err e => (s1, Err e)
      | Ok key =>
          (mkECDHSession (privateKey s) (publicKey s) (privateKeyHex s)
             (publicKeyCompressed s) (Some key) (Some peer), Ok key)
      end
  end.

Definition getPublicKey (s : ECDHSession) : string := publicKeyCompressed s.

(** [getSessionKey]: a [Buffer] is truthy, [null] is not. *)
Definition getSessionKey (s : ECDHSession) : res (list Z) :=
  match sessionKey s with
  | None => Err KeyNotDerived
  | Some key => Ok key
  end.

(** * Properties *)

(** ** ZKP session state machine *)

Section ZkpSessions.
Implicit Types (V : Verifier) (sid : string) (s : Session).

Lemma startSession_lookup V sid h :
  fst (startSession V sid h) !! sid = Some (mkSession h [] 0 5).
Proof. cbn. apply lookup_insert_eq. Qed.

Lemma generateChallenge_inv V sid g d V' out :
  generateChallenge V sid g d = Ok (V', out) ->
  exists s, V !! sid = Some s /\ numNodes g <> 0%nat /\
    out = (d, currentRound s) /\
    V' = <[sid := mkSession (registeredHash s)
                    (rounds s ++ [mkRound g (getHash g) d false])
                    (currentRound s) (maxRounds s)]> V.
Proof.
  unfold generateChallenge. destruct (V !! sid) as [s|]; [|discriminate].
  destruct (Nat.eqb_spec (numNodes g) 0); [discriminate|].
  intros [= <- <-]. by exists s.
Qed.

Lemma verifyResponse_inv V sid og perm c V' out :
  verifyResponse V sid og perm c = Ok (V', out) ->
  exists s r v, V !! sid = Some s /\
    rounds s !! currentRound s = Some r /\
    neighborsMatch og (permutedGraph r) perm c = Ok v /\
    out = mkVerifyResult v (currentRound s)
            (Z.of_nat (maxRounds s) - Z.of_nat (S (currentRound s))) /\
    V' = <[sid := mkSession (registeredHash s)
                    (<[currentRound s := set_verified v r]> (rounds s))
                    (S (currentRound s)) (maxRounds s)]> V.
Proof.
  unfold verifyResponse. destruct (V !! sid) as [s|]; [|discriminate].
  destruct (rounds s !! currentRound s) as [r|] eqn:Hr; [|discriminate].
  destruct (neighborsMatch og (permutedGraph r) perm c) as [v|e] eqn:Hm;
    [|discriminate].
  unfold bind. intros [= <- <-]. by exists s, r, v.
Qed.

Lemma neighborsMatch_error og pg perm c e :
  neighborsMatch og pg perm c = Err e -> e = TypeError.
Proof.
  unfold neighborsMatch, getNeighbors.
  repeat (case_match; unfold bind; try discriminate); congruence.
Qed.

Lemma verifyResponse_known_session V sid og perm c :
  is_Some (V !! sid) -> verifyResponse V sid og perm c <> Err InvalidSession.
Proof.
  intros [s Hs]. unfold verifyResponse. rewrite Hs.
  destruct (rounds s !! currentRound s) as [r|]; [|done].
  destruct (neighborsMatch og (permutedGraph r) perm c) as [v|e] eqn:Hm; [done|].
  apply neighborsMatch_error in Hm as ->. done.
Qed.

(** Every session of a reachable verifier still has the round budget that
    [startSession] gave it. *)
Lemma reachable_maxRounds V :
  reachable V -> forall sid s, V !! sid = Some s -> maxRounds s = 5%nat.
Proof.
  induction 1 as [|V sid0 h _ IH|V sid0 g d V' out _ IH Hstep
                 |V sid0 og perm c V' out _ IH Hstep|V sid0 _ IH];
    intros sid s Hs.
  - discriminate.
  - cbn in Hs. destruct (decide (sid0 = sid)) as [->|Hne].
    + rewrite lookup_insert_eq in Hs. by injection Hs as <-.
    + rewrite lookup_insert_ne in Hs by done. eauto.
  - apply generateChallenge_inv in Hstep as (s0 & Hs0 & _ & _ & ->).
    destruct (decide (sid0 = sid)) as [->|Hne].
    + rewrite lookup_insert_eq in Hs. injection Hs as <-. cbn. eauto.
    + rewrite lookup_insert_ne in Hs by done. eauto.
  - apply verifyResponse_inv in Hstep as (s0 & r & v & Hs0 & _ & _ & _ & ->).
    destruct (decide (sid0 = sid)) as [->|Hne].
    + rewrite lookup_insert_eq in Hs. injection Hs as <-. cbn. eauto.
    + rewrite lookup_insert_ne in Hs by done. eauto.
  - cbn in Hs. apply lookup_delete_Some in Hs as [_ Hs]. eauto.
Qed.

Lemma forallb_verified (l : list Round) :
  forallb verified l = true <-> Forall (fun r => verified r = true) l.
Proof. rewrite forallb_forall, Forall_forall. setoid_rewrite list_elem_of_In. done. Qed.

(** C1. A session created by [startSession] starts at round 0 with five
    rounds to play; in every verifier state the class can reach,
    [isComplete] reports [complete] exactly when [currentRound] has reached
    [maxRounds = 5], and [success] exactly when it is complete and every
    recorded round is verified, so that one unverified round makes
    [success] false. *)
Theorem isComplete_complete_and_success V sid s :
  reachable V -> V !! sid = Some s ->
  (forall V0 h, fst (startSession V0 sid h) !! sid = Some (mkSession h [] 0 5)) /\
  maxRounds s = 5%nat /\
  (complete (isComplete V sid) = true <-> (maxRounds s <= currentRound s)%nat) /\
  (success (isComplete V sid) = true <->
     complete (isComplete V sid) = true /\
     Forall (fun r => verified r = true) (rounds s)) /\
  (forall r, r ∈ rounds s -> verified r = false ->
     success (isComplete V sid) = false).
Proof.
  intros HV Hs. unfold isComplete. rewrite Hs. cbn.
  split; [intros; apply startSession_lookup|].
  split; [by eapply reachable_maxRounds|].
  split; [apply bool_decide_eq_true|].
  split.
  - rewrite andb_true_iff, forallb_verified. done.
  - intros r Hr Hv. apply andb_false_iff. right.
    apply not_true_is_false. rewrite forallb_verified, Forall_forall.
    intros Hall. specialize (Hall r Hr). congruence.
Qed.

(** C2. A failed check does not end the session: the round's record is
    stored with [verified = false], [currentRound] grows by one, the answer
    carries [valid = false] and the rounds left, the other sessions are
    untouched, and the session accepts the next commitment and response. *)
Theorem verifyResponse_failed_round_continues V sid s og perm c V' out :
  V !! sid = Some s ->
  verifyResponse V sid og perm c = Ok (V', out) ->
  valid out = false ->
  exists r,
    rounds s !! currentRound s = Some r /\
    V' !! sid = Some (mkSession (registeredHash s)
                        (<[currentRound s := set_verified false r]> (rounds s))
                        (S (currentRound s)) (maxRounds s)) /\
    out = mkVerifyResult false (currentRound s)
            (Z.of_nat (maxRounds s) - Z.of_nat (currentRound s) - 1) /\
    (forall sid', sid' <> sid -> V' !! sid' = V !! sid') /\
    (forall g d, numNodes g <> 0%nat ->
       exists V'', generateChallenge V' sid g d = Ok (V'', (d, S (currentRound s)))) /\
    (forall og' perm' c', verifyResponse V' sid og' perm' c' <> Err InvalidSession).
Proof.
  intros Hs Hstep Hv.
  apply verifyResponse_inv in Hstep as (s0 & r & v & Hs0 & Hr & _ & -> & ->).
  assert (s0 = s) as -> by congruence. clear Hs0. cbn in Hv. subst v.
  exists r. split; [done|]. split; [apply lookup_insert_eq|].
  split; [f_equal; lia|].
  split; [intros; by apply lookup_insert_ne|].
  split.
  - intros g d Hg. unfold generateChallenge. rewrite lookup_insert_eq.
    destruct (Nat.eqb_spec (numNodes g) 0); [done|]. cbn. eauto.
  - intros og' perm' c'. apply verifyResponse_known_session.
    by rewrite lookup_insert_eq.
Qed.

(** Forgetting the challenge nodes that [generateChallenge] drew. *)
Definition forget_round (r : Round) : Round :=
  mkRound (permutedGraph r) (permutedHash r) 0 (verified r).
Definition forget_session (s : Session) : Session :=
  mkSession (registeredHash s) (forget_round <$> rounds s)
            (currentRound s) (maxRounds s).
Definition forget_challenges (V : Verifier) : Verifier := forget_session <$> V.

Lemma forget_set_verified v r :
  forget_round (set_verified v r) = set_verified v (forget_round r).
Proof. done. Qed.

Lemma generateChallenge_forget V sid g d1 d2 V1 V2 o1 o2 :
  generateChallenge V sid g d1 = Ok (V1, o1) ->
  generateChallenge V sid g d2 = Ok (V2, o2) ->
  forget_challenges V1 = forget_challenges V2.
Proof.
  intros (s1 & Hs1 & _ & _ & ->)%generateChallenge_inv
         (s2 & Hs2 & _ & _ & ->)%generateChallenge_inv.
  rewrite Hs1 in Hs2. injection Hs2 as <-.
  unfold forget_challenges. rewrite !fmap_insert. f_equal.
  unfold forget_session. cbn. by rewrite !fmap_app.
Qed.

(** C3. [verifyResponse] never reads the challenge node that was drawn and
    stored by [generateChallenge]: on two verifier states that differ at
    most in stored challenge nodes, the same arguments give the same
    outcome (the same exception, or the same [valid], round and remaining
    count), and the states still differ at most in stored challenge nodes. *)
Theorem verifyResponse_ignores_stored_challenge V1 V2 sid og perm c :
  forget_challenges V1 = forget_challenges V2 ->
  rmap (fun '(V', out) => (forget_challenges V', out))
       (verifyResponse V1 sid og perm c)
  = rmap (fun '(V', out) => (forget_challenges V', out))
         (verifyResponse V2 sid og perm c).
Proof.
  intros HV.
  assert (Hl : forget_session <$> V1 !! sid = forget_session <$> V2 !! sid).
  { unfold forget_challenges in HV. by rewrite <- !lookup_fmap, HV. }
  unfold verifyResponse.
  destruct (V1 !! sid) as [s1|], (V2 !! sid) as [s2|]; try done.
  injection Hl as Hh Hr Hc Hm. rewrite <- Hc, <- Hm, <- Hh.
  assert (Hk : forget_round <$> rounds s1 !! currentRound s1
               = forget_round <$> rounds s2 !! currentRound s1).
  { by rewrite <- !list_lookup_fmap, Hr. }
  destruct (rounds s1 !! _) as [r1|], (rounds s2 !! _) as [r2|]; try done.
  injection Hk as Hg Hp Hvf. rewrite <- Hg.
  destruct (neighborsMatch og (permutedGraph r1) perm c) as [v|e]; [|done].
  cbn. do 2 f_equal. unfold forget_challenges. rewrite !fmap_insert.
  change (forget_session <$> V1) with (forget_challenges V1).
  rewrite HV. f_equal. unfold forget_session. cbn. f_equal.
  rewrite !list_fmap_insert, Hr. f_equal.
  destruct r1, r2; cbn in *; unfold forget_round, set_verified; cbn; congruence.
Qed.

End ZkpSessions.

(** ** Finite-field arithmetic *)

Section FieldArithmetic.

Lemma js_mod_pos a m : 0 < m -> js_mod a m = a mod m.
Proof.
  intros Hm. unfold js_mod.
  pose proof (Z.rem_bound_abs a m ltac:(lia)) as Hb.
  pose proof (Z.rem_sign_nz a m ltac:(lia)) as Hsg.
  pose proof (Z.quot_rem a m ltac:(lia)) as Hqr.
  destruct (Z.leb_spec 0 (Z.rem a m)).
  - apply Z.mod_unique_pos with (q := Z.quot a m); lia.
  - apply Z.mod_unique_pos with (q := Z.quot a m - 1); lia.
Qed.

Lemma js_mod_range a m : 0 < m -> 0 <= js_mod a m < m.
Proof. intros Hm. rewrite js_mod_pos by done. by apply Z.mod_pos_bound. Qed.

(** What a successful [extendedGcd] returns. *)
Definition egcd_spec (a b : Z) (r : EGcd) : Prop :=
  gcd r = Z.gcd a b /\ a * coef_x r + b * coef_y r = gcd r.

Lemma extendedGcd_fuel_spec (n : nat) :
  forall (fuel : nat) (a b : Z),
    0 <= a < 2 ^ Z.of_nat n -> 0 <= b -> (2 * n + 1 <= fuel)%nat ->
    exists r, extendedGcd_fuel fuel a b = Some r /\ egcd_spec a b r.
Proof.
  induction n as [|n IH]; intros fuel a b Ha Hb Hfuel.
  - assert (a = 0) as -> by (change (2 ^ Z.of_nat 0) with 1 in Ha; lia).
    destruct fuel as [|fuel]; [lia|]. cbn.
    eexists; split; [done|]. split; cbn; [|lia].
    rewrite Z.gcd_0_l, Z.abs_eq; lia.
  - destruct fuel as [|fuel]; [lia|].
    cbn [extendedGcd_fuel].
    destruct (Z.eqb_spec a 0) as [->|Hnz].
    { eexists; split; [done|]. split; cbn; [|lia].
      rewrite Z.gcd_0_l, Z.abs_eq; lia. }
    assert (Hapos : 0 < a) by lia.
    rewrite js_mod_pos by done.
    pose proof (Z.mod_pos_bound b a Hapos) as Hr1.
    (* the callee, unfolded once more to reach the halved argument *)
    assert (Hcallee : exists r, extendedGcd_fuel fuel (b mod a) a = Some r
                                /\ egcd_spec (b mod a) a r).
    { destruct fuel as [|fuel]; [lia|].
      cbn [extendedGcd_fuel].
      destruct (Z.eqb_spec (b mod a) 0) as [Hz|Hnz1].
      { rewrite Hz. eexists; split; [done|]. split; cbn; [|lia].
        rewrite Z.gcd_0_l, Z.abs_eq; lia. }
      assert (Hr1pos : 0 < b mod a) by lia.
      rewrite js_mod_pos by done.
      pose proof (Z.mod_pos_bound a (b mod a) Hr1pos) as Hr2.
      assert (Hhalf : 2 * (a mod (b mod a)) < a).
      { pose proof (Z.div_mod a (b mod a) ltac:(lia)) as Hdm.
        assert (1 <= a / (b mod a)) by (apply Z.div_le_lower_bound; lia).
        nia. }
      destruct (IH fuel (a mod (b mod a)) (b mod a)) as (r & Hr & Hg & Hbez).
      { rewrite Nat2Z.inj_succ, Z.pow_succ_r in Ha by lia. lia. }
      { lia. }
      { lia. }
      rewrite Hr. eexists; split; [done|]. split; cbn.
      - rewrite Hg. apply Z.gcd_mod. lia.
      - rewrite Z.quot_div_nonneg by lia.
        pose proof (Z.div_mod a (b mod a) ltac:(lia)). nia. }
    destruct Hcallee as (r & Hr & Hg & Hbez).
    rewrite Hr. eexists; split; [done|]. split; cbn.
    + rewrite Hg. apply Z.gcd_mod. lia.
    + rewrite Z.quot_div_nonneg by lia.
      pose proof (Z.div_mod b a ltac:(lia)). nia.
Qed.

(** The recursion of [extendedGcd] ends within [egcd_depth a] calls when
    [a] is not negative. *)
Lemma extendedGcd_total a b :
  0 <= a -> 0 <= b -> exists r, extendedGcd a b = Ok r /\ egcd_spec a b r.
Proof.
  intros Ha Hb. unfold extendedGcd.
  destruct (extendedGcd_fuel_spec (S (Z.to_nat (Z.log2 a))) (egcd_depth a) a b)
    as (r & -> & Hspec);
    [|done|unfold egcd_depth; rewrite Z.abs_eq by done; lia|eauto].
  split; [done|].
  rewrite Nat2Z.inj_succ, Z2Nat.id by apply Z.log2_nonneg.
  destruct (Z.eq_dec a 0) as [->|]; [done|].
  apply Z.log2_spec. lia.
Qed.

Lemma modInverse_spec a m :
  0 < m ->
  match modInverse a m with
  | Ok i => Z.gcd a m = 1 /\ 0 <= i < m /\ (a * i) mod m = 1 mod m
  | Err e => Z.gcd a m <> 1 /\ e = NoInverse
  end.
Proof.
  intros Hm. unfold modInverse.
  destruct (Z.eqb_spec m 0); [lia|].
  rewrite js_mod_pos by done.
  destruct (extendedGcd_total (a mod m) m) as (r & -> & Hg & Hbez);
    [by apply Z.mod_pos_bound|lia|].
  unfold bind.
  assert (Hgcd : gcd r = Z.gcd a m).
  { rewrite Hg, Z.gcd_mod by lia. apply Z.gcd_comm. }
  destruct (Z.eqb_spec (gcd r) 1) as [H1|H1]; cbn.
  - split; [congruence|]. split; [by apply js_mod_range|].
    rewrite js_mod_pos by done.
    rewrite Z.mul_mod_idemp_r by lia.
    rewrite <- Z.mul_mod_idemp_l by lia.
    replace ((a mod m) * coef_x r) with (1 + (- coef_y r) * m) by lia.
    by rewrite Z.mod_add by lia.
  - split; [congruence|done].
Qed.

(** C9. For a modulus [m > 0]: [modInverse(a, m)] throws its "does not
    exist" error whenever [gcd(a, m) <> 1], and then returns nothing (so
    never 0); in particular [modInverse(0, m)] throws for every [m > 1];
    and when [gcd(a, m) = 1] it returns the inverse of [a] modulo [m], in
    [[0, m)]. *)
Theorem modInverse_NoInverse_or_inverse a m :
  0 < m ->
  (Z.gcd a m <> 1 -> modInverse a m = Err NoInverse) /\
  (1 < m -> modInverse 0 m = Err NoInverse) /\
  (Z.gcd a m = 1 ->
     exists i, modInverse a m = Ok i /\ 0 <= i < m /\ (a * i) mod m = 1 mod m).
Proof.
  intros Hm. split; [|split].
  - intros Hg. pose proof (modInverse_spec a m Hm) as H.
    destruct (modInverse a m) as [i|e]; [tauto|]. by destruct H as [_ ->].
  - intros Hm1. pose proof (modInverse_spec 0 m Hm) as H.
    destruct (modInverse 0 m) as [i|e].
    + destruct H as [H _]. rewrite Z.gcd_0_l, Z.abs_eq in H; lia.
    + by destruct H as [_ ->].
  - intros Hg. pose proof (modInverse_spec a m Hm) as H.
    destruct (modInverse a m) as [i|e]; [|tauto]. exists i. tauto.
Qed.

Lemma modInverse_NoInverse_or_inverse_witness :
  0 < 7 /\
  modInverse 14 7 = Err NoInverse /\ modInverse 0 7 = Err NoInverse /\
  exists i, modInverse 3 7 = Ok i /\ 0 <= i < 7 /\ (3 * i) mod 7 = 1 mod 7.
Proof.
  pose proof (modInverse_NoInverse_or_inverse 14 7 ltac:(lia)) as (H1 & H2 & _).
  pose proof (modInverse_NoInverse_or_inverse 3 7 ltac:(lia)) as (_ & _ & H3).
  split; [lia|]. split; [apply H1; vm_compute; lia|].
  split; [apply H2; lia|]. apply H3. reflexivity.
Defined.

End FieldArithmetic.

(** ** Secret graph derivation *)

Section SecretGraph.

Lemma hex_value_digit d : 0 <= d < 16 -> hex_value (hex_digit d) = Some d.
Proof.
  intros Hd.
  assert (Hcases : d = 0 \/ d = 1 \/ d = 2 \/ d = 3 \/ d = 4 \/ d = 5 \/ d = 6
                   \/ d = 7 \/ d = 8 \/ d = 9 \/ d = 10 \/ d = 11 \/ d = 12
                   \/ d = 13 \/ d = 14 \/ d = 15) by lia.
  repeat (destruct Hcases as [->|Hcases]; [reflexivity|]). by subst.
Qed.

Definition is_byte (b : Z) : Prop := 0 <= b < 256.

Lemma be_bytes_range width x : Forall is_byte (Sha256.be_bytes width x).
Proof.
  unfold Sha256.be_bytes. apply Forall_forall. intros b Hb.
  apply list_elem_of_In, in_map_iff in Hb as (i & <- & _).
  apply Z.mod_pos_bound. lia.
Qed.

Lemma digest_range msg : Forall is_byte (Sha256.digest msg).
Proof.
  unfold Sha256.digest. apply Forall_concat, Forall_forall.
  intros l Hl. apply list_elem_of_In, in_map_iff in Hl as (w & <- & _).
  apply be_bytes_range.
Qed.

Lemma hex_of_bytes_cons b bs :
  list_ascii_of_string (hex_of_bytes (b :: bs))
  = hex_digit (b / 16) :: hex_digit (b mod 16)
      :: list_ascii_of_string (hex_of_bytes bs).
Proof. done. Qed.

Lemma parseInt16_byte b rest :
  is_byte b ->
  Client.parseInt16 (take 2 (hex_digit (b / 16) :: hex_digit (b mod 16) :: rest))
  = Some b.
Proof.
  intros Hb. unfold is_byte in Hb. cbn [take Client.parseInt16].
  rewrite !hex_value_digit.
  - f_equal. pose proof (Z.div_mod b 16). lia.
  - apply Z.mod_pos_bound. lia.
  - split; [apply Z.div_pos; lia|apply Z.div_lt_upper_bound; lia].
Qed.

(** Reading the hex digest back two characters at a time gives the digest
    bytes. *)
Lemma hex_pairs_hex_of_bytes bs :
  Forall is_byte bs ->
  forall fuel, (length bs <= fuel)%nat ->
    Client.hex_pairs fuel (list_ascii_of_string (hex_of_bytes bs)) = map Some bs.
Proof.
  induction 1 as [|b bs Hb _ IH]; intros fuel Hfuel.
  - by destruct fuel.
  - destruct fuel as [|fuel]; [cbn in Hfuel; lia|].
    rewrite hex_of_bytes_cons. cbn [Client.hex_pairs].
    rewrite parseInt16_byte by done. cbn [drop map]. f_equal.
    apply IH. cbn in Hfuel. lia.
Qed.

Lemma hex_of_bytes_length bs :
  length (list_ascii_of_string (hex_of_bytes bs)) = (2 * length bs)%nat.
Proof.
  induction bs as [|b bs IH]; [done|].
  rewrite hex_of_bytes_cons. cbn [length]. rewrite IH. lia.
Qed.

Lemma hashBytes_of_hex bs :
  Forall is_byte bs -> Client.hashBytes_of (hex_of_bytes bs) = map Some bs.
Proof.
  intros Hbs. unfold Client.hashBytes_of.
  apply hex_pairs_hex_of_bytes; [done|]. rewrite hex_of_bytes_length. lia.
Qed.

Lemma byte_at_Some bs k : Client.byte_at (map Some bs) k = default 0 (bs !! k).
Proof.
  unfold Client.byte_at.
  change (map Some bs) with (Some <$> bs). rewrite list_lookup_fmap.
  by destruct (bs !! k).
Qed.

Lemma foldM_ext {A S} (f g : S -> A -> res S) l :
  (forall s a, f s a = g s a) -> forall s, foldM f l s = foldM g l s.
Proof.
  intros Hfg. induction l as [|a l IH]; intros s; [done|].
  cbn. rewrite Hfg. destruct (g s a); cbn; [apply IH|done].
Qed.

(** The derivation reads the hash only through [bytes] and [hashLength]. *)
Lemma graph_from_bytes_ext bytes1 bytes2 hashLength numNodes :
  (forall k, bytes1 k = bytes2 k) ->
  graph_from_bytes bytes1 hashLength numNodes
  = graph_from_bytes bytes2 hashLength numNodes.
Proof.
  intros Hb. unfold graph_from_bytes.
  rewrite (foldM_ext (edge_step bytes1 hashLength) (edge_step bytes2 hashLength));
    [done|].
  intros st ij. unfold edge_step. by rewrite Hb.
Qed.

(** C5. The server-side and the client-side derivations return the same
    graph (the same adjacency matrix, or the same exception) for every seed
    and node count. Each is a function of the seed and the node count
    alone, so two invocations with the same arguments agree. *)
Theorem generateSecretGraph_server_client (seed : string) (numNodes : nat) :
  Server.generateSecretGraph seed numNodes
  = Client.generateSecretGraph seed numNodes.
Proof.
  unfold Server.generateSecretGraph, Client.generateSecretGraph, sha256_hex.
  cbv zeta. set (hash := Sha256.digest (bytes_of_string seed)).
  rewrite hashBytes_of_hex by apply digest_range.
  rewrite length_map. apply graph_from_bytes_ext.
  intros k. by rewrite byte_at_Some.
Qed.

(** C4 at the seed ["seed115"] with eight nodes: the derivation succeeds
    and node 7 has no neighbour. *)
Lemma generateSecretGraph_last_node_isolated :
  exists g, Server.generateSecretGraph "seed115" 8 = Ok g /\
            numNodes g = 8%nat /\ getNeighbors g 7 = Ok [].
Proof. eexists. split; [vm_compute; reflexivity|]. split; reflexivity. Qed.

End SecretGraph.

(** ** Number theory behind the field prime *)

Section NumberTheory.

Definition zprod (l : list Z) : Z := fold_right Z.mul 1 l.

Lemma zprod_Permutation l l' : Permutation l l' -> zprod l = zprod l'.
Proof. unfold zprod. induction 1; cbn; [done|congruence|ring|congruence]. Qed.

Lemma zprod_map_mul_mod a r (l : list Z) :
  r <> 0 ->
  zprod (map (fun x => (a * x) mod r) l) mod r
  = (a ^ Z.of_nat (length l) * zprod l) mod r.
Proof.
  intros Hr. induction l as [|x l IH].
  - done.
  - cbn [map zprod fold_right length].
    change (fold_right Z.mul 1 ?l) with (zprod l).
    rewrite Z.mul_mod, IH, <- Z.mul_mod by done.
    rewrite Z.mul_mod_idemp_l by done.
    rewrite Nat2Z.inj_succ, Z.pow_succ_r by lia.
    f_equal. ring.
Qed.

Lemma prime_not_divide_zprod r (l : list Z) :
  Z.prime r -> Forall (fun x => ~ (r | x)) l -> ~ (r | zprod l).
Proof.
  intros Hr. induction 1 as [|x l Hx _ IH]; cbn.
  - intros Hd. apply Z.divide_1_r in Hd. destruct Hr as [Hr _]. lia.
  - intros Hd. apply Z.divide_prime_mul in Hd; tauto.
Qed.

Lemma small_not_divide r x : 0 < x < r -> ~ (r | x).
Proof. intros Hx Hd. apply Z.divide_pos_le in Hd; lia. Qed.

(** Fermat's little theorem, by the permutation of the residues. *)
Theorem fermat_little r a : Z.prime r -> ~ (r | a) -> a ^ (r - 1) mod r = 1.
Proof.
  intros Hr Ha. pose proof (Z.prime_ge_2 r Hr) as Hr2.
  set (L := map Z.of_nat (seq 1 (Z.to_nat (r - 1)))).
  assert (HL : forall x, x ∈ L <-> 0 < x < r).
  { intros x. unfold L. rewrite list_elem_of_In, in_map_iff. split.
    - intros (k & <- & Hk%in_seq). lia.
    - intros Hx. exists (Z.to_nat x). split; [lia|]. apply in_seq. lia. }
  assert (HLlen : Z.of_nat (length L) = r - 1).
  { unfold L. rewrite length_map, length_seq. lia. }
  assert (HLnd : NoDup L).
  { unfold L. apply (NoDup_fmap_2 Z.of_nat), NoDup_seq. }
  set (f := fun x => (a * x) mod r).
  assert (Hf : forall x, 0 < x < r -> 0 < f x < r).
  { intros x Hx. unfold f.
    pose proof (Z.mod_pos_bound (a * x) r ltac:(lia)).
    enough (a * x mod r <> 0) by lia.
    intros H0. apply Z.mod_divide in H0; [|lia].
    apply Z.divide_prime_mul in H0; [|done].
    destruct H0 as [?|Hd]; [done|]. by apply small_not_divide in Hd. }
  assert (Hinj : forall x y, 0 < x < r -> 0 < y < r -> f x = f y -> x = y).
  { intros x y Hx Hy Hxy. unfold f in Hxy.
    assert (Hd : (r | a * (x - y))).
    { apply Z.mod_divide; [lia|].
      rewrite Z.mul_sub_distr_l, Zminus_mod, Hxy, Z.sub_diag. done. }
    apply Z.divide_prime_mul in Hd; [|done]. destruct Hd as [?|Hd]; [done|].
    destruct (Z.eq_dec x y) as [|Hne]; [done|exfalso].
    destruct (Z.lt_ge_cases y x).
    - apply (small_not_divide r (x - y)); [lia|done].
    - apply (small_not_divide r (y - x)); [lia|].
      apply Z.divide_opp_r in Hd. by replace (y - x) with (- (x - y)) by lia. }
  assert (Hperm : Permutation (map f L) L).
  { apply submseteq_length_Permutation; [|by rewrite length_map].
    apply NoDup_submseteq.
    - apply (NoDup_fmap_2_strong f); [|done].
      intros x y Hx%HL Hy%HL. by apply Hinj.
    - intros y (x & -> & Hx)%(list_elem_of_fmap_1 f). apply HL, Hf, HL, Hx. }
  assert (Hprod : (r | zprod L * (a ^ (r - 1) - 1))).
  { apply Z.mod_divide; [lia|].
    rewrite Z.mul_sub_distr_l, Z.mul_1_r, Zminus_mod.
    rewrite (Z.mul_comm (zprod L)), <- HLlen.
    rewrite <- (zprod_map_mul_mod a r L) by lia.
    fold f. rewrite (zprod_Permutation _ _ Hperm), Z.sub_diag. done. }
  apply Z.divide_prime_mul in Hprod; [|done]. destruct Hprod as [Hd|Hd].
  - exfalso. revert Hd. apply prime_not_divide_zprod; [done|].
    apply Forall_forall. intros x Hx%HL. by apply small_not_divide.
  - destruct Hd as [k Hk].
    replace (a ^ (r - 1)) with (1 + k * r) by lia.
    rewrite Z.mod_add by lia. apply Z.mod_small. lia.
Qed.

Lemma pow_mod_one r a n : 1 < r -> 0 <= n -> a mod r = 1 -> a ^ n mod r = 1.
Proof.
  intros Hr Hn Ha. rewrite Zpower_mod by lia. rewrite Ha, Z.pow_1_l by done.
  apply Z.mod_small. lia.
Qed.

(** If two powers of [a] are 1 modulo [r], so is the power by their gcd. *)
Lemma pow_gcd_one r a :
  1 < r -> forall (k : nat) n m, 0 <= n < Z.of_nat k -> 0 <= m ->
  a ^ m mod r = 1 -> a ^ n mod r = 1 -> a ^ Z.gcd m n mod r = 1.
Proof.
  intros Hr. induction k as [|k IH]; intros n m Hn Hm Ham Han; [lia|].
  destruct (Z.eq_dec n 0) as [->|Hn0].
  { by rewrite Z.gcd_0_r, Z.abs_eq. }
  pose proof (Z.mod_pos_bound m n ltac:(lia)) as Hmn.
  pose proof (Z.div_mod m n Hn0) as Hdm.
  assert (0 <= m / n) by (apply Z.div_pos; lia).
  assert (Hrem : a ^ (m mod n) mod r = 1).
  { rewrite Hdm, Z.pow_add_r, Z.pow_mul_r in Ham by lia.
    rewrite Z.mul_mod in Ham by lia.
    rewrite (pow_mod_one r (a ^ n) (m / n)) in Ham by (done || lia).
    rewrite Z.mul_1_l, Z.mod_mod in Ham by lia. done. }
  rewrite (Z.gcd_comm m n), <- (Z.gcd_mod m n), (Z.gcd_comm (m mod n) n) by done.
  apply IH; (done || lia).
Qed.

(** One prime of the factored part: every prime divisor of [N] is 1
    modulo [q]. *)
Lemma pocklington_step N q a r :
  1 < N -> Z.prime q -> (q | N - 1) ->
  a ^ (N - 1) mod N = 1 ->
  Z.gcd (a ^ ((N - 1) / q) mod N - 1) N = 1 ->
  Z.prime r -> (r | N) -> (q | r - 1).
Proof.
  intros HN Hq HqN Hpow Hgcd Hr HrN.
  pose proof (Z.prime_ge_2 r Hr) as Hr2. pose proof (Z.prime_ge_2 q Hq) as Hq2.
  assert (Hmodr : forall x, x mod N = 1 -> x mod r = 1).
  { intros x Hx. pose proof (Z.div_mod x N ltac:(lia)) as Hd.
    destruct HrN as [c Hc]. rewrite Hx in Hd.
    replace x with (1 + (c * (x / N)) * r) by (rewrite Hd at 2; rewrite Hc; ring).
    rewrite Z.mod_add by lia. apply Z.mod_small. lia. }
  assert (Hpr : a ^ (N - 1) mod r = 1) by by apply Hmodr.
  assert (Hna : ~ (r | a)).
  { intros Hd. assert (Hd' : (r | a ^ (N - 1))).
    { etransitivity; [exact Hd|]. apply Z.divide_pow_same_r. lia. }
    apply Z.mod_divide in Hd'; lia. }
  pose proof (fermat_little r a Hr Hna) as Hfl.
  set (g := Z.gcd (N - 1) (r - 1)).
  assert (Hg : a ^ g mod r = 1).
  { unfold g. apply (pow_gcd_one r a ltac:(lia) (Z.to_nat r)); (done || lia). }
  destruct (Z.eq_dec ((r - 1) mod q) 0) as [H0|Hnd].
  { apply Z.mod_divide in H0; [done|lia]. }
  exfalso.
  assert (Hqg : ~ (q | g)).
  { intros Hd. apply Hnd, Z.mod_divide; [lia|].
    etransitivity; [exact Hd|]. apply Z.gcd_divide_r. }
  destruct HqN as [M HM].
  assert (HMq : (N - 1) / q = M) by (rewrite HM; apply Z.div_mul; lia).
  assert (HgM : (g | M)).
  { apply Z.gauss with (m := q).
    - rewrite Z.mul_comm, <- HM. apply Z.gcd_divide_l.
    - rewrite Z.gcd_comm. by apply Z.coprime_prime_l. }
  destruct HgM as [t Ht].
  assert (Hg0 : 0 < g).
  { pose proof (Z.gcd_nonneg (N - 1) (r - 1)).
    destruct (Z.eq_dec g 0) as [E|]; [|lia].
    unfold g in E. apply Z.gcd_eq_0 in E. lia. }
  assert (HM0 : 0 < M) by nia.
  assert (Ht0 : 0 <= t) by nia.
  assert (HaM : a ^ M mod r = 1).
  { rewrite Ht, Z.mul_comm, Z.pow_mul_r by lia. apply pow_mod_one; (done || lia). }
  assert (Hdiv : (r | a ^ M mod N - 1)).
  { pose proof (Z.div_mod (a ^ M) N ltac:(lia)) as Hd.
    pose proof (Z.div_mod (a ^ M) r ltac:(lia)) as Hd'.
    rewrite HaM in Hd'. destruct HrN as [c Hc].
    exists (a ^ M / r - c * (a ^ M / N)).
    rewrite Z.mul_sub_distr_r.
    replace (c * (a ^ M / N) * r) with (N * (a ^ M / N)) by (rewrite Hc; ring).
    lia. }
  rewrite HMq in Hgcd.
  assert (Hr1 : (r | 1)).
  { rewrite <- Hgcd. by apply Z.gcd_greatest. }
  apply Z.divide_1_r in Hr1. lia.
Qed.

(** A number above 1 has a prime divisor. *)
Lemma dec_small_divisor N (k : nat) :
  (exists n, 1 < n < Z.of_nat k /\ (n | N)) \/
  (forall n, 1 < n < Z.of_nat k -> ~ (n | N)).
Proof.
  induction k as [|k [IH|IH]].
  - right. lia.
  - left. destruct IH as (n & Hn & Hd). exists n. split; [lia|done].
  - destruct (Z.eq_dec (N mod Z.of_nat k) 0) as [H0|Hn0].
    + destruct (Z_le_gt_dec (Z.of_nat k) 1) as [Hk|Hk].
      * right. intros n Hn. lia.
      * left. exists (Z.of_nat k). split; [lia|]. apply Z.mod_divide; lia.
    + right. intros n Hn. destruct (Z.eq_dec n (Z.of_nat k)) as [->|].
      * intros Hd. apply Hn0, Z.mod_divide; [lia|done].
      * apply IH. lia.
Qed.

Lemma prime_divisor_exists (k : nat) :
  forall N, 1 < N < Z.of_nat k -> exists r, Z.prime r /\ (r | N).
Proof.
  induction k as [|k IH]; intros N HN; [lia|].
  destruct (dec_small_divisor N (Z.to_nat N)) as [(n & Hn & Hd)|Hnone].
  - destruct (IH n ltac:(lia)) as (r & Hr & Hrn).
    exists r. split; [done|]. by etransitivity.
  - exists N. split; [|done]. split; [lia|]. intros n Hn. apply Hnone. lia.
Qed.

Lemma small_prime_divisor N n :
  1 < n < N -> (n | N) -> exists r, Z.prime r /\ (r | N) /\ r * r <= N.
Proof.
  intros Hn [e He].
  assert (He1 : 1 < e) by nia.
  destruct (Z_le_gt_dec n e) as [Hle|Hgt].
  - destruct (prime_divisor_exists (Z.to_nat (n + 1)) n ltac:(lia))
      as (r & Hr & Hrn).
    exists r. split; [done|]. split.
    + etransitivity; [exact Hrn|]. exists e. lia.
    + pose proof (Z.prime_ge_2 r Hr).
      assert (r <= n) by (apply Z.divide_pos_le; [lia|done]). nia.
  - destruct (prime_divisor_exists (Z.to_nat (e + 1)) e ltac:(lia))
      as (r & Hr & Hre).
    exists r. split; [done|]. split.
    + etransitivity; [exact Hre|]. exists n. lia.
    + pose proof (Z.prime_ge_2 r Hr).
      assert (r <= e) by (apply Z.divide_pos_le; [lia|done]). nia.
Qed.

(** Trial division up to the square root. *)
Fixpoint trial_loop (fuel : nat) (d n : Z) : bool :=
  match fuel with
  | O => true
  | S fuel' => negb (n mod d =? 0) && trial_loop fuel' (d + 1) n
  end.

Definition trial_check (n : Z) : bool :=
  (1 <? n) && trial_loop (Z.to_nat (Z.sqrt n) - 1) 2 n.

Lemma trial_loop_spec fuel :
  forall d n r, trial_loop fuel d n = true ->
    d <= r < d + Z.of_nat fuel -> n mod r <> 0.
Proof.
  induction fuel as [|fuel IH]; intros d n r; cbn [trial_loop]; [lia|].
  rewrite andb_true_iff, negb_true_iff, Z.eqb_neq. intros [Hd Hrest] Hr.
  destruct (Z.eq_dec r d) as [->|]; [done|].
  apply (IH (d + 1)); [done|lia].
Qed.

Lemma trial_check_sound n : trial_check n = true -> Z.prime n.
Proof.
  unfold trial_check. rewrite andb_true_iff.
  intros [Hn%Z.ltb_lt Hall]. split; [done|]. intros d Hd Hdiv.
  destruct (small_prime_divisor n d Hd Hdiv) as (r & Hr & Hrn & Hsq).
  pose proof (Z.prime_ge_2 r Hr) as Hr2.
  assert (Hrs : r <= Z.sqrt n) by (apply Z.sqrt_le_square; lia).
  apply (trial_loop_spec _ _ _ r Hall); [lia|].
  apply Z.mod_divide; [lia|done].
Qed.

(** Modular exponentiation on machine-word integers, for the certificates
    below. *)
Fixpoint bigpow_mod (a : bigZ) (e : positive) (m : bigZ) : bigZ :=
  match e with
  | xH => BigZ.modulo a m
  | xO e' =>
      let t := bigpow_mod a e' m in BigZ.modulo (BigZ.mul t t) m
  | xI e' =>
      let t := bigpow_mod a e' m in
      BigZ.modulo (BigZ.mul (BigZ.modulo (BigZ.mul t t) m) a) m
  end.

Lemma bigpow_mod_spec a e m :
  0 < BigZ.to_Z m ->
  BigZ.to_Z (bigpow_mod a e m) = BigZ.to_Z a ^ Zpos e mod BigZ.to_Z m.
Proof.
  intros Hm. induction e as [e IH|e IH|]; cbn [bigpow_mod].
  - rewrite !BigZ.spec_modulo, !BigZ.spec_mul, !BigZ.spec_modulo, !BigZ.spec_mul, IH.
    set (x := BigZ.to_Z a ^ Z.pos e). set (m' := BigZ.to_Z m) in *.
    rewrite <- (Z.mul_mod x x m') by lia.
    rewrite Z.mul_mod_idemp_l by lia.
    f_equal. unfold x.
    rewrite Pos2Z.inj_xI, Z.pow_add_r, Z.pow_1_r by lia.
    by rewrite <- Z.add_diag, Z.pow_add_r by lia.
  - rewrite !BigZ.spec_modulo, !BigZ.spec_mul, IH.
    rewrite <- Z.mul_mod by lia. f_equal.
    by rewrite Pos2Z.inj_xO, <- Z.add_diag, Z.pow_add_r by lia.
  - by rewrite BigZ.spec_modulo, Z.pow_1_r.
Qed.

(** Pocklington's criterion, checked by computation: [cert] lists primes
    [q] dividing [N - 1] with a witness [a] each; their product must exceed
    the square root of [N]. With [c = a ^ ((N - 1) / q)], the power
    [a ^ (N - 1)] is [c ^ q]. *)
Definition pock_check (N : Z) (cert : list (Z * Z)) : bool :=
  (1 <? N) &&
  forallb (fun qa => let '(q, a) := qa in
             let bN := BigZ.of_Z N in
             let c := bigpow_mod (BigZ.of_Z a) (Z.to_pos ((N - 1) / q)) bN in
             ((N - 1) mod q =? 0) &&
             (BigZ.to_Z (bigpow_mod c (Z.to_pos q) bN) =? 1) &&
             (Z.gcd (BigZ.to_Z c - 1) N =? 1)) cert &&
  (N <? fold_right Z.lcm 1 (map fst cert) * fold_right Z.lcm 1 (map fst cert)).

Theorem pock_check_sound N cert :
  Forall Z.prime (map fst cert) -> pock_check N cert = true -> Z.prime N.
Proof.
  unfold pock_check. rewrite !andb_true_iff, forallb_forall.
  intros Hprimes [[HN%Z.ltb_lt Hall] HF%Z.ltb_lt].
  split; [done|]. intros d Hd Hdiv.
  destruct (small_prime_divisor N d Hd Hdiv) as (r & Hr & Hrn & Hsq).
  pose proof (Z.prime_ge_2 r Hr) as Hr2.
  assert (Hlcm : (fold_right Z.lcm 1 (map fst cert) | r - 1)).
  { clear HF. induction cert as [|[q a] cert IH]; cbn [map fst fold_right].
    - apply Z.divide_1_l.
    - apply Forall_cons_1 in Hprimes as [Hq Hprimes].
      pose proof (Z.prime_ge_2 q Hq) as Hq2.
      apply Z.lcm_least.
      + specialize (Hall (q, a) ltac:(by left)). cbv beta iota zeta in Hall.
        rewrite !andb_true_iff, !Z.eqb_eq in Hall.
        destruct Hall as [[Hdq Hp] Hg].
        apply Z.mod_divide in Hdq; [|lia].
        assert (HR : 0 < (N - 1) / q).
        { destruct Hdq as [M HM]. rewrite HM, Z.div_mul by lia. nia. }
        rewrite !bigpow_mod_spec in Hp by (rewrite BigZ.spec_of_Z; lia).
        rewrite bigpow_mod_spec in Hg by (rewrite BigZ.spec_of_Z; lia).
        rewrite !BigZ.spec_of_Z, !Z2Pos.id in * by lia.
        apply (pocklington_step N q a r); try done.
        rewrite <- Zpower_mod, <- Z.pow_mul_r in Hp by lia.
        destruct Hdq as [M HM].
        rewrite HM, Z.div_mul in Hp by lia. by rewrite HM.
      + apply IH; [done|]. intros x Hx. apply Hall. by right. }
  set (F := fold_right Z.lcm 1 (map fst cert)) in *.
  assert (0 <= F).
  { unfold F. destruct (map fst cert); cbn; [lia|apply Z.lcm_nonneg]. }
  assert (F <= r - 1) by (apply Z.divide_pos_le; [lia|done]).
  nia.
Qed.

Lemma prime_4423 : Z.prime 4423.
Proof. apply trial_check_sound. vm_cast_no_check (eq_refl true). Qed.
Lemma prime_41201 : Z.prime 41201.
Proof. apply trial_check_sound. vm_cast_no_check (eq_refl true). Qed.
Lemma prime_96557 : Z.prime 96557.
Proof. apply trial_check_sound. vm_cast_no_check (eq_refl true). Qed.
Lemma prime_7240687 : Z.prime 7240687.
Proof. apply trial_check_sound. vm_cast_no_check (eq_refl true). Qed.

Lemma prime_b128 : Z.prime 255515944373312847190720520512484175977.
Proof.
  apply (pock_check_sound _ [(7240687, 2); (96557, 2); (41201, 2); (4423, 2)]).
  - cbn [map fst].
    constructor; [apply prime_7240687|].
    constructor; [apply prime_96557|].
    constructor; [apply prime_41201|].
    constructor; [apply prime_4423|constructor].
  - vm_cast_no_check (eq_refl true).
Qed.

Lemma prime_q237 :
  Z.prime 205115282021455665897114700593932402728804164701536103180137503955397371.
Proof.
  apply (pock_check_sound _ [(255515944373312847190720520512484175977, 2)]).
  - cbn [map fst]. constructor; [apply prime_b128|constructor].
  - vm_cast_no_check (eq_refl true).
Qed.

Theorem prime_p : Z.prime (2^256 - 2^32 - 977).
Proof.
  apply (pock_check_sound _
    [(205115282021455665897114700593932402728804164701536103180137503955397371, 2)]).
  - cbn [map fst]. constructor; [apply prime_q237|constructor].
  - vm_cast_no_check (eq_refl true).
Qed.
End NumberTheory.

(** ** The group law of y^2 = x^3 + b over a field *)

Module EC.

Section ShortWeierstrass.
Local Unset Default Proof Using.

Variable K : Type.
Variables (kO kI : K) (kadd kmul ksub : K -> K -> K) (kopp : K -> K)
          (kdiv : K -> K -> K) (kinv : K -> K).
Hypothesis Kfth : field_theory kO kI kadd kmul ksub kopp kdiv kinv (@eq K).
Hypothesis Keq_dec : forall x y : K, {x = y} + {x <> y}.

(** The characteristic is large: small integers are not zero in [K]. *)
Hypothesis Kchar : forall z : Z, 0 < z < 2 ^ 128 ->
  InitialRing.gen_phiZ kO kI kadd kmul kopp z <> kO.

Variable kb : K.
Hypothesis kb_nonzero : kb <> kO.

Declare Scope K_scope.
Delimit Scope K_scope with K.
Local Open Scope K_scope.
Local Notation "0" := kO : K_scope.
Local Notation "1" := kI : K_scope.
Local Infix "+" := kadd : K_scope.
Local Infix "*" := kmul : K_scope.
Local Infix "-" := ksub : K_scope.
Local Notation "- x" := (kopp x) : K_scope.
Local Notation "2" := (1 + 1) : K_scope.
Local Notation "3" := (1 + (1 + 1)) : K_scope.

Add Field Kfield : Kfth.

Lemma Krth : ring_theory kO kI kadd kmul ksub kopp (@eq K).
Proof. exact (F_R Kfth). Qed.

Local Instance Kops : @Ring_ops K kO kI kadd kmul ksub kopp (@eq K) := {}.
Local Instance Kring : Ring (Ro := Kops).
Proof.
  constructor; try typeclasses eauto;
    try (repeat intro; cbv [equality eq_notation] in *; cbn in *; congruence);
    intros; cbv [equality eq_notation addition add_notation multiplication
                 mul_notation subtraction sub_notation opposite opp_notation
                 zero zero_notation one one_notation]; cbn; ring.
Defined.
Local Instance Kcring : Cring (Rr := Kring).
Proof. intros x y. change (kmul x y = kmul y x). ring. Defined.

Lemma Kintegral x y : x * y = 0 -> x = 0 \/ y = 0.
Proof.
  intros H. destruct (Keq_dec x 0) as [->|Hx]; [by left|right].
  transitivity (kinv x * (x * y)); [field; exact Hx|].
  rewrite H. ring.
Qed.
Local Instance Kdomain : Integral_domain (Rcr := Kcring).
Proof. constructor; [exact Kintegral|exact (F_1_neq_0 Kfth)]. Defined.

Lemma Kchar_abs (z : Z) :
  (0 < Z.abs z < 2 ^ 128)%Z -> InitialRing.gen_phiZ kO kI kadd kmul kopp z <> 0.
Proof.
  destruct z as [|q|q]; cbn [Z.abs]; intros H; try lia.
  - apply Kchar; lia.
  - intros E. apply (Kchar (Zpos q)); [lia|]. cbn in *.
    match type of E with - ?t = _ => transitivity (- - t); [ring|rewrite E; ring] end.
Qed.

Lemma neq_inverse x y : x <> y -> (x - y) * kinv (x - y) = 1.
Proof.
  intros H. rewrite (Rmul_comm Krth). apply (Finv_l Kfth). intros E. apply H.
  transitivity (x - y + y); [ring|rewrite E; ring].
Qed.

(** [nsatz], then the side condition that its integer coefficient is not
    zero in [K]. *)
Ltac knsatz :=
  nsatz;
  lazymatch goal with
  | |- ~ (interpret3 (PEc ?c) _ == _) =>
      apply (Kchar_abs c); vm_compute; split; reflexivity
  end.

(** Each hypothesis [u <> v] becomes an equation [(u - v) * i = 1]. *)
Ltac neq_to_inverse :=
  repeat match goal with
  | H : ?u <> ?v |- _ =>
      let i := fresh "i" in let Hi := fresh "Hi" in
      pose proof (neq_inverse _ _ H) as Hi; clear H; revert Hi;
      generalize (kinv (u - v)); intros i Hi
  end.

Ltac kcontra := exfalso; neq_to_inverse; apply (F_1_neq_0 Kfth); knsatz.

Definition Kpoint : Type := option (K * K).

Definition on_curve (P : Kpoint) : Prop :=
  match P with
  | None => True
  | Some (x, y) => y * y = x * x * x + kb
  end.

Definition kneg (P : Kpoint) : Kpoint :=
  match P with
  | None => None
  | Some (x, y) => Some (x, - y)
  end.

Definition ksum (s x1 y1 x2 : K) : Kpoint :=
  let x3 := s * s - x1 - x2 in Some (x3, s * (x1 - x3) - y1).

Definition padd (P Q : Kpoint) : Kpoint :=
  match P, Q with
  | None, _ => Q
  | _, None => P
  | Some (x1, y1), Some (x2, y2) =>
      if Keq_dec x1 x2 then
        if Keq_dec (y1 + y2) 0 then None
        else ksum (3 * x1 * x1 * kinv (2 * y1)) x1 y1 x2
      else ksum ((y2 - y1) * kinv (x2 - x1)) x1 y1 x2
  end.

(** The line through two points that are not opposite: its slope, whether
    secant or tangent, satisfies two polynomial equations. *)
Definition is_slope (s x1 y1 x2 y2 : K) : Prop :=
  s * (x2 - x1) = y2 - y1 /\ s * (y1 + y2) = x1 * x1 + x1 * x2 + x2 * x2.

Lemma padd_slope x1 y1 x2 y2 :
  on_curve (Some (x1, y1)) -> on_curve (Some (x2, y2)) ->
  ~ (x1 = x2 /\ y1 + y2 = 0) ->
  exists s, is_slope s x1 y1 x2 y2 /\
            padd (Some (x1, y1)) (Some (x2, y2)) = ksum s x1 y1 x2.
Proof.
  cbn. intros H1 H2 Hne.
  destruct (Keq_dec x1 x2) as [Hx|Hx]; [destruct (Keq_dec (y1 + y2) 0) as [Hy|Hy]|].
  - tauto.
  - eexists; split; [|reflexivity]. clear Hne.
    assert (Hy2 : 2 * y1 <> 0) by (intros E; kcontra).
    pose proof (Finv_l Kfth _ Hy2) as Hi. revert Hi.
    generalize (kinv (2 * y1)). intros j Hj.
    neq_to_inverse. split; knsatz.
  - eexists; split; [|reflexivity]. clear Hne.
    assert (Hd : x2 - x1 <> 0) by (intros E; kcontra).
    pose proof (Finv_l Kfth _ Hd) as Hi. revert Hi.
    generalize (kinv (x2 - x1)). intros j Hj.
    neq_to_inverse. split; knsatz.
Qed.

Lemma padd_None x1 y1 x2 y2 :
  padd (Some (x1, y1)) (Some (x2, y2)) = None <-> x1 = x2 /\ y1 + y2 = 0.
Proof.
  cbn. destruct (Keq_dec x1 x2); [destruct (Keq_dec (y1 + y2) 0)|];
    unfold ksum; split; (tauto || discriminate || intuition congruence).
Qed.

Lemma ksum_on_curve s x1 y1 x2 y2 :
  on_curve (Some (x1, y1)) -> on_curve (Some (x2, y2)) ->
  is_slope s x1 y1 x2 y2 -> on_curve (ksum s x1 y1 x2).
Proof. cbn. intros H1 H2 [Hs1 Hs2]. knsatz. Qed.

Lemma padd_on_curve P Q : on_curve P -> on_curve Q -> on_curve (padd P Q).
Proof.
  destruct P as [[x1 y1]|], Q as [[x2 y2]|]; try done.
  intros H1 H2.
  destruct (Keq_dec x1 x2) as [Hx|Hx]; [destruct (Keq_dec (y1 + y2) 0) as [Hy|Hy]|].
  - replace (padd _ _) with (@None (K * K)); [done|].
    symmetry. by apply padd_None.
  - destruct (padd_slope x1 y1 x2 y2) as (s & Hs & ->); [done|done|tauto|].
    by apply ksum_on_curve with (y2 := y2).
  - destruct (padd_slope x1 y1 x2 y2) as (s & Hs & ->); [done|done|tauto|].
    by apply ksum_on_curve with (y2 := y2).
Qed.

Lemma kneg_on_curve P : on_curve P -> on_curve (kneg P).
Proof. destruct P as [[x y]|]; cbn; [|done]. intros H. knsatz. Qed.

Lemma kneg_involutive P : kneg (kneg P) = P.
Proof. destruct P as [[x y]|]; cbn; [|done]. do 2 f_equal. ring. Qed.

Lemma padd_kneg P : padd P (kneg P) = None.
Proof.
  destruct P as [[x y]|]; [|done]. apply padd_None. split; [done|ring].
Qed.

Lemma padd_None_inv P Q : padd P Q = None -> Q = kneg P.
Proof.
  destruct P as [[x1 y1]|], Q as [[x2 y2]|]; cbn [padd kneg]; try done.
  intros [-> Hy]%padd_None. do 2 f_equal.
  transitivity (y1 + y2 - y1); [ring|rewrite Hy; ring].
Qed.

Lemma is_slope_unique s s' x1 y1 x2 y2 :
  ~ (x1 = x2 /\ y1 + y2 = 0) ->
  is_slope s x1 y1 x2 y2 -> is_slope s' x1 y1 x2 y2 -> s = s'.
Proof.
  intros Hne [Ha Hb] [Ha' Hb'].
  destruct (Keq_dec x1 x2) as [Hx|Hx]; [destruct (Keq_dec (y1 + y2) 0) as [Hy|Hy]|].
  - tauto.
  - clear Hne. neq_to_inverse. knsatz.
  - clear Hne. neq_to_inverse. knsatz.
Qed.

Lemma padd_comm P Q : on_curve P -> on_curve Q -> padd P Q = padd Q P.
Proof.
  destruct P as [[x1 y1]|], Q as [[x2 y2]|]; try done.
  intros H1 H2.
  destruct (Keq_dec x1 x2) as [Hx|Hx]; [destruct (Keq_dec (y1 + y2) 0) as [Hy|Hy]|].
  - transitivity (@None (K * K)); [|symmetry]; apply padd_None; split;
      try done. rewrite <- Hy. ring.
  - destruct (padd_slope x1 y1 x2 y2) as (s & [Hs1 Hs2] & ->); [done|done|tauto|].
    destruct (padd_slope x2 y2 x1 y1) as (s' & [Hs1' Hs2'] & ->); [done|done| |].
    { intros [_ E]. apply Hy. rewrite <- E. ring. }
    unfold ksum. cbn in *. neq_to_inverse. f_equal. f_equal; knsatz.
  - destruct (padd_slope x1 y1 x2 y2) as (s & [Hs1 Hs2] & ->); [done|done|tauto|].
    destruct (padd_slope x2 y2 x1 y1) as (s' & [Hs1' Hs2'] & ->); [done|done| |].
    { intros [E _]. by apply Hx. }
    unfold ksum. cbn in *. neq_to_inverse. f_equal. f_equal; knsatz.
Qed.

Lemma is_slope_kneg s x1 y1 x2 y2 :
  is_slope s x1 y1 x2 y2 -> is_slope (- s) x1 (- y1) x2 (- y2).
Proof. intros [Ha Hb]. split; knsatz. Qed.

Lemma kneg_padd P Q :
  on_curve P -> on_curve Q -> kneg (padd P Q) = padd (kneg P) (kneg Q).
Proof.
  destruct P as [[x1 y1]|], Q as [[x2 y2]|]; try done.
  intros H1 H2.
  destruct (Keq_dec x1 x2) as [Hx|Hx]; [destruct (Keq_dec (y1 + y2) 0) as [Hy|Hy]|].
  - replace (padd (Some (x1, y1)) (Some (x2, y2))) with (@None (K * K))
      by (symmetry; by apply padd_None).
    symmetry. apply padd_None. split; [done|].
    transitivity (- (y1 + y2)); [ring|rewrite Hy; ring].
  - destruct (padd_slope x1 y1 x2 y2) as (s & Hs & ->); [done|done|tauto|].
    destruct (padd_slope x1 (- y1) x2 (- y2)) as (s' & Hs' & E).
    { by apply (kneg_on_curve (Some (x1, y1))). }
    { by apply (kneg_on_curve (Some (x2, y2))). }
    { intros [_ E]. apply Hy. transitivity (- (- y1 + - y2)); [ring|rewrite E; ring]. }
    cbn [kneg]. rewrite E.
    rewrite <- (is_slope_unique (- s) s' x1 (- y1) x2 (- y2)); [| |by apply is_slope_kneg|done].
    + unfold ksum; cbn. do 2 f_equal; ring.
    + intros [_ E']. apply Hy. transitivity (- (- y1 + - y2)); [ring|rewrite E'; ring].
  - destruct (padd_slope x1 y1 x2 y2) as (s & Hs & ->); [done|done|tauto|].
    destruct (padd_slope x1 (- y1) x2 (- y2)) as (s' & Hs' & E).
    { by apply (kneg_on_curve (Some (x1, y1))). }
    { by apply (kneg_on_curve (Some (x2, y2))). }
    { tauto. }
    cbn [kneg]. rewrite E.
    rewrite <- (is_slope_unique (- s) s' x1 (- y1) x2 (- y2)); [| |by apply is_slope_kneg|done].
    + unfold ksum; cbn. do 2 f_equal; ring.
    + tauto.
Qed.

(** [(P + Q) - Q = P]. *)
Lemma padd_cancel P Q :
  on_curve P -> on_curve Q -> padd (padd P Q) (kneg Q) = P.
Proof.
  destruct P as [[x1 y1]|], Q as [[x2 y2]|]; try done.
  2:{ intros _ _. apply (padd_kneg (Some (x2, y2))). }
  intros H1 H2.
  destruct (Keq_dec x1 x2) as [Hx|Hx]; [destruct (Keq_dec (y1 + y2) 0) as [Hy|Hy]|].
  - replace (padd (Some (x1, y1)) (Some (x2, y2))) with (@None (K * K))
      by (symmetry; by apply padd_None).
    cbn. subst x2. do 2 f_equal. transitivity (y1 + y2 - y2); [rewrite Hy|]; ring.
  - destruct (padd_slope x1 y1 x2 y2) as (s & Hs & ->); [done|done|tauto|].
    pose proof (ksum_on_curve _ _ _ _ _ H1 H2 Hs) as H3.
    unfold ksum in *. cbn [kneg].
    set (x3 := s * s - x1 - x2) in *. set (y3 := s * (x1 - x3) - y1) in *.
    assert (Hne : ~ (x3 = x2 /\ y3 + - y2 = 0)).
    { intros [E1 E2]. subst x3 y3. destruct Hs as [Hs1 Hs2]. cbn in *. kcontra. }
    destruct (padd_slope x3 y3 x2 (- y2)) as (s' & Hs' & ->); [done| |done|].
    { by apply (kneg_on_curve (Some (x2, y2))). }
    unfold ksum. subst x3 y3. destruct Hs as [Hs1 Hs2], Hs' as [Hs1' Hs2'].
    cbn in *. clear Hne. neq_to_inverse. do 2 f_equal; knsatz.
  - destruct (padd_slope x1 y1 x2 y2) as (s & Hs & ->); [done|done|tauto|].
    pose proof (ksum_on_curve _ _ _ _ _ H1 H2 Hs) as H3.
    unfold ksum in *. cbn [kneg].
    set (x3 := s * s - x1 - x2) in *. set (y3 := s * (x1 - x3) - y1) in *.
    assert (Hne : ~ (x3 = x2 /\ y3 + - y2 = 0)).
    { intros [E1 E2]. subst x3 y3. destruct Hs as [Hs1 Hs2]. cbn in *. kcontra. }
    destruct (padd_slope x3 y3 x2 (- y2)) as (s' & Hs' & ->); [done| |done|].
    { by apply (kneg_on_curve (Some (x2, y2))). }
    unfold ksum. subst x3 y3. destruct Hs as [Hs1 Hs2], Hs' as [Hs1' Hs2'].
    cbn in *. clear Hne. neq_to_inverse. do 2 f_equal; knsatz.
Qed.

(** Associativity when none of the four sums is the point at infinity:
    one polynomial identity in the coordinates and the four slopes. *)
Lemma assoc_affine x1 y1 x2 y2 x3 y3 s12 s23 sA sB :
  on_curve (Some (x1, y1)) -> on_curve (Some (x2, y2)) ->
  on_curve (Some (x3, y3)) ->
  is_slope s12 x1 y1 x2 y2 -> is_slope s23 x2 y2 x3 y3 ->
  forall x12 y12 x23 y23,
    ksum s12 x1 y1 x2 = Some (x12, y12) ->
    ksum s23 x2 y2 x3 = Some (x23, y23) ->
    is_slope sA x12 y12 x3 y3 -> is_slope sB x1 y1 x23 y23 ->
    ksum sA x12 y12 x3 = ksum sB x1 y1 x23.
Proof.
  unfold ksum, is_slope. cbn.
  intros H1 H2 H3 [Ha Hb] [Hc Hd] x12 y12 x23 y23 [= E1 E2] [= E3 E4]
         [He Hf] [Hg Hh].
  neq_to_inverse. do 2 f_equal; knsatz.
Qed.

Lemma padd_None_r P : padd P None = P.
Proof. by destruct P as [[x y]|]. Qed.

Lemma padd_cancel_l P Q :
  on_curve P -> on_curve Q -> padd Q (padd (kneg Q) P) = P.
Proof.
  intros HP HQ. pose proof (kneg_on_curve _ HQ) as HQ'.
  rewrite (padd_comm Q) by (done || by apply padd_on_curve).
  rewrite (padd_comm (kneg Q)) by done.
  rewrite <- (kneg_involutive Q) at 2. by apply padd_cancel.
Qed.

Lemma padd_affine x1 y1 x2 y2 x3 y3 :
  on_curve (Some (x1, y1)) -> on_curve (Some (x2, y2)) ->
  padd (Some (x1, y1)) (Some (x2, y2)) = Some (x3, y3) ->
  exists s, is_slope s x1 y1 x2 y2 /\ ksum s x1 y1 x2 = Some (x3, y3).
Proof.
  intros H1 H2 E.
  destruct (padd_slope x1 y1 x2 y2) as (s & Hs & Es); [done|done| |].
  - intros Hopp%padd_None. congruence.
  - exists s. split; [done|congruence].
Qed.

Theorem padd_assoc P Q R :
  on_curve P -> on_curve Q -> on_curve R ->
  padd (padd P Q) R = padd P (padd Q R).
Proof.
  intros HP HQ HR.
  destruct P as [[x1 y1]|]; [|done].
  destruct Q as [[x2 y2]|]; [|done].
  destruct R as [[x3 y3]|]; [|by rewrite !padd_None_r].
  remember (Some (x1, y1)) as P eqn:EP.
  remember (Some (x2, y2)) as Q eqn:EQ.
  remember (Some (x3, y3)) as R eqn:ER.
  pose proof (padd_on_curve _ _ HP HQ) as HPQ.
  pose proof (padd_on_curve _ _ HQ HR) as HQR.
  destruct (padd P Q) as [[x12 y12]|] eqn:E12.
  2:{ (* P + Q = 0 *)
    apply padd_None_inv in E12. rewrite E12. symmetry. by apply padd_cancel_l. }
  destruct (padd Q R) as [[x23 y23]|] eqn:E23.
  2:{ (* Q + R = 0 *)
    apply padd_None_inv in E23. rewrite E23, <- E12, padd_None_r.
    by apply padd_cancel. }
  destruct (padd (Some (x12, y12)) R) as [[xA yA]|] eqn:EA.
  2:{ (* (P + Q) + R = 0 *)
    apply padd_None_inv in EA. symmetry.
    assert (E : Some (x23, y23) = kneg P); [|rewrite E; apply padd_kneg].
    rewrite <- E23, EA, <- E12, kneg_padd by done.
    rewrite (padd_comm (kneg P)) by by apply kneg_on_curve.
    apply padd_cancel_l; by try apply kneg_on_curve. }
  destruct (padd P (Some (x23, y23))) as [[xB yB]|] eqn:EB.
  2:{ (* P + (Q + R) = 0 *)
    apply padd_None_inv in EB.
    assert (E : Some (x12, y12) = kneg R); [|rewrite E in EA].
    { rewrite <- E12. rewrite <- (kneg_involutive P), <- EB, <- E23.
      rewrite kneg_padd by done.
      rewrite (padd_comm (kneg Q)) by by apply kneg_on_curve.
      rewrite <- (kneg_involutive Q) at 2.
      apply padd_cancel; by apply kneg_on_curve. }
    rewrite padd_comm, padd_kneg in EA by (done || by apply kneg_on_curve).
    done. }
  subst P Q R.
  destruct (padd_affine _ _ _ _ _ _ HP HQ E12) as (s12 & Hs12 & K12).
  destruct (padd_affine _ _ _ _ _ _ HQ HR E23) as (s23 & Hs23 & K23).
  destruct (padd_affine _ _ _ _ _ _ HPQ HR EA) as (sA & HsA & KA).
  destruct (padd_affine _ _ _ _ _ _ HP HQR EB) as (sB & HsB & KB).
  rewrite <- KA, <- KB.
  exact (assoc_affine x1 y1 x2 y2 x3 y3 s12 s23 sA sB HP HQ HR Hs12 Hs23
           x12 y12 x23 y23 K12 K23 HsA HsB).
Qed.

(** Multiples of a point. *)
Definition nmul (n : nat) (P : Kpoint) : Kpoint := Nat.iter n (padd P) None.

Lemma nmul_S n P : nmul (S n) P = padd P (nmul n P).
Proof. done. Qed.

Lemma nmul_closed n P : on_curve P -> on_curve (nmul n P).
Proof.
  intros HP. induction n as [|n IH]; [done|].
  rewrite nmul_S. by apply padd_on_curve.
Qed.

Lemma nmul_one P : nmul 1 P = P.
Proof. unfold nmul. cbn. apply padd_None_r. Qed.

Lemma nmul_identity n : nmul n None = None.
Proof. induction n as [|n IH]; [done|]. by rewrite nmul_S, IH. Qed.

Lemma nmul_plus n m P :
  on_curve P -> nmul (n + m) P = padd (nmul n P) (nmul m P).
Proof.
  intros HP. induction n as [|n IH]; [done|].
  change (S n + m)%nat with (S (n + m)). rewrite !nmul_S, IH.
  symmetry. apply padd_assoc; (done || by apply nmul_closed).
Qed.

Lemma nmul_times n m P :
  on_curve P -> nmul (n * m) P = nmul n (nmul m P).
Proof.
  intros HP. induction n as [|n IH]; [done|].
  change (S n * m)%nat with (m + n * m)%nat.
  by rewrite nmul_plus, IH, nmul_S.
Qed.
End ShortWeierstrass.
End EC.
Import EC.

(** ** The prime field of secp256k1 *)

Lemma prime_CURVE_p : Z.prime CURVE.p.
Proof. exact prime_p. Qed.

Lemma CURVE_p_gt : 2 ^ 255 < CURVE.p.
Proof. reflexivity. Qed.

Lemma CURVE_p_pos : 0 < CURVE.p.
Proof. reflexivity. Qed.

Module Fp.

Definition reducedb (z : Z) : bool := (0 <=? z) && (z <? CURVE.p).

Lemma reducedb_spec z : reducedb z = true <-> 0 <= z < CURVE.p.
Proof. unfold reducedb. rewrite andb_true_iff, Z.leb_le, Z.ltb_lt. done. Qed.

(** Field elements: integers in [[0, p)]. *)
Record t : Type := mk { val : Z; val_reduced : reducedb val = true }.

Lemma ext (x y : t) : val x = val y -> x = y.
Proof.
  destruct x as [x Hx], y as [y Hy]. cbn. intros ->. f_equal.
  apply UIP_dec, Bool.bool_dec.
Qed.

Lemma val_range (x : t) : 0 <= val x < CURVE.p.
Proof. apply reducedb_spec, val_reduced. Qed.

Lemma reducedb_mod z : reducedb (z mod CURVE.p) = true.
Proof. apply reducedb_spec, Z.mod_pos_bound, CURVE_p_pos. Qed.

Definition of_Z (z : Z) : t := mk (z mod CURVE.p) (reducedb_mod z).

Definition zero : t := of_Z 0.
Definition one : t := of_Z 1.
Definition add (x y : t) : t := of_Z (val x + val y).
Definition mul (x y : t) : t := of_Z (val x * val y).
Definition sub (x y : t) : t := of_Z (val x - val y).
Definition opp (x : t) : t := of_Z (- val x).
(** The inverse is the one [modInverse] computes. *)
Definition inv (x : t) : t :=
  of_Z (match modInverse (val x) CURVE.p with Ok i => i | Err _ => 0 end).
Definition div (x y : t) : t := mul x (inv y).

Lemma of_Z_val (x : t) : of_Z (val x) = x.
Proof. apply ext. cbn. apply Z.mod_small, val_range. Qed.

Lemma val_of_Z z : val (of_Z z) = z mod CURVE.p.
Proof. done. Qed.

Lemma of_Z_eq a b : a mod CURVE.p = b mod CURVE.p -> of_Z a = of_Z b.
Proof. intros H. by apply ext. Qed.

Lemma eq_dec (x y : t) : {x = y} + {x <> y}.
Proof.
  destruct (Z.eq_dec (val x) (val y)) as [H|H]; [left; by apply ext|right].
  intros ->. done.
Qed.

(** Equalities between integer expressions modulo [p]. *)
Ltac pull_mod :=
  repeat first
    [ rewrite Z.mod_mod by (pose proof CURVE_p_pos; lia)
    | rewrite Z.add_mod_idemp_l by (pose proof CURVE_p_pos; lia)
    | rewrite Z.add_mod_idemp_r by (pose proof CURVE_p_pos; lia)
    | rewrite Z.mul_mod_idemp_l by (pose proof CURVE_p_pos; lia)
    | rewrite Z.mul_mod_idemp_r by (pose proof CURVE_p_pos; lia)
    | rewrite Zminus_mod_idemp_l
    | rewrite Zminus_mod_idemp_r
    | rewrite <- (Z.sub_0_l (_ mod CURVE.p)), Zminus_mod_idemp_r, Z.sub_0_l ].
Ltac mod_eq := cbn [val of_Z add mul sub opp zero one]; pull_mod; f_equal; ring.
Ltac field_eq := apply ext; unfold add, mul, sub, opp, zero, one; mod_eq.

Lemma ring_th : ring_theory zero one add mul sub opp (@eq t).
Proof.
  constructor; intros.
  - rewrite <- (of_Z_val x) at 2. field_eq.
  - field_eq.
  - field_eq.
  - rewrite <- (of_Z_val x) at 2. field_eq.
  - field_eq.
  - field_eq.
  - field_eq.
  - field_eq.
  - field_eq.
Qed.

Lemma inv_l (x : t) : x <> zero -> mul (inv x) x = one.
Proof.
  intros Hx. pose proof (val_range x) as Hr.
  assert (Hnz : val x <> 0).
  { intros E. apply Hx, ext. by rewrite E. }
  pose proof (modInverse_spec (val x) CURVE.p CURVE_p_pos) as Hi.
  destruct (modInverse (val x) CURVE.p) as [i|e] eqn:Ei.
  - destruct Hi as (_ & Hi & Hm). apply ext. unfold inv. rewrite Ei.
    cbn [val of_Z mul one]. pull_mod. by rewrite Z.mul_comm.
  - destruct Hi as [Hg _]. exfalso. apply Hg.
    rewrite Z.gcd_comm. apply Z.coprime_prime_small; [apply prime_CURVE_p|lia].
Qed.

Lemma field_th : field_theory zero one add mul sub opp div inv (@eq t).
Proof.
  constructor.
  - exact ring_th.
  - intros E. apply (f_equal val) in E. cbn in E. discriminate E.
  - done.
  - exact inv_l.
Qed.

(** [of_Z] is a ring morphism. *)
Lemma of_Z_add a b : of_Z (a + b) = add (of_Z a) (of_Z b).
Proof. apply ext. cbn. apply Zplus_mod. Qed.
Lemma of_Z_mul a b : of_Z (a * b) = mul (of_Z a) (of_Z b).
Proof. apply ext. cbn. apply Zmult_mod. Qed.
Lemma of_Z_sub a b : of_Z (a - b) = sub (of_Z a) (of_Z b).
Proof. apply ext. cbn. apply Zminus_mod. Qed.
Lemma of_Z_opp a : of_Z (- a) = opp (of_Z a).
Proof.
  apply ext. cbn. rewrite <- !Z.sub_0_l.
  rewrite Zminus_mod, (Zminus_mod 0 (a mod CURVE.p)), Z.mod_mod; [done|].
  pose proof CURVE_p_pos. lia.
Qed.

Lemma of_Z_inj_small a b :
  0 <= a < CURVE.p -> 0 <= b < CURVE.p -> of_Z a = of_Z b -> a = b.
Proof.
  intros Ha Hb E. apply (f_equal val) in E. cbn in E.
  by rewrite !Z.mod_small in E.
Qed.

Lemma gen_phiPOS1_of_Z (q : positive) :
  InitialRing.gen_phiPOS1 one add mul q = of_Z (Zpos q).
Proof.
  induction q as [q IH|q IH|]; cbn [InitialRing.gen_phiPOS1].
  - rewrite IH. unfold one. rewrite <- !of_Z_add, <- of_Z_mul, <- of_Z_add.
    f_equal.
  - rewrite IH. unfold one. rewrite <- !of_Z_add, <- of_Z_mul.
    f_equal.
  - done.
Qed.

Lemma char_large (z : Z) :
  0 < z < 2 ^ 128 -> InitialRing.gen_phiZ zero one add mul opp z <> zero.
Proof.
  intros Hz. destruct z as [|q|q]; try lia. cbn [InitialRing.gen_phiZ].
  rewrite <- (InitialRing.same_gen (Eqsth t) (Eq_ext add mul opp)
               (Rth_ARth (Eqsth t) (Eq_ext add mul opp) ring_th)).
  rewrite gen_phiPOS1_of_Z.
  intros E. apply of_Z_inj_small in E; pose proof CURVE_p_gt; lia.
Qed.

End Fp.

(** ** The curve over the prime field, and the code's points *)

Module E.
Definition b : Fp.t := Fp.of_Z CURVE.b.
Abbreviation point := (Kpoint Fp.t).
Definition on_curve : point -> Prop := EC.on_curve Fp.t Fp.add Fp.mul b.
Definition add : point -> point -> point :=
  padd Fp.t Fp.zero Fp.one Fp.add Fp.mul Fp.sub Fp.inv Fp.eq_dec.
Definition neg : point -> point := kneg Fp.t Fp.opp.
Definition nmul : nat -> point -> point :=
  EC.nmul Fp.t Fp.zero Fp.one Fp.add Fp.mul Fp.sub Fp.inv Fp.eq_dec.

Lemma b_nonzero : b <> Fp.zero.
Proof. intros E. apply (f_equal Fp.val) in E. discriminate E. Qed.

Lemma add_on_curve P Q : on_curve P -> on_curve Q -> on_curve (add P Q).
Proof. apply (padd_on_curve _ _ _ _ _ _ _ _ _ Fp.field_th _ Fp.char_large _ b_nonzero). Qed.

Lemma add_comm P Q : on_curve P -> on_curve Q -> add P Q = add Q P.
Proof. apply (padd_comm _ _ _ _ _ _ _ _ _ Fp.field_th _ Fp.char_large _ b_nonzero). Qed.

Lemma add_assoc P Q R :
  on_curve P -> on_curve Q -> on_curve R -> add (add P Q) R = add P (add Q R).
Proof. apply (padd_assoc _ _ _ _ _ _ _ _ _ Fp.field_th _ Fp.char_large _ b_nonzero). Qed.

Lemma nmul_on_curve n P : on_curve P -> on_curve (nmul n P).
Proof. apply (EC.nmul_closed _ _ _ _ _ _ _ _ _ Fp.field_th _ Fp.char_large _ b_nonzero). Qed.

Lemma nmul_add n m P : on_curve P -> nmul (n + m) P = add (nmul n P) (nmul m P).
Proof. apply (EC.nmul_plus _ _ _ _ _ _ _ _ _ Fp.field_th _ Fp.char_large _ b_nonzero). Qed.

Lemma nmul_mul n m P : on_curve P -> nmul (n * m) P = nmul n (nmul m P).
Proof. apply (EC.nmul_times _ _ _ _ _ _ _ _ _ Fp.field_th _ Fp.char_large _ b_nonzero). Qed.

Lemma nmul_1 P : nmul 1 P = P.
Proof. apply EC.nmul_one. Qed.

Lemma nmul_None n : nmul n None = None.
Proof. apply EC.nmul_identity. Qed.

Lemma add_None_r P : add P None = P.
Proof. apply EC.padd_None_r. Qed.

Lemma add_None x1 y1 x2 y2 :
  x1 = x2 -> Fp.add y1 y2 = Fp.zero -> add (Some (x1, y1)) (Some (x2, y2)) = None.
Proof. intros. by apply padd_None. Qed.

Lemma add_slope x1 y1 x2 y2 :
  on_curve (Some (x1, y1)) -> on_curve (Some (x2, y2)) ->
  ~ (x1 = x2 /\ Fp.add y1 y2 = Fp.zero) ->
  exists s, is_slope Fp.t Fp.add Fp.mul Fp.sub s x1 y1 x2 y2 /\
            add (Some (x1, y1)) (Some (x2, y2))
            = ksum Fp.t Fp.mul Fp.sub s x1 y1 x2.
Proof. apply (padd_slope _ _ _ _ _ _ _ _ _ Fp.field_th _ Fp.char_large _ b_nonzero). Qed.

Lemma slope_unique s s' x1 y1 x2 y2 :
  ~ (x1 = x2 /\ Fp.add y1 y2 = Fp.zero) ->
  is_slope Fp.t Fp.add Fp.mul Fp.sub s x1 y1 x2 y2 ->
  is_slope Fp.t Fp.add Fp.mul Fp.sub s' x1 y1 x2 y2 -> s = s'.
Proof. apply (EC.is_slope_unique _ _ _ _ _ _ _ _ _ Fp.field_th Fp.eq_dec _ b_nonzero). Qed.
End E.

(** The code's [Point] for a point of the curve: coordinates in [[0, p)]. *)
Definition of_E (Q : E.point) : Point :=
  match Q with
  | None => Infinity
  | Some (x, y) => Affine (Fp.val x) (Fp.val y)
  end.

Definition to_E (P : Point) : E.point :=
  match P with
  | Infinity => None
  | Affine x y => Some (Fp.of_Z x, Fp.of_Z y)
  end.

Lemma to_of_E Q : to_E (of_E Q) = Q.
Proof. destruct Q as [[x y]|]; cbn; [|done]. by rewrite !Fp.of_Z_val. Qed.

(** Points the code can trust: reduced coordinates satisfying the curve
    equation. *)
Definition valid_point (P : Point) : Prop :=
  match P with
  | Infinity => True
  | Affine x y => 0 <= x < CURVE.p /\ 0 <= y < CURVE.p /\ isOnCurve P = true
  end.

Lemma isOnCurve_E x y :
  isOnCurve (Affine x y) = true <-> E.on_curve (Some (Fp.of_Z x, Fp.of_Z y)).
Proof.
  unfold isOnCurve, E.on_curve, EC.on_curve, E.b.
  rewrite !js_mod_pos by apply CURVE_p_pos. rewrite Z.eqb_eq.
  change CURVE.a with 0. rewrite Z.mul_0_l, Z.add_0_r.
  rewrite <- !Fp.of_Z_mul, <- Fp.of_Z_add. split.
  - apply Fp.of_Z_eq.
  - intros E. by apply (f_equal Fp.val) in E.
Qed.

Lemma valid_point_of_E Q : E.on_curve Q -> valid_point (of_E Q).
Proof.
  destruct Q as [[x y]|]; [|done]. intros H. cbn.
  split; [apply Fp.val_range|]. split; [apply Fp.val_range|].
  apply isOnCurve_E. by rewrite !Fp.of_Z_val.
Qed.

Lemma valid_point_to_E P :
  valid_point P -> E.on_curve (to_E P) /\ of_E (to_E P) = P.
Proof.
  destruct P as [|x y]; [done|]. intros (Hx & Hy & Hc). split.
  - by apply isOnCurve_E.
  - cbn. by rewrite !Z.mod_small.
Qed.

Section CodeAndCurve.
Import Fp.
Add Field FpField : Fp.field_th.

Lemma modInverse_Fp (d : Fp.t) :
  d <> Fp.zero -> modInverse (Fp.val d) CURVE.p = Ok (Fp.val (Fp.inv d)).
Proof.
  intros Hd. pose proof (val_range d) as Hr.
  assert (Hnz : val d <> 0).
  { intros E. apply Hd, ext. by rewrite E. }
  pose proof (modInverse_spec (val d) CURVE.p CURVE_p_pos) as Hi.
  unfold Fp.inv.
  destruct (modInverse (val d) CURVE.p) as [i|e] eqn:Ei.
  - destruct Hi as (_ & Hi & _). cbn. by rewrite Z.mod_small.
  - destruct Hi as [Hg _]. exfalso. apply Hg.
    rewrite Z.gcd_comm. apply Z.coprime_prime_small; [apply prime_CURVE_p|lia].
Qed.

Lemma val_mod (x : Fp.t) : val x mod CURVE.p = val x.
Proof. apply Z.mod_small, val_range. Qed.

Lemma mod_val z : z mod CURVE.p = val (of_Z z).
Proof. done. Qed.

Lemma of_Z_2 : of_Z 2 = add one one.
Proof. by apply ext. Qed.
Lemma of_Z_3 : of_Z 3 = add one (add one one).
Proof. by apply ext. Qed.

(** [pointAdd] on points of the curve is the group operation, and does not
    throw. *)
Lemma pointAdd_E (P Q : E.point) :
  E.on_curve P -> E.on_curve Q ->
  pointAdd (of_E P) (of_E Q) = Ok (of_E (E.add P Q)).
Proof.
  destruct P as [[X1 Y1]|], Q as [[X2 Y2]|]; try done.
  intros H1 H2. cbn [of_E]. unfold pointAdd.
  rewrite !js_mod_pos by apply CURVE_p_pos.
  unfold E.add, padd.
  destruct (eq_dec X1 X2) as [EX|NX].
  - rewrite EX, Z.eqb_refl. cbn [andb].
    destruct (eq_dec (add Y1 Y2) zero) as [EY|NY].
    + apply (f_equal val) in EY. cbn in EY. by rewrite EY.
    + assert (NY' : (val Y1 + val Y2) mod CURVE.p <> 0).
      { intros E. apply NY, ext. by cbn. }
      rewrite (proj2 (Z.eqb_neq _ _) NY').
      (* on the curve, equal abscissas and non-opposite ordinates are
         equal ordinates *)
      assert (EYY : Y1 = Y2).
      { unfold E.on_curve, EC.on_curve in H1, H2. subst X2.
        assert (Hprod : mul (sub Y1 Y2) (add Y1 Y2) = zero).
        { transitivity (sub (mul Y1 Y1) (mul Y2 Y2)); [ring|].
          rewrite H1, H2. ring. }
        apply (Kintegral _ _ _ _ _ _ _ _ _ field_th eq_dec) in Hprod.
        destruct Hprod as [Hd|Hd]; [|done].
        transitivity (add (sub Y1 Y2) Y2); [ring|rewrite Hd; ring]. }
      subst Y2. rewrite Z.eqb_refl. cbn [andb].
      assert (N2 : mul (add one one) Y1 <> zero).
      { intros E. apply NY. rewrite <- E. ring. }
      destruct (Z.eqb_spec (val Y1) 0) as [E0|_].
      { exfalso. apply NY, ext. cbn. by rewrite E0. }
      change CURVE.a with 0.
      rewrite (mod_val (2 * val Y1)), of_Z_mul, of_Z_2, of_Z_val.
      rewrite (modInverse_Fp _ N2). unfold bind, ksum, of_E.
      f_equal.
      rewrite !js_mod_pos by apply CURVE_p_pos.
      repeat rewrite ?mod_val, ?of_Z_add, ?of_Z_mul, ?of_Z_sub, ?of_Z_val, ?of_Z_3.
      change (of_Z 0) with zero.
      f_equal; f_equal; ring.
  - assert (NX' : val X1 <> val X2) by (intros E; by apply NX, ext).
    rewrite (proj2 (Z.eqb_neq _ _) NX'). cbn [andb].
    assert (ND : sub X2 X1 <> zero).
    { intros E. apply NX. transitivity (sub X2 (sub X2 X1)); [ring|rewrite E; ring]. }
    rewrite (mod_val (val X2 - val X1)), of_Z_sub, !of_Z_val.
    rewrite (modInverse_Fp _ ND). unfold bind, ksum, of_E.
    f_equal.
    rewrite !js_mod_pos by apply CURVE_p_pos.
    repeat rewrite ?mod_val, ?of_Z_add, ?of_Z_mul, ?of_Z_sub, ?of_Z_val.
    done.
Qed.
End CodeAndCurve.

(** ** Scalar multiplication *)

Section ScalarMultiplication.

Add Field FpField' : Fp.field_th.

Lemma pointDouble_E (A : E.point) :
  E.on_curve A -> pointDouble (of_E A) = Ok (of_E (E.add A A)).
Proof. intros HA. by apply pointAdd_E. Qed.

Lemma nmul_double k A :
  E.on_curve A -> E.nmul k (E.add A A) = E.nmul (2 * k) A.
Proof.
  intros HA.
  replace (E.add A A) with (E.nmul 2 A).
  - rewrite <- E.nmul_mul by done. f_equal. lia.
  - change (E.nmul 2 A) with (E.add A (E.nmul 1 A)). by rewrite E.nmul_1.
Qed.

(** The double-and-add loop adds [k] times the addend to the running
    result. *)
Lemma scalarMultiply_loop_E (k : positive) :
  forall R A : E.point, E.on_curve R -> E.on_curve A ->
    scalarMultiply_loop k (of_E R) (of_E A)
    = Ok (of_E (E.add R (E.nmul (Pos.to_nat k) A))).
Proof.
  induction k as [k IH|k IH|]; intros R A HR HA; cbn [scalarMultiply_loop].
  - rewrite pointAdd_E, pointDouble_E by done. unfold bind.
    rewrite IH by (by apply E.add_on_curve).
    do 2 f_equal. rewrite nmul_double by done.
    rewrite E.add_assoc by (done || by apply E.nmul_on_curve).
    f_equal. rewrite Pos2Nat.inj_xI. done.
  - rewrite pointDouble_E by done. unfold bind.
    rewrite IH by (done || by apply E.add_on_curve).
    do 2 f_equal. rewrite nmul_double by done. by rewrite Pos2Nat.inj_xO.
  - rewrite pointAdd_E, pointDouble_E by done. unfold bind.
    by rewrite E.nmul_1.
Qed.

Lemma scalarMultiply_E (k : Z) (Q : E.point) :
  0 <= k -> E.on_curve Q ->
  scalarMultiply k (of_E Q) = Ok (of_E (E.nmul (Z.to_nat k) Q)).
Proof.
  intros Hk HQ. destruct k as [|k|k]; [done| |lia].
  cbn [scalarMultiply]. change Infinity with (of_E None).
  by rewrite scalarMultiply_loop_E.
Qed.

Definition G : E.point := to_E getGenerator.

Lemma G_on_curve : E.on_curve G.
Proof. by apply isOnCurve_E. Qed.

Lemma of_E_G : of_E G = getGenerator.
Proof. done. Qed.

Lemma scalarMultiply_G (k : Z) :
  0 <= k ->
  scalarMultiply k getGenerator = Ok (of_E (E.nmul (Z.to_nat k) G)).
Proof. intros Hk. rewrite <- of_E_G. apply scalarMultiply_E; [done|apply G_on_curve]. Qed.

Lemma of_E_inj P Q : of_E P = of_E Q -> P = Q.
Proof. intros H. by rewrite <- (to_of_E P), H, to_of_E. Qed.

(** *** The order of the generator

    Evaluating [scalarMultiply CURVE.n getGenerator] costs one Euclidean
    inversion per addition. The same double-and-add chain is checked here
    on machine-word integers, with the slope of each addition given in
    advance, so that a step only verifies the two slope equations. *)

Definition big_p : bigZ := BigZ.of_Z CURVE.p.

Definition big_fp (x : bigZ) : Fp.t := Fp.of_Z (BigZ.to_Z x).

Definition big_point (P : option (bigZ * bigZ)) : E.point :=
  match P with
  | None => None
  | Some (x, y) => Some (big_fp x, big_fp y)
  end.

Definition big_zero (x : bigZ) : bool :=
  BigZ.eqb (BigZ.modulo x big_p) BigZ.zero.

Definition big_add (P Q : option (bigZ * bigZ)) (slopes : list Z)
    : option (option (bigZ * bigZ) * list Z) :=
  match P, Q with
  | None, _ => Some (Q, slopes)
  | _, None => Some (P, slopes)
  | Some (x1, y1), Some (x2, y2) =>
      if big_zero (BigZ.sub x1 x2) && big_zero (BigZ.add y1 y2)
      then Some (None, slopes)
      else
        match slopes with
        | [] => None
        | s0 :: rest =>
            let s := BigZ.of_Z s0 in
            if big_zero (BigZ.sub (BigZ.mul s (BigZ.sub x2 x1)) (BigZ.sub y2 y1)) &&
               big_zero (BigZ.sub (BigZ.mul s (BigZ.add y1 y2))
                           (BigZ.add (BigZ.add (BigZ.mul x1 x1) (BigZ.mul x1 x2))
                              (BigZ.mul x2 x2)))
            then
              let x3 := BigZ.modulo (BigZ.sub (BigZ.sub (BigZ.mul s s) x1) x2) big_p in
              let y3 := BigZ.modulo (BigZ.sub (BigZ.mul s (BigZ.sub x1 x3)) y1) big_p in
              Some (Some (x3, y3), rest)
            else None
        end
  end.

Fixpoint big_loop (k : positive) (R A : option (bigZ * bigZ)) (slopes : list Z)
    : option (option (bigZ * bigZ)) :=
  match k with
  | xH => fst <$> big_add R A slopes
  | xO k' =>
      match big_add A A slopes with
      | Some (A', slopes') => big_loop k' R A' slopes'
      | None => None
      end
  | xI k' =>
      match big_add R A slopes with
      | Some (R', slopes1) =>
          match big_add A A slopes1 with
          | Some (A', slopes2) => big_loop k' R' A' slopes2
          | None => None
          end
      | None => None
      end
  end.

Lemma big_fp_add x y : big_fp (BigZ.add x y) = Fp.add (big_fp x) (big_fp y).
Proof. unfold big_fp. by rewrite BigZ.spec_add, Fp.of_Z_add. Qed.

Lemma big_fp_sub x y : big_fp (BigZ.sub x y) = Fp.sub (big_fp x) (big_fp y).
Proof. unfold big_fp. by rewrite BigZ.spec_sub, Fp.of_Z_sub. Qed.

Lemma big_fp_mul x y : big_fp (BigZ.mul x y) = Fp.mul (big_fp x) (big_fp y).
Proof. unfold big_fp. by rewrite BigZ.spec_mul, Fp.of_Z_mul. Qed.

Lemma big_fp_mod x : big_fp (BigZ.modulo x big_p) = big_fp x.
Proof.
  unfold big_fp, big_p. rewrite BigZ.spec_modulo, BigZ.spec_of_Z.
  apply Fp.of_Z_eq, Z.mod_mod. discriminate.
Qed.

Lemma big_zero_spec x : big_zero x = true <-> big_fp x = Fp.zero.
Proof.
  unfold big_zero, big_fp, big_p.
  rewrite BigZ.spec_eqb, BigZ.spec_modulo, BigZ.spec_of_Z, Z.eqb_eq.
  change (BigZ.to_Z BigZ.zero) with 0. split.
  - intros H. by apply Fp.of_Z_eq.
  - intros H. apply (f_equal Fp.val) in H. exact H.
Qed.

Lemma fp_sub_zero (x y : Fp.t) : Fp.sub x y = Fp.zero <-> x = y.
Proof.
  split; [|intros ->; ring].
  intros H. transitivity (Fp.add (Fp.sub x y) y); [ring|]. rewrite H. ring.
Qed.

Lemma big_add_sound P Q slopes R slopes' :
  E.on_curve (big_point P) -> E.on_curve (big_point Q) ->
  big_add P Q slopes = Some (R, slopes') ->
  E.add (big_point P) (big_point Q) = big_point R.
Proof.
  destruct P as [[x1 y1]|], Q as [[x2 y2]|]; cbn [big_add];
    try (intros _ _ [= <- _]; done).
  intros HP HQ.
  destruct (big_zero (BigZ.sub x1 x2) && big_zero (BigZ.add y1 y2)) eqn:Eopp.
  - intros [= <- _].
    apply andb_true_iff in Eopp as [Ex%big_zero_spec Ey%big_zero_spec].
    rewrite big_fp_sub in Ex. apply (proj1 (fp_sub_zero _ _)) in Ex.
    rewrite big_fp_add in Ey. by apply E.add_None.
  - destruct slopes as [|s rest]; [done|]. cbv zeta.
    destruct (big_zero (BigZ.sub (BigZ.mul _ _) _) && _) eqn:Es; [|done]. intros [= <- _].
    assert (Hne : ~ (big_fp x1 = big_fp x2 /\
                     Fp.add (big_fp y1) (big_fp y2) = Fp.zero)).
    { intros [Ex Ey]. apply (proj2 (fp_sub_zero _ _)) in Ex.
      rewrite <- big_fp_sub in Ex. rewrite <- big_fp_add in Ey.
      apply big_zero_spec in Ex, Ey. by rewrite Ex, Ey in Eopp. }
    destruct (E.add_slope _ _ _ _ HP HQ Hne) as (s0 & Hs0 & Hadd).
    cbn [big_point]. rewrite Hadd.
    apply andb_true_iff in Es as [E1%big_zero_spec E2%big_zero_spec].
    rewrite big_fp_sub in E1, E2.
    apply (proj1 (fp_sub_zero _ _)) in E1, E2.
    rewrite ?big_fp_mul, ?big_fp_sub in E1.
    rewrite ?big_fp_add, ?big_fp_mul, ?big_fp_add in E2.
    rewrite (E.slope_unique s0 (big_fp (BigZ.of_Z s)) _ _ _ _ Hne Hs0)
      by (by split).
    unfold ksum.
    by repeat progress
      rewrite ?big_fp_mod, ?big_fp_sub, ?big_fp_add, ?big_fp_mul.
Qed.

Lemma big_loop_sound (k : positive) :
  forall R A slopes Z,
    E.on_curve (big_point R) -> E.on_curve (big_point A) ->
    big_loop k R A slopes = Some Z ->
    E.add (big_point R) (E.nmul (Pos.to_nat k) (big_point A)) = big_point Z.
Proof.
  induction k as [k IH|k IH|]; intros R A slopes Z HR HA; cbn [big_loop].
  - destruct (big_add R A slopes) as [[R' sl1]|] eqn:E1; [|done].
    destruct (big_add A A sl1) as [[A' sl2]|] eqn:E2; [|done].
    apply big_add_sound in E1, E2; try done.
    intros H%IH; [|rewrite <- ?E1, <- ?E2; by apply E.add_on_curve..].
    rewrite <- H, <- E1, <- E2.
    rewrite nmul_double by done.
    rewrite E.add_assoc by (done || by apply E.nmul_on_curve).
    f_equal. by rewrite Pos2Nat.inj_xI.
  - destruct (big_add A A slopes) as [[A' sl1]|] eqn:E1; [|done].
    apply big_add_sound in E1; try done.
    intros H%IH; [|done|rewrite <- E1; by apply E.add_on_curve].
    rewrite <- H, <- E1.
    rewrite nmul_double by done. by rewrite Pos2Nat.inj_xO.
  - destruct (big_add R A slopes) as [[R' sl1]|] eqn:E1; [|done].
    apply big_add_sound in E1; try done. cbn. intros [= <-].
    by rewrite E.nmul_1.
Qed.

Definition big_G : option (bigZ * bigZ) :=
  Some (BigZ.of_Z CURVE.Gx, BigZ.of_Z CURVE.Gy).

Lemma big_point_G : big_point big_G = G.
Proof.
  unfold big_G, big_point, big_fp. by rewrite !BigZ.spec_of_Z.
Qed.

Lemma order_of_chain (n : Z) (slopes : list Z) :
  0 < n -> big_loop (Z.to_pos n) None big_G slopes = Some None ->
  E.nmul (Z.to_nat n) G = None.
Proof.
  intros Hn H. destruct n as [|k|k]; try done.
  apply big_loop_sound in H; [| exact I | rewrite big_point_G; apply G_on_curve].
  rewrite big_point_G in H. exact H.
Qed.

Definition order_slopes : list Z := [
  0xcb35b28428101a303eb9d1235992ac63f58857c2f631ee6936d3aebbeddcd1b1;
  0x6ad2cb95963c033328d4857d4f8711deff557dd9faaa673b400442833f0efb64;
  0x9693023fb325cc6c7bc993eb684358ea623d5feea8ff351df662beabd0efdc6d;
  0xbc380350880ab969e653d334691ca8c2da83b2acde59e7439ed92d96a9654a07;
  0xb68c9cb56c4f0fd3279f2dec6acae3ffbacfb8384548d24892d676cd6beacbf5;
  0x57aaae4151a198790e40eb37fe0dad5ed4d4581b1a82c40124b58ac767ed1ec4;
  0x4f51e7f40598f0055487614fccc230afd92371c4b8a603aae25cedc411d89e0e;
  0x875978642d00b859133774fec1878f9e7623f6df9c734f7ed297e920a77b4406;
  0xf0d3817330010db820c7710c8ee17a157984f4bfd3bafbd4a49079efd7754990;
  0xf7e66214a35ae7bec27b1ecd5c0de5ff1dce682f0f4e6588e11d6ec7feb9a5c5;
  0xed7816fe6ca3e42058b150c9eeac31ef8a6bda7ee9e51a0ec33e09f96afc74bc;
  0x62f219d148d24eff34fe56735390098e29b6a2190daa3dc0fbd1d33b92531a49;
  0xda8eabc70379e66ae8e505f49deb2e1b4906022def4c45ec320e33aed7091903;
  0x6c49014b33417076abaadc7958f95908e93dd2886468bd7d27d61cef7c1fdfdd;
  0xca43b3ab114e7c697fee873576d7b89f909e0592f9e805e00246c31200fb967b;
  0x1b5d9cdfbd96d7eaf397653b120ed6cb0f4bd05bf004f79c2a9fd0bcdf4929bc;
  0xe0cb18a3edbcd600a286c6b603e220d63bed148bfd0c00e3027d30018ec79731;
  0x06fedf4339b46436d0db4e1864076fe618c51a754e1c0ed5708b889c5733613e;
  0xa377ffff0b36d0535197bead9992fee7698334fa5bfc270f64d511cc9ab7c03a;
  0x0be610814de113647213fff8fc6378b31333e2bac4ac437ff9a702a6734563c9;
  0xa7d3054d6fe27dc5559c75f6bb2231a9d54f988d170234ebfd42174c1a3f32e0;
  0x92ebb512788e5c3c7a3baf1feaf8281104d50976aef98bbac62a97be2d8b7a7b;
  0x5a5632e902f6c58ded7ffe4a60dd0278e397627c2a31c8afa3a7ac625064cd03;
  0x9b0f855eb9be64f095aa255167f0f0baf01b2cd3cc72ef8f1444747071666278;
  0xc95c70effee378ee51d4695a7e30804db90a8fdfcca618c180cec3ec5c83b500;
  0x179ae0dc9d03a8028156678f64d8c80fb3a3ec33f145a5b507c6c6c02a8e71c8;
  0xec7e64a924b93bbe0b71cb15729ff63848d6104ae7d55a16ed4a41d45b8fe684;
  0x0a6a78cd866f50652c8426bad78453057fd429d93c659d5138c0bc7357a94f22;
  0x4a97f998b50e69d9b7f9c654687b8490e7f4a168b22ee05f0491f67c5bcae6b4;
  0xc0b764bf04ae63359beb2b4fc6f722f47da0482483379a58ca50aff8c2ea4869;
  0xb9f84addcab19fb53a62e79564f6075b848477821df6d6c58668d8e9b2501575;
  0xc985b179caa5bee0ef6acefc42c0dec227b196c5dbd0953cc43c5868392e7cd3;
  0xa6d04e5b19577537db75701165cc1aa476cbdc92cb167d90af93b785d698742e;
  0x4479d94c2f98166b4c1d24655334f9bab459cb5a6c074f1e9bb5b9ea97b6a18b;
  0xbe5aafdeb2f0b1599d1b413e816d0ae93363953c3d97e4fd3afed1c367f9596d;
  0x7e1cc6e0806734816850b5f010d056e9b5b14f4630c1a6cb79a98c3660d3aa6d;
  0xa6a6f72a0273aa6f7b6276e647117f1c0e9f5561a551c6238ec167ba7ac03635;
  0x8dee3efccec9fbd528bcbdfc380d106f09ab41277d36c65ed6c4dc4784ea857a;
  0x814d489910767dcde9878f169e7b250e5f59e8be1a15df7f8c1dee23adffb968;
  0xdb3e8ec5d990ec59421e6569d96dcdaecb7f725432c5a4ddb78439afbfe5554f;
  0x2ba83e31e20e6c6f464a26d2eaa4f799f06dd1c218946f49a69880bc5b4abc4c;
  0x0f18fad968cb987adc7d7c35fc6ad8974a3fcf82a55e9400e7bf3015e6b558a5;
  0x82cd82212ae9dbf4101c8671a40de941c0bc39b23359c41063b171fe4cbf7c6a;
  0xc5ab93dae7b4d1d3c5edfe8bc49fa6ba5566b166494b830b6cf082231fe99f39;
  0x4a9531cbc7fcb555627173f519a031a2187c66e581cecb04909d994c2e3b53e6;
  0xde12036f73e80356f7db91954e2ca46c56dcab93ec4efda7fa9e72b8b3a2b20a;
  0xc80f4833784b6a077df723e24fe535a67b40f01ee9e3dd59da9d65e8f82d9f2e;
  0xeaaf7c28dae8dfa52783d0b7ef5ebc91aa999f58db631588e00a05856dbef4cd;
  0x27923dd35874b9d0c3e1b1930352c0c3b0d91412f38fa8c1341f5a73beb4f8b9;
  0xd8880a7ae61955a53b91ef1d5de7f4b9646afd475edbbc8974911329e12fbdcd;
  0x8676b3eae525414b100a173e847e521f75a5c46ae628b3858b1c1fbcbc59daf7;
  0xf8ad5290eaab42f191602466cfe19d6a8bdd2b5a788a8cb2c2eba34fd22847be;
  0xf53ade417a0d913b3b9e411781e6e8de0ff1a6b169ca912fe5495f51c90530d8;
  0x32f78aa8da44cbc85c1d785fb24f0e7f0da8ec5386523d436bb3a50d1e52fb8c;
  0x3086d220f31a0f4704f6874663e61a85b7baf3f27deeccb9c19ee6024d7c968f;
  0x2c5edb78f874848d89ceb49fa59a1ff38ba3a6605f567ca67bb74a6e78c097d7;
  0xa824e3d624bd7aee30ad3fe846d969dad308c31c20d25cfd14d86a39aa928162;
  0xdebcd686b581f6645f94a93467d0ecdf9e4ad7edeedcfeed57d9d6364c78d427;
  0x554516c7913f5284122e296af363f848e12d34d3fbfc90e94cedf9ce63e62aba;
  0x81751b61f3b4ad7169d8ac62378adc14043339e3a60078fa2bf394c804c26e20;
  0xa497ec081a5b43f307fe6b2ed7f51a2ed7042704318aad555da4795a4ae36810;
  0xea6ec05c50822815af2653e43c1adabb3be24e602591c72373d731cc1a44a051;
  0xe60635d4ed2d254e05003b55d58bd309cce50b703f8dbf6d4700a65d85559a25;
  0x4e9ae5800380f7cefcac474de3a049e12e1b0f0312740facb4144528ddd6e597;
  0x7471bc58c865f770a22bcb1e2465507731b3ad17d19c55c851a736531fefafae;
  0xc84b8bb00e0f4407e49fe1be00895dca6d817c8ce64cfebb5d67625411bde644;
  0xdfada4b2106cac4951ec538f3d828576d57426ebe0d870d5e091e5b044aa5639;
  0x9da339403188b608778cda205fcfeb0adce46dffa1dd103c3271ca529b43a7c8;
  0x51ee9a34eead0ad899a54439d004a42a2f3fa11be3c4773c1dc6457062e3572b;
  0x602c9992d00cc6030985312c38033bca60ce74f3a25777862a7288488389cdc1;
  0x2caed624594a3483ad98859bef75a97ed7cc509bd906bb2b23fbf9fbe4e5004f;
  0x3ba37ea85760c97215dced4f7d5d63cfa8df6d46b9c81063261e3c8e76399130;
  0xff486a88ac95151d852a5270924d4ccf1fff7b676398e499d324893a4bbb576c;
  0x8309b9cd7caf364f8a4726b848e574837a1498176583cd38a99bbf35c27c0e01;
  0x964b583a76ed003af67324d770a980a02bf6fd9d82ed81cdf325ae1b036bacd6;
  0xc3a088da9a740fbef9a36dc94890489302dbf3a200c6aad18428714f41d62ef0;
  0x52d4e5874c2b1e6d24626f661bd5964c6dc6495b659a1fbf54aa0b9e64734e42;
  0x9a1bb41d1a00d1b60cc94b47fe3b071dd38189836c875b949a5bb1b3744d5622;
  0x8747c3e1175273bacb28dff9b123d030301368c3639952cdc0710f651cd21689;
  0x738fd7bbbe9afd0e286fa67c1b3d9d1d4306cf1d91327714eb87d7e6678bcdb6;
  0x25853627ab9e4428bbc2b26df39a28f315236b3bde7ebd82ef5edf0a3883378d;
  0x245df8c5a6ad254b4c4c56c0d969cacd2ea321b08b1ed4d55515f34d582f7420;
  0x38721d17954c3f8dfe37959da83d2772b07ab116c026c8bd9fe91cbd1553f8f9;
  0xb51b78655a4e5a25c8c18dd20190b5571b736e586729fe907b550841e1b6724f;
  0x4e49c808ad68250f9b3e17cd4afaa353e93f3346cd396b963a96d80fcd568ea1;
  0x2e95bd430cb40948c3e3069bb698efdada1d87ac3d902f2d55129e9cbdb660d4;
  0xbb67f3e7e496460578b64f06a38d43e72d6d99fd238fb168cef14484e8bb41ab;
  0x61ff0b09e723c8829eb256b349701c992867da5babb9246b4e80f4a06a7739aa;
  0xa168102f9efde9e2c818a175b0e594b0d2c12fe65d53c553ee4bb7cfa6d47ed9;
  0x3172c36f49857e7e10d1b5927bf54091d80521d6b2eb92a8998b92cbb2234de1;
  0xc3c8b71e8454afd4fe4ae23209d6947bbfdb44f29f3474cbf6e1de6bfd9974ad;
  0xdb1515f8b04a8b7ea74d3268f5d117db952ef047ae41c0e40d0a53ab7302311b;
  0xc781a37bd88a0baa945a25dcbec891a96eab33936f3ae33b924c4ebb9ccc91e1;
  0x8e692c28c208ff37db20f820ad5f2b68061bfadf7707ba2a4af134bb46dc5e05;
  0x5e1c71fb55e898f6e64912dece2b8a3d031f1eaee2af6f37ebd48ca94c1a3624;
  0xcc5be2bb1875023a9046aceb919a137f79dd3babb398de17f6523da10c1082c5;
  0x5adeba52ee6ac0e141ffb884efa7a7d9a940b9950373647c8aaef60dd14e763c;
  0x0a478dd7bfcb0fe45115c6952feba38f9de0842736b164666c083b48c9ac6cb1;
  0x5e3ac5e451772fe60e7fb8e3a7e0e93c1d11e9df9e2d5365ea3b2d287a0aa4a6;
  0x104f2aa37e05be6add58d281a2334816593555f014ce643f702814ec1391f5a4;
  0xabed522f3e193c67f73d321de6802349a92bbb5984c611c5b99d2149f1de2e18;
  0xad98ae499f8b968dacfaf69097db01061deecdd4b8b7fe434720aaf6131a6fc1;
  0x4f81a978aadd715c8c18b34d3659c47f54e5750aa6dc05ffd4d6825fd0b851f4;
  0x0e3b8c91ddd9155986dea06e85caade56b09b179572444c1c2007fd77d04d6f0;
  0x6d5074103e91fdcfa4597e9b5c32b822c19b5af92207eb477c72ec4f9dcccb6b;
  0x0b0486abb58d31b2dc9704b8502170a38dc4139987db4802a1661a40d857824d;
  0xe6d9fa3e6518d4e9723dea425cf89cf627c6b2258bb185785b0f3d91b04e6115;
  0xd884b65bd5b8dfcbdda21a681b317b0bcbf4d101debc21a38ca7300520334d4c;
  0x9d1540c9467d3bf99ee5b77f3c9121f1a88e1886ce5c64aa196b85cf6815554e;
  0x00c48405b3038c03bd744a8ed8a5527cb83e8f1929b392d0a6967cbd721bae0b;
  0xf9bd4b25fb8787ac97edb42b9bac8deb9ff7ef01b41f5d6575086f1012bf96ce;
  0x3e9a6f8aa99d1c95adaf191933c307be07f11e5ced10870e59df6f75cb5b22a9;
  0x95b144bd0405b76f012f298ce4bf1355bccb8671d21cdb26d904bbbeb3860cda;
  0xcd97a7266946a362a966c2469bb3e45413110726a2c395c2bea221545461dbef;
  0x01015a1ff5cceabdbb18b3bcab3e1e165565936df0a2e61c3ab9963575ffcfe0;
  0xe53ce2c798d39bef6ff55175192d6b703f4df8f610db8e47bda11627318a4605;
  0x18b9cd189f45726e2c6dfdc2cce38866bc945ec92113621bfaa817ce723adf9e;
  0xbcba2313f29e1d97551bf61072f2a6f583d17ef9378ac65a6a5a28639887beb1;
  0xccb0c2d5a765fae0fa90950f0ed92a38ad56207a00bd4f3ea9da4b31dfc25815;
  0x84c317b78952e8ca720dd89f1026a6d7e62c6ecc7df56058a251b46174cca20c;
  0xdfedec6f42f70b127c80c91fa38ee129550274bde0c96a7286b93a0f6c39dfc0;
  0x24076fdb1fa11f74017e5c3696347308e32b3f0e740977d9c044061b43cc1ca4;
  0x38894d85c2951105037a5d11369af6d039f62d660aef1e5b13689d8a8da7b17a;
  0x63ad0385d2e58ba85346be11e60b918beb00ea22cb7a1d097fdb7c77c9d3e881;
  0x43e3186271177bc3437dffd0f295e9a9b2a7a173698f8c15f747e07c7e8ff275;
  0xb52c04d03ee5d1a4b1d4065d2e74ed960cb2de26a95aa21abbc0df208ef24801;
  0xa8aeb05a99b306c78cca5973cd3d3d095f9d4ef3d74d62f6f7cf9b876f335bb7;
  0xa25099814b5320e1032c789b522196ca8e997d9c4c7caf884c79019ad46985e4;
  0xfa07d0a101f7374a2f8bb1d504633bf0ff067500b5d1ce037c8bd50738e3191f;
  0x722376042ae0f9d2ab08571a325abc3a4436037b5b82183ef03f4c040825c566;
  0x2a8a59b09062121c1a279dd54cda676130095d894b4a213e6a3bcd23144e5fb7;
  0xa108d01af8d3416aa2f0e358342876e2ba7343cd700f6c28a824e467637a1221;
  0x94d38f0c5a11a05e330e52faba3cc35968183fa7b1062fa8bdf7919209e27653;
  0xaa93ae9daa82037fbb9b9ac8d39248dd36602f49c2588d2617debf0c252844b5;
  0x1636e902f0379b679aafde9343d791a7ab89d449ce8432e3b716d55e3470094f;
  0x2a23e22eae156ceda5423b8f4a5a90bd3806552386026b532a7ce892eae9b4a3;
  0x61d87a0cfe2e33fd3d7b20932d6ec316534b451b05017d55ebf66df97c650703;
  0x24454cfd40d319c9fe377ebae48788ea6718ae1dc023e42f98c46838dfdb2715;
  0x36a2ec1244e6a5857c2d6f3ef99ba6795d8e5075cedf7b513a8e3e8543988676;
  0x717534901dbb59ab006854c068a50dfdd20232fe591a31fbd7dda12262862069;
  0x41c5c1a77b62baa51b180e1dcbff6780ece0a093f5a78051c6de090fab67d58b;
  0xede9085caf36674cf9c26eb146cff2eaf78cd9c36ec9e11da8e7ff616a065d06;
  0xcc008c577437b3b458c9b836494bb2bc62d6e64da3f0842ef710401e85163577;
  0x21e3ddce9de38cc20e68c9dd3366e87516ef74cb537674bef9c2e6717945588f;
  0x9294b9f9f80b87f9d51ea42cdc54616c6c8cacf9b6a14ad9e9bee370d90df338;
  0x27b376e30f76ec47e5e68b16c3a2cf484262baa820f9d61937a65d963ba0a28f;
  0xf1bf5eae2a0c4c9ef23bb69797a3827927656b3d5c2e1dc0e927cc43f0db11ba;
  0xdcedbe88041c1959fb8494522e2e991a09293d7a9be661cc7a5db90be2837187;
  0x546acca7e813b1998650b06326ef6544d2d72aa88a3413c45c35c5c3ba5cef5e;
  0xcba49b4f56db9d6f1c37c946f26e932e0ab4e3fa2588a9ddf575c4b7a715ec76;
  0x631098678fdb228e7be3f87f83e86efe5e8cb7d78b2be931475be0b75e618be4;
  0x23de7fc74b52c6fa7f6f3ffe5df6d1e297553f0edbf7bf7ae0044fc7821ccd56;
  0x792c04e8f7afd1b9a401fb8523f74d5c81c76302b10a6726b0a0b54d60e62eac;
  0x0a12d5e05dff013873b8147dae62e9e6caf91901e3e357c1cec3858f69f0d4b2;
  0x2a2f3623eafc2706805279368e2b1c5c2afa8d5e85e53d5ba7e9d48345cf88f4;
  0xf45fa648c07117cc5c1d8abb6593a89cc0cbfcf9f4aa4234fc366c9641d9cd0f;
  0x292696c573b74a6cd56a72bbb1bcc0d621fb2ff611aec55bd728a03258fa9ac4;
  0x35ce7a32cf0d50311858607db31567d10333d96cc5249a1bf3fec51fbbb3a885;
  0xaa59b2dd302ea6d3ebf0bd86b52a675096448eaee3e2c37f59fe73a32ea2452c;
  0xe78be406923481e3ff87ba14fb72149d99b643ca33d787301f546d9318cab68b;
  0x9824e79ee39825411d7bf6454d5ed23a6453d1b81b9b3a889361ae2bb1a01db9;
  0x1410252b4cd150f805430da05be0fa84af1a95f3bda9041d49b5dac99bde7dbc;
  0xc100fbd242a0cc1671a85f4835f82866074601c469f6a320390ef4d1bd031873;
  0xd835dfd81665457b77de5400f8e630b0f3fee3384b8a278f65ff35efbac3549d;
  0x26c98c0ebd6e011beb99e8e0c3063436faca64342fbabd098b26aa7dd1e315f8;
  0x031acb4e1b1cf7975d68309d78e4079a67ff7ca16b70a141bca36aa1e38f7816;
  0x9e134159fa7f342a7059c56115bfcbe4aee40bb38561a32f7d1cd882eb497297;
  0x4060d419967b3a342e3cff852b8979201b31d90d0443d55dd52b3234196abcf4;
  0xf7f95ba71f70ffae38b8afe471517eb23276f67bb7e8587cbcc1c8f03fdd8edc;
  0x68c614f8f98f4b0b6fad3d70c183b2dfa38d25a41c5562ffa4d062b997fdb878;
  0x775399578055e555c62520e02bf03e8454a29230887ca4369e4c87b9bb0ba8cd;
  0x8972303d7135726ca6f43a6cc68a7bb8a467bef3602641469ff0a6ca401d6697;
  0x500a08279b3c953b7ea4c442af79ee4fc12bb93017e4727816b4374fcac245db;
  0x759f42169706492f4d893748465b0b891cf451657415eb8bad19754d88799bb8;
  0xc5c36ae807049797eb6590a16d737389332a9d146b85f795b55218e1752562e2;
  0x9b2f8851451a0c4a32b655df99f323889b9f437a5ac499423c383f787a29e43e;
  0xfd694f82ce17714f7e6a833cfa028cf5206ab4c04bab17679f65e28f90487e1d;
  0xe2262c8c4d6fa135e4a080d491501c25c8942964e7f3e2d8c124727895991705;
  0x6d66f1633c0ea4e3be369e04bdcfc73efac3f92d72320932c55fd0197c48e44a;
  0x60fb0dd8cfb159a6cc7a0b308761f2bb17857246959617835ef54989090a211d;
  0xd75735170d18da270cda1d77479f7ab209feab69a3007cf996a1a4494e68c6c7;
  0x50018607e3d60e50bc5e7dd6ea0060dab9e5478b964170294f64677ef6f5adfd;
  0xcae60ba240a4434e4187587e5c8846b5fb61cb5eed6df31ef65e69275e8298dd;
  0x2b181dd32fa2d15489f02b79c6f93177c9a3c98585f482788c311520305e1099;
  0x27fec578a9edadb2aa5328699c0a3cccb201d9e4c4c46c036041f20898797576;
  0xb0b26787824e620c0984379590331bcff3e3c0aec23b4e3cedb03856d7ab8143;
  0xd4f0db18fed8a66a083b386445c250011b57923062480f793ccb65d82d6f2d6b;
  0x2dfe775849e679022317e53a4db204d86081d0c5ce38e978be54cdb0e3f5df8d;
  0x58ff873b75fe48d0de02ba7960e477f2b009a1fad79a0c13db1f838a68704f33;
  0x4a448861c49b177bf3d75a72ffbe403636a0189476ffa033360c12be26583b58;
  0xb654363c42e14de3b526e0aa278589c2f8f589877d9e307b4d51d713064c4db8;
  0x857ad2cd6b2921bd076754555a30fbaa46c691e4d20c90d6ea86468cd38da973;
  0xcfc72646669a22e13c4fa2f56147ca7fd7babf662697196e4fab511935abdd53;
  0xbbf135af4a0a58e9ce1bccc2426cb37afea826ff889909bcc6284a540a621dbc;
  0x8adbeb828d3955fd13580b649ec0d51cd200054e8894fa357bb6dd39dd142198;
  0x60d0a4af293009d0a5e715eb54aa01c379928804e3ddb48575a8a70b7d2d251a;
  0x8fd62364fc6918a7b6ad07b7300fbb01b94e5f0fc41d37bcc1f45a015cdc44a6;
  0xf853e4a72d150c6d63a772e751734ea9a3f7584cbf7f22630755cc14b3d291ce;
  0xd9a2254eb1165724d49b7f402b59327424e10d29788a1a1b00e957605bca3d62;
  0xd218e653fcaa1e2c8c7dc48eba09bf9e10ce06b8382f1000e4f5fe58c42c895a;
  0xe838298a11c6053304d86bdaf61c5c8d69f0d9a71cdac755d0eef49f886c88a5;
  0x913cc2e5b9196d90427739b1237be78e4ed15fb1641ea0e2c82068589ac08f8d;
  0xc32552ee2210231698d000b389e2f9bb93532e3f3c0dc62634ad9f14b80b3a81;
  0x058c50dc67dd825c973338f90e2343a9f1c782fab5922a665bddc473e8743cd9;
  0x5b992fd2d78850b42b957a04c4217803e73a2f75edc048f1fe7f5d849cd9661f;
  0x90a0cb753de32788543bf230b35dfe6a9764fe9e82cfc4d1e6bff42f25d90e96;
  0x33fa37f998b0740bd3d01ebf4eb5dca5fd795ca30bb2b700f6c2c5246c91c493;
  0xd792ca04aebd9abe78b9a1fe183b640d8bbb2536bb2bf02b9c5b47e08d3b0e70;
  0x6c647a1f5541b1be021e4f77cd01120521d0d33c945d4d43da55868291df55d1;
  0xb5e2d454701b0dc507a00bd2f75c84bbd5ed5c2148a57106f8b12631f2df80a1;
  0xa881cca3218459c4678bb25fbc018ebb7201965d2d05436f7cddc2a67995862e;
  0xdedee90f88380745b54e9efbbc2c0cbbcd916960c08637ac86b9cd589a766305;
  0x9176aa61da3a43f2c3aa722d4938d534e45ea3c34dd7d52d38fe3a4e4b052794;
  0x33a9a262882d67b3ba6c2441c706e1b0cb61a877e06c1a2b41d57764949dfc3a;
  0x15f335679cf24d02b0b55fdd7638c68285de4d357daa4be71b389ad9535365de;
  0x268d37928ac400f791fb3a9004bcb8840e6ab9607b27a3a52c32aa5ee2917d41;
  0xd752c21abb9fa74c23cf9a0a508bceb1e8ebf1a05fa786e83dfcabe7215cc4f8;
  0x91e86efd63cc34733df69c37a891a40f08e3d45a7ed3871bb7307e00a2f78559;
  0x8b3d8da9821538c4475232b06093d3fa288c68c003427d39f1ced9e3bbfc8c3b;
  0xe4f0ecc59161d5df34f185bccd9d60945d93e81975b957f5e9e5e440798ef26c;
  0x4836f38b45f2a424931add7980a31bf02d932c6fc999d1fc31ab23c7225027cf;
  0xa3f04ff83e71c402a9747f055b727bb483773a4b002593214381127aa56231a2;
  0xe8336acb6dc9e42fab137b0020cf959c58beb9c8dbd24817f0db4d4de21a0ce0;
  0x749af092d84e54d1364cd14639bd899f5457ff589d5c2964670d79ec9c1a02c2;
  0x2ecde3a1819b7740be340e73abd290b7be207dc8b994187f22de6eae9bc0bf87;
  0x0e8e3f84365618d1c25b8f8c021a7706b02889cb2da6e5515353072e508bb508;
  0xd3eaf468a8bc9da649bfda360e58123d08a8994961d8dcc798e8f327d77a7b58;
  0x992ef39baebd33223e7dba2f0441b02bc3ed8a8c758a93776ddb8e826c5bb603;
  0xcf169a730ff6bd430feeadfce090a00b8759d8d0bf889fc3f149e8b8873558e6;
  0xa36a7f9e0a69e28eedec63ae819092cbbe102a830ecf1f8dce1e1ebdfd9a9f76;
  0xb2059641ab0bedb3d33165cfdd3f28ea07ce982b23a5c2c28b0b13e0d6398458;
  0xc4650ca2bfcaabeafb110be319c3a28b6b22e70ece90df6c108f255831c4f369;
  0xadd2fbf87697aae5ab2e2dcaaf5124953800e7ee86c6dac559dcf3af6cf0dbcb;
  0x0231bf76c790a10e0716a216892fce49a5cc2ce69874e87eb2a94fe9c353b7fb;
  0x9287be7f0afa6983cd699e3214e93be3f148051bc4fb4ef320c804f4b794300b;
  0x54c10921cab2f4987319787ee93b32f256e0bd10a44862fd4cc70a825155c29e;
  0x9c9fd4930c70494186b5d5d9d890e2bcce7206cf188411b34d3b67ea6f8c28a2;
  0x124696e30ac0988174655a6e327422bb8965c28e21a93c3587971594163f2250;
  0x34d435f849f01d44561214651ddf3211d592d451d2a86f8735fb65f4cd4bcfdb;
  0x81c466e8a260fd147ac1d99d6bd40ac7a98fe324e269451ca267cad3012fa4e9;
  0x7b7846b99d2cb887dc01de992223a08bd13234db3fadf04f7cd70e0a52208267;
  0x5897335bc08269345973a5ac0602b03c85d898eb33e6417ff000fdb34e5c7ada;
  0xf7a26b6a8ce590440204968eaf4da18c5dc4f489c2df35ce2ffc02fc468a6fa9;
  0xbec466e3f46ce83c18bd72c0dec99fa3e5e16a53d5186a115c6b4324b52d6f98;
  0x1100fdec7e6383675829d155e86ec171267c223e1af2130f62dd917a4ab681ea;
  0xf1f78a1d39381f7dd84ece3ac14345cb63bccf0b1c88d366016820de4eb7a0f6;
  0xa210709fd33d3229ed42eb3f8adbf0b5aa1160af5247148199a372de4e262559;
  0x0d61c76993e14e1a148a2ea07fe4fd310ce5c38a507dccf31ee362f7cf6971e5;
  0x372b7dac49413e4c9dad265782bb7a697f6b7066a48cf5559b1227cbfb02729a;
  0xa2a057d9f7712ca9691427b1ef3debe2b1f4d0797c2aa61c2ebdda4290ee270e;
  0xa9587d010c296df8256bb52abcc9f14a8096637c08c53b90c2508e512193e884;
  0x6c9f2019cd581922b3467eff527ab031b0c886e1fd485ec3d66b2ddee48574bb;
  0xf2eb75eec8d833de051f90e5ce580682965818417ad8deeddf4e6b867fdd2966;
  0x6c4b80368dc184d38dbebc68662891455a43261acdedcfc3203b948995bca546;
  0xf285b9d782f0c0358d78c0660d654c01b9a4854ddc7b5cebf22e5cbfc0c44685;
  0xabe02ac7923480791ebe110154c285b48b90c9059ab48c0f1ec1dbddd54cbc31;
  0x07200f1a08c4d4fa4b78f1a5ccf3dcd2a05dac0177c506d88589c5ec2a987e9a;
  0x6ca9ae49f1eea494d74a4144591913f05c35f6561149ec1acd5e3cd8eb36c05c;
  0xdab54b18d28903cf90b96a82c856b347b5809ef67d80f359ed223c17009cb9c5;
  0x53cf050d78ec45f61faaacce15c62d92bdd990413c1760e57621e13119405648;
  0x40f885d90dd61ea2f5659e2f2bf302f4e2bf09826f62d88a8053c5b509a23510;
  0x327b935edde98f07dd5a5ddcee74e8c9aee33861ad6d8aa2c241134537bbf62a;
  0x1cc8488cc365cea31f2fa2bfdaf2cc934a7ee50cabfd150becf69e6f4461d10b;
  0x61270bb9213c5d442b34429922956b8d2bddd6334e13419ef60adcce023ffb11;
  0x540888725efd001e10d388737cf1cfa7349e1f8870aa9655492e125f3f6807ab;
  0xee9948f5a40d8ea6aa9d039a79b0ec8459f595221949cf0fafb6c57b0bf031bf;
  0xcbd459afdcc89e756164c6f50b08e8231a953ba7807175a99eeabdad06dbbab3;
  0xa06214ec846dff4a7298a6f771450ea968f06bab08e86069e0c969f37b72521c;
  0x5e4c5a26fd030caab23e28ab4cfd0f3bb05b85f1a3af85084a01f8e337e2c301;
  0x6bc341a76d491eadbbae14be981c7767681c908ae09b05ea8489ce98adcb4331;
  0xd7b2ac50e5f422a44b5fa8e1e17009beea07a30d87d1a22f1b645e1a2b9436cb;
  0xaf0242e89cb61109e8aa6e649e694e0c7e31a54ca7a67b6474e3d575d37790a8;
  0x6f6f2e174458f1d58240ba2cfac0d9070d865a2d820ca850f93c92ac5eabd882;
  0x10083b6f0167e5da6d8598a2852186d177accdb8c4510a7983bfb216c32734eb;
  0x287a0f5419f0c50b86e3d4e36a2093c4853f9fcfcd9c9918115a50d610bd0574;
  0x42d24eb3494b930f185a1864d7e44446e1969f70858bb83fc5d63b3dac58550f;
  0x9889077ff7088509a52a94303f520cd847b1998c048b4457312e0c5c1a9507ea;
  0xcfe3e2571a2c3bb8183a57e40a7f30df6d61da6fe08ec1a863b382daa684fd47;
  0xc519b871bb990b190be26744246550363e9ccf0909487de80822bc5c0c725b3f;
  0x0e8b550b04cbba89fb0a54fbf59d334f2a45b02fdd80cfc583bf0dbda8b2151e;
  0xc7816876ad9abbf99acb73461760051cde30b403c126a5d18def648dcd8a3255;
  0x1c726beba7485e1e2eea4bb84645093e0bea4bdb659968ae6fd1c85e6715e650;
  0x35ddc1c3218ad84fc1545f6ca20f19705f4cee46b36e21e1ffd9f4f28793f197;
  0xbda6ef5605ee677530ed274fbb65d9a59a615e0b03c43bf6d900cf1503dcd8a3;
  0x634da6c426d7e9540c4ec18599a4aac7b6f27f4541aa9c5ec26df1f1922fde6c;
  0x8b214efebb651d99c3bc26744e4c0004825879aa5c71b27da31418229321e262;
  0xe8150724b4cc461557c8359ad74ec82e5eaa15d665db3306a7517390d4f9a142;
  0xf06f881f349c3c8a40900f3594aac5db4eff14b3ade887380929d3125d7658d0;
  0xfe85fc2db040e0bf7f52d908972234ce554af464e48dc688262d664d91d26ef2;
  0x1e9778a904790d796d84bcc4b06a5b6f8fa55a7d7952d2df3986ae5ebbc2e244;
  0x9b3653fccbfb063809d9bd9c7697e235a29eb0e52279887b1d3729fb5b679b31;
  0xb808f5ca3212edb8d0fe6770897e4bf4e9144fbc710a7586c32c521c2566d03c;
  0x9af09d487e0b537a82b89893d84e5748912cfa7c4d1e82a889fb3a08966ec885;
  0xd522a4bcb48d7039e07e62aeedcd06b32f18ed94fc2a7d891e7283867fd88ffd;
  0x6eaae5507193866000abd5a64adac8a3737a5dc078c8273a372cba8385e9f1d7;
  0xbb4b24770db93fc62f0a5f179cbf99008cd923c082860a78016f8059dc2e0a03;
  0xdddfc2224c76486c7cf9a8aad85abc295a5272e88b500a0a3fa5d2868ca0cfb4;
  0x488557af5862fe723a09ba733ffde91d2010d4d284402b735ea9058dbc761262;
  0x2f57949e5699197663093203346d7d5f2bec999ac95a01ab37134aa771c45fe6;
  0x4026b4dea656769ba156e96e1e6b12fe4c195505bf6e7bcf4232c24fb6f665a2;
  0x49129c375ba6e6bb5695fc239fa9414fc1f82bfe3acc41f1a4d2696df87f6430;
  0x7921565e71ab7a06cfcbb597002d48f5975008ddba06649c8e9dcd1dbddfece8;
  0xfa027415863d41fa371c2dc21e44b0c9b8eba0048b2c4dd2698ed166bc4e81f0;
  0xe17ee9bc6ad89ae97ead69410fce72bc0d2517f1f12e5c81ca41e26f11ccb33c;
  0x282ba9fe238cf4d58886ca874c29771dec3f1fe49d8d1478d77543a97562c63a;
  0xf3407529d1a304af673cfb33e468bfb935b625936cfa0a2e64e5d15de429a66d;
  0x2a296a5b39c00f29aefb930028fb5f9a29b29d6260977e5390ecacd1b4f963a9;
  0x2c43bc34332e1c6471a380b2df673b3652cf5c85c74801f0cc3c3ce4271a25b3;
  0x7f8ab1c12cc5ecd1865a8307f2fa33d5a7e43c5e2a992126e8e458e74de52d59;
  0x72e5fa2b0066b23183445a58d1eca5c581480fd79c33481b0db9ff8899060742;
  0xd1d1154a63ffd0950b5550b0ce04673742208ef0b192ae37de10730284ce6d31;
  0xc4535b9687f4bcd7c4cb5acae96a92b9e84218a33b75839303cb068cfa69c1c6;
  0x9e87acd4a4f9954e433d87d2c82b246380f5d49b0ade098a24addc6e6ee1de4f;
  0x740fec2d65d826880b2b60f5f0f6fd51d8768c4121c350856600d85f17aaae67;
  0x4ee74fade23a01a878fb3c374df45c17c225066fcd6bde84297fcb6d0d076b80;
  0x3fc357a1eccb667f5efb46b8979be63b12e2d024c2a141a47f8dc2b2ac40aa94;
  0xf6d86bf1dc1c078cbb867791047c8b5b38eed75bfb229a5c0ded069a7e8ece5d;
  0x8f4b0215ac9ed4b191552eeb421e44cbe548f98ea35878997a0a5d19baa26204;
  0xdf71ec84c663fec05c571e2c6fc5085c6011af545fbe42f3ff693db7d801c00b;
  0x4ed245638c43efaa7d7c147f2beeb0f216ba3566b0a499dff75346203abcf28f;
  0x361f57ef460f29732cafc83d9eba25fe0dd319931c8036710b2a38f274f1db61;
  0xac5a8db870603e9fe07e36b13f5ddc3092449cce7d548631dfa0d716384ae460;
  0x0a4afeb28ea7f78a6c09688fb88e28a8a67d5786fa2f90dca571f6de9515ef2e;
  0xfc309547cfc0f7314465eb8394313e396c5e92da51d14a648e3b3780bfc11f48;
  0xff5737b636d1c1ffbe6c3acb14f153e190294a4b1510629bd4c822ab9dad3e37;
  0xb296579f99ecaddf65e7ad4ac94574444b2090b181277c3dcc669c81f8c056ca;
  0x3c8aae7b252f8ad62c5cbd47b0395603168652829700f7c1f76902d8f7ed0e95;
  0xe7e13fa3c5d3b35dde8c1ab0ddfa6b4fa30cdd47933fb827a557716ec1312c4d;
  0xa5af926d811d13acfb2c4a8c53c007027c0786aaa9e7ca78d2ef4ce4f1014719;
  0x813365ea51f1f636d8d776ebc9d503df97d815a152974d9c710ed1ab6f551150;
  0xcbe492e4985bdd16dadef632759ded318b5927d7201171512a30ff038b505ab5;
  0x653941a6d6d9bc633cd1834a396a9a656d7e71e1ce287b5c946406f9c5164781;
  0xc194d171091781faa47f5ce501af8b4334ff7fe52203f734ac51cb5aec54e4c7;
  0x5eece36901a3c53aa270143ba9bd667ffaf7a39098921344a685c8989f23dfe6;
  0xf2da5bf72e636a9f21f40bafdc050a179de1ea73d05fe6de8bae1ac6ca80f88d;
  0xc493e47a110d8e7e67c8849cd541ad3512f7a8c7ce83448e10f105b6f778e4f0;
  0xf492eaa6961c99ae817c48f8e3a99d4a2945f856225756a063f20f3021e24ab0;
  0x1baa1b49f804953e7058fe0fb56a91b0c96a3586d29fed08199f3ae6e9ba9d2a;
  0xa72e4243dc96df2a157145e0c716cc80520155f5128cd64d74123b48359d5782;
  0x73b5f2d413dea649c19a6fddf2c06c6d7e10103fa57c3aa2549118ca33c2a4ea;
  0xeb7198abf8ca01eb3fac129c5a73dc3b83d031a663556a8467837511c77ce4b5;
  0x9a313d9c9573a4685db9e95d9f94b125047f0acdf9ad9a478970390678edd3c8;
  0x97b46ee4200685076ddedde034be36b2906cd6bc27e4a45103dd3df11241112f;
  0xe56e81f8756b2614d5f803c98c50a7eea40a80de982652e6acbf3eb9a96f9f18;
  0x2236ba67f0aed1ee74398f778818bc9190f4f60d994e1952d10793288a21c756;
  0x25af9e197862678f76a5fd41b62a14ad7cbabc294de1153e6457613cdf94cb98;
  0x8eddd290e5189e9a09c76ed6d712441b6d27664842dd8e2a2da6fc2264734dae;
  0x8ef8e50c139db6594e1cd7a04e0594a04087aaebc631e03d4ec3e8b9bed888c2;
  0x5e5d9f74a69405ab738e867514ecbd088355b4c30437e68d0aea625c1d4349ec;
  0x63749ad9cfb7dc70b125bb4857e5446d49f838605d242b137687c22aea496084;
  0x86d7e10b7570e8b0637420fc36ff4e519a6eab0b3ffc8ac280b69a1d86ff9887;
  0x89c51b2fe7b717b11cb2f74e8b19d2b3bdccd6f049426502f56bd8e7d2061675;
  0xf66c18362c94a842ae9f96fd5fe8a693363e8759ff6c57cdc3f98b7730339f73;
  0x46d49dd175f9041488e81473117af0e0ae64cb505c13f50340712a3d616be1c7;
  0xdbfd8bf7c3b1490a8b50e596292609b6253877026373c6a492ecdd76197b8138;
  0xd7fc370c04984d1ecfaea270df3505a5b36bc2d61643a000e719e029311609b0;
  0xd8922062d40c8a8ad208d58d36ad5621d550e8fb087d1c34f90909dd1a2b4f79;
  0x6d8a40163669c72a535182b9758befef40b45b31babe1f6ddcf05b29807fbb57;
  0xdc1020d83e933047e2c67d95c88b21a1172997339674cf169ec12b7e79270d55;
  0xe35d8b3f01b5998dbd567643434bda2d34d68d705866fa771d330049f021e6b9;
  0xb30ceb66c726c55aa8bdeef02647bed83bb630d8025e1beaa2a4659163a8f3f0;
  0xdd8884430cbd1255b995444b4b251ce12456dd8409c9932b4a53d1d6e61af019;
  0x90a197b7b8e33bfeb50cc4756bced529643b3afb182001e52b13f8336cf36bc3;
  0xcb2b080d88959faab188cd442eab6908a36d8cdd0019ef26c6b65e368c5506c2;
  0x538642245d31a63b4ffc418923f6e47a203f3c84c89fb4291b3726d7d2c6be2d;
  0xb7e832af842429880bf9e3481e8a410d3fe297a28e342caf02569bc5fd07df18;
  0x29e06cd166ef787ccdee448a9b153c1f4e2693bb0de4270e420d5e1413c652ae;
  0x5216c9debc5b9fdf85bbc5594e42fd37d1acacd494c91d18fd686c1b7fd8a0fe;
  0x22045e501c08e7fd4bfd5e3730fbefb93cc5ef12bac847beb4253468845106b3;
  0xa4d8544fc360fb6b47a35bf2c937a5b40af656e73dd256375bcd06c8c366eb16;
  0xcf3730f3c43c216356e4851fca06af5a3feaec8e75aaf2a402dbc499336d49cd;
  0xf2f615b5027e1b833f69dd5582e2956b21a701cdf1706435cdd17d7280303621;
  0x5a72b1347f2f36dc741c32f6d55ecc4feb41dc1d79bc84dc3c3caa4d33b31c33;
  0x8a439cf7d579f1b7c72af5ccaf4d4c2038b068f49f4e235b16d97e45ed8564f5;
  0x2cf6e38b89eb995ff629523e4d1a1870528d114ddfac39b1848799eb9e8e3a19;
  0xc39810f82fd2812300068a93900309baaa20ed505d021f217ffeaca010a516c7;
  0x4d2f7028964ab24df12ede0ebb0d70474d9d35e3fa88a6f72d0992ca075e7423;
  0xe24fdccc7917356fa66a3044f932cad0583f3df5da8f3db29999668cd77d014d;
  0xe7f7b5bf52677f47c909ff753e0cb6422a756242da7e9774f36f7853e8ba4548;
  0xc52d65ca8138565077faae312e0da6c9662e74a4e94307f4ad6cb0b22631a125;
  0x67cf0c07b10b0e211b54630fd69e79dfea8523099792a76ee4fdf4e9f6aea0a0;
  0xa35bbe5680001e07f5e3125ab1f11119e280c8c9b8891bec92d82f4df5235436;
  0x73055117f8fc71da09e4402e46a97b6258827c6a82b8f56dd4ed293544d609bd;
  0xd8f45bee8a6d2709f94f3b8ae96a3bfbcb3baa8af9edee9332e64866f1e60d70;
  0x20f70b4b1d6ce28d3cb19b2f27a9714fe1185759ffd6109ec1ae18ba7e0b482b;
  0x50dedb3904941e369fe1f77280222ea4b78ab8e9808a678d5551d19fdbace463;
  0x92ed0bec3174253e88f618baf673554e1329094b7bfbcd13d35dd9abf016b216;
  0xd72e6b21a0de785b1c9c2e5cd8b534174c08e6ba61e650a57d436ce97df11496;
  0x2cd908c6c9e08e431bd3bcf301875953abae29e512407a57a9131c017312ba60;
  0xb86fb0c20290b07ba6955821ddfc73fd1e7d57ad54f0d2ee553e03d71eee4ce8;
  0xabb29926777623d00344ec00c5dd34ea088fc53e9f5ef3e6d3c7cdd083ad1676;
  0xa3cd6325d724e68a02ffa3f93ca5ebab36ce6519ec451ff9c320273337c673a8;
  0x695a461880f215df8c78df54a946d96d3d913b60d87441a36d3e41538f4789b7;
  0xce67a77667dfdd4b310fe48848d9aa09ecfadeaa3cb4a37050964e44853b73eb;
  0x779bd28859b018134c8e880d8a3618c424181023236cb8286c33e300ff139275;
  0x6097536dcf2cb298317ab9f254e9e396dd3d1959f4bab8499cfaf973349b946a;
  0xa35657db7e33dd28b733057677392155cc1b5230a1fe05b24ffc8e5b5198fefa;
  0x50bd6aa7cc79b76167d32eb82646e4533906bddedb5925c03405c9065fac2d98;
  0xd3c93a931625a689dd3592bab79729508468624abd1b29f3fc8a043138c2fbdd;
  0x4cae837ee76d5a1015dbf9c408957e847f9b7bf6ca7c6508055732858a2e3a6a;
  0x0ae953ad3269b7bcb3fc29e1dc17815047a20636d0ece8ba0dc6dddcbf615bda;
  0x9b60b35ced6ced368dd45c5256a6751693eadc68fdb3199b9c15c2fdb06edf5e;
  0x4fff3d2acd719a0c307986ea355754397ae1fca620951f11cae247eacc5841a6;
  0xd49c842d723e1272c9d6c24fc705297f4dba548197584cfb02348f6d67f54f47;
  0x7a52afb302ea144dbc27ab1f0c7c9af22e769094a0a9b1eff91b1eafbdf41c0b;
  0xc317dcdacf75a36c4b3d5d4c374c5c8a772d47f1678925b620e6f1eeae0e6840;
  0xd81c11d09ea2ebe388858b897a2514e6c806372d05dafa3a8307e1103e57626d;
  0xf55f1cd454c2bb268e38bbe36349a3f678e3e241552bb281a474f0235270995c;
  0xa1f316299c051adcfd77e3908b8b8e1d16a72fcd0b069f7ae3f53fb842d3ad56;
  0x3a5dc4ba414e186169b6ad39fc8e1eee638f0eb69116d9c7914c3e78ca7f2b4b;
  0xaee719a737ac4e364919e03e5445a0aa54749101ba80f9870cf20e6dc301ffdc;
  0xbea4d0d2363a0b41b49760ff706d689baadd01b9525db933022a3d57fd43e2d3;
  0xe732d14399fbeed039026f11b190354fba6434bfd8f73a24ef6362b4a0ea91ef;
  0xb0fa26cbada5201fd95b0ff3fefe6989c3cf9bb061a13e79d86b72cd59710f65;
  0x2c649e1b444bfaa921f03578039be8f40e5e8ec300f40fb2cf8755a250992c04;
  0x56bdfab60eebc37bdf53c4129b736f373556676d4744a221f1c988a89c536870;
  0x7f6ca70ea09ad6dc86113265e004c641fe4ade7c26f023e090d6fed00d0af860;
  0x946a0c394d295f9a373eb14b57879199f7f77b40082768a2b557d0e8a86beaf5;
  0x956bb6638dcfae6ed2d37ab4883e724fe35b9eef641780caac5efc9af49ad601;
  0xbbd6bff4c540040860a0df22328db32ee3ca415ae326d8f9b42e5a107941ed38;
  0x4ba55d8b5483fb0b4eef34a9a5f85538af7bbc4e921ba073bb4bf2b4cd7a6391;
  0xd7f488d79841f2beacff0a3ed506780d14869f4642201c1a827f3094898ef742;
  0x13b8ee10d8c63ccc1406374f50b83c6235b74b6e09e566dcd2899776e23a0e7f;
  0xcef09e0741a55a4fae28ffd9cee9492c33a4113fc6130b7066e321a259928248;
  0xaa3e6192682f538d4b72a6099461c5e2cfe08640786f4558796afa7bdd1b4f14;
  0x811a032a5a672ab35bdbb3a5a0ae1a6ac2e651f6a71c80d2a2cbd68054c0a119;
  0x6d40f867eb9969bd1934729f2455f97d4dfc8afe1a79a60beb99bd71d438f605;
  0xf11bb36b7ec3459d6054fcb3ea89c1492fd787504554d110ec18551d82ba8973;
  0x41c6ddf7f1d7920ac2d440aa504b65fbd35a0fc0b352cf7d2843b7f37fa68e6d;
  0x287ff2cbf1a9d6146a99ce02f55be3ae80acd199326f1bda4caf578dc321c86c;
  0xf717c949c00a247330d2c209336c342191c46c4a3cd7e6c574cf6d0475aa1d3c;
  0x407c62e377efb62b5a78ab72ebf360326fc0714d5b0884a65ed9acee28888d65;
  0x1bddb5e9b6dcb12288dee8372dd502b817cebcf99239560c5bb02eae1f5b8d6d;
  0x321c1aa0ac205274e5d2db7950f3a96d9309d50e6fb36d1051e2ff8dc48e4c2b;
  0x5155e968839912f9df9c4d6591d7f05b63e0a833bfbf06859834b241f4ce2c97;
  0x10069870cf14123388dd1bf3d59c502c7aafec7c7e5a3f1c691b28648e7e50a1;
  0xa6e9eb9d3da9c42f9aae6f283394cef1be5989de42d18f364787a82adcf070b8;
  0x0b4e9d5cd4f28e924ee797723c5e971f08178acf9d1cfcc8ba352a79d411fdd4;
  0xbbf8483324d2a924f05c202908140e3f3fd6da9ac5f253124e8953d67d1905a2;
  0xf5ce5b4d1a344626cbef7142bdc02894c6e68ca61fd5cc91742bd5f98ef6bb14;
  0xf606cc653fb2edb4402ff71980fbd71223060bd7ebc89b350e2a4b367515686a;
  0xda56c47709137e7edb64ac7d756e6af7547b8a71d4e2666cf285ceb3a25299f5;
  0xe0a350de580db0ef003512968ac580a51a40c6df2112239e26ad8a411bf7301c;
  0xd58ed0d88e40f4154e28c2823463b57c7e0a328ed5e49997bfdff4bac4603e3c;
  0xf0313f849e88f449ddecee7e8f30603b8b1fdbb3cf774d1188570c68388edc6d
].

Lemma order_chain :
  big_loop (Z.to_pos CURVE.n) None big_G order_slopes = Some None.
Proof. vm_cast_no_check (eq_refl (@Some (option (bigZ * bigZ)) None)). Qed.

(** The generator has order (dividing) [n]. *)
Lemma nmul_n_G : E.nmul (Z.to_nat CURVE.n) G = None.
Proof. exact (order_of_chain CURVE.n order_slopes eq_refl order_chain). Qed.

End ScalarMultiplication.

(** C6. For private keys [a], [b] in [[1, n - 1]], the public keys
    [A = scalarMultiply(a, G)] and [B = scalarMultiply(b, G)] exist, and
    [computeSharedSecret(a, B)] and [computeSharedSecret(b, A)] return the
    same value. *)
Theorem ecdh_agreement (a b : Z) :
  1 <= a <= CURVE.n - 1 -> 1 <= b <= CURVE.n - 1 ->
  exists A B secret,
    scalarMultiply a getGenerator = Ok A /\
    scalarMultiply b getGenerator = Ok B /\
    computeSharedSecret (PrivInt a) (PubPoint B) = Ok secret /\
    computeSharedSecret (PrivInt b) (PubPoint A) = Ok secret.
Proof.
  intros Ha Hb.
  exists (of_E (E.nmul (Z.to_nat a) G)), (of_E (E.nmul (Z.to_nat b) G)).
  exists (point_x (of_E (E.nmul (Z.to_nat a * Z.to_nat b) G))).
  split; [apply scalarMultiply_G; lia|].
  split; [apply scalarMultiply_G; lia|].
  unfold computeSharedSecret, bind.
  rewrite !scalarMultiply_E by (lia || apply E.nmul_on_curve, G_on_curve).
  rewrite <- !E.nmul_mul by apply G_on_curve.
  split; [done|]. do 4 f_equal. lia.
Qed.

(** Adding multiples of a point whose [n]-th multiple is the identity. *)
Lemma nmul_add_mod (n k1 k2 : Z) (Q : E.point) :
  E.on_curve Q -> 0 < n -> E.nmul (Z.to_nat n) Q = None ->
  0 <= k1 -> 0 <= k2 ->
  E.add (E.nmul (Z.to_nat k1) Q) (E.nmul (Z.to_nat k2) Q)
  = E.nmul (Z.to_nat ((k1 + k2) mod n)) Q.
Proof.
  intros HQ Hn Hord H1 H2.
  pose proof (Z.mod_pos_bound (k1 + k2) n Hn) as Hm.
  pose proof (Z.div_mod (k1 + k2) n ltac:(lia)) as Hd.
  assert (Hq : 0 <= (k1 + k2) / n) by (apply Z.div_pos; lia).
  rewrite <- E.nmul_add, <- Z2Nat.inj_add by done.
  rewrite Hd at 1.
  rewrite Z2Nat.inj_add, Z2Nat.inj_mul by (lia || nia).
  rewrite Nat.add_comm, E.nmul_add, Nat.mul_comm, E.nmul_mul by done.
  by rewrite Hord, E.nmul_None, E.add_None_r.
Qed.

(** C8. For scalars [k1], [k2] in [[1, n - 1]], none of the three scalar
    multiplications nor the addition throws, and
    [scalarMultiply((k1 + k2) mod n, G)] is the point
    [pointAdd(scalarMultiply(k1, G), scalarMultiply(k2, G))]. *)
Theorem scalarMultiply_add (k1 k2 : Z) :
  1 <= k1 <= CURVE.n - 1 -> 1 <= k2 <= CURVE.n - 1 ->
  exists A B C,
    scalarMultiply k1 getGenerator = Ok A /\
    scalarMultiply k2 getGenerator = Ok B /\
    scalarMultiply (js_mod (k1 + k2) CURVE.n) getGenerator = Ok C /\
    pointAdd A B = Ok C.
Proof.
  intros H1 H2.
  exists (of_E (E.nmul (Z.to_nat k1) G)), (of_E (E.nmul (Z.to_nat k2) G)).
  exists (of_E (E.nmul (Z.to_nat ((k1 + k2) mod CURVE.n)) G)).
  split; [apply scalarMultiply_G; lia|].
  split; [apply scalarMultiply_G; lia|].
  assert (Hn : 0 < CURVE.n) by reflexivity.
  rewrite js_mod_pos by exact Hn.
  pose proof (Z.mod_pos_bound (k1 + k2) CURVE.n Hn) as Hm.
  split; [apply scalarMultiply_G; lia|].
  rewrite pointAdd_E by apply E.nmul_on_curve, G_on_curve.
  do 2 f_equal.
  apply nmul_add_mod; [apply G_on_curve|exact Hn|apply nmul_n_G|lia|lia].
Qed.

(** ** Compressed public keys *)

Section CompressedKeys.

(** *** Hexadecimal text *)

Lemma parse_hex_zeros k s :
  parse_hex_from 0 (replicate k "0"%char ++ s) = parse_hex_from 0 s.
Proof. induction k as [|k IH]; [done|]. cbn. exact IH. Qed.

Lemma parse_hex_digits x w :
  forall acc,
    parse_hex_from acc
      (map (fun i => hex_digit ((x / 16 ^ Z.of_nat i) mod 16)) (rev (seq 0 w)))
    = Ok (acc * 16 ^ Z.of_nat w + x mod 16 ^ Z.of_nat w).
Proof.
  induction w as [|w IH]; intros acc.
  - cbn. f_equal. rewrite Z.mod_1_r. lia.
  - rewrite seq_S, rev_app_distr. cbn [rev app map parse_hex_from Nat.add].
    rewrite hex_value_digit by (apply Z.mod_pos_bound; lia).
    rewrite IH. f_equal.
    rewrite Nat2Z.inj_succ, Z.pow_succ_r by lia.
    rewrite (Z.mul_comm 16 (16 ^ _)).
    rewrite (Z.rem_mul_r x) by lia. ring.
Qed.

Lemma hex_width_bound x : 0 <= x -> x < 16 ^ Z.of_nat (hex_width x).
Proof.
  intros Hx. unfold hex_width. destruct (Z.eqb_spec x 0) as [->|Hne]; [done|].
  assert (Hl : 0 <= Z.log2 x) by apply Z.log2_nonneg.
  rewrite Z2Nat.id by (pose proof (Z.div_pos (Z.log2 x) 4); lia).
  change 16 with (2 ^ 4). rewrite <- Z.pow_mul_r by (try apply Z.add_nonneg_nonneg; try apply Z.div_pos; lia).
  pose proof (Z.log2_spec x ltac:(lia)) as [_ Hlt].
  eapply Z.lt_le_trans; [exact Hlt|].
  apply Z.pow_le_mono_r; [lia|].
  pose proof (Z.div_mod (Z.log2 x) 4 ltac:(lia)).
  pose proof (Z.mod_pos_bound (Z.log2 x) 4 ltac:(lia)). lia.
Qed.

Lemma hex_width_pos x : (0 < hex_width x)%nat.
Proof.
  unfold hex_width. destruct (x =? 0); [lia|].
  pose proof (Z.log2_nonneg x). pose proof (Z.div_pos (Z.log2 x) 4). lia.
Qed.

(** [BigInt('0x' + x.toString(16).padStart(64, '0'))] is [x]. *)
Lemma bigint_of_hex_padStart64 x :
  0 <= x -> bigint_of_hex (padStart64 (toString16 x)) = Ok x.
Proof.
  intros Hx. unfold toString16. rewrite (proj2 (Z.ltb_ge x 0)) by done.
  assert (Hne : padStart64 (hex_digits x) <> []).
  { unfold padStart64, hex_digits. pose proof (hex_width_pos x) as Hw.
    destruct (hex_width x) as [|w]; [lia|].
    rewrite seq_S, rev_app_distr. cbn [rev app map].
    by destruct (replicate _ _). }
  unfold bigint_of_hex. destruct (padStart64 (hex_digits x)) eqn:E; [done|].
  rewrite <- E. unfold padStart64. rewrite parse_hex_zeros.
  unfold hex_digits. rewrite parse_hex_digits. f_equal.
  rewrite Z.mod_small; [lia|]. split; [done|by apply hex_width_bound].
Qed.

(** *** Modular exponentiation *)

Lemma mul_pow_mod a b e m :
  0 < m -> 0 <= e -> (a * (b mod m) ^ e) mod m = (a * b ^ e) mod m.
Proof.
  intros Hm He.
  rewrite <- Z.mul_mod_idemp_r, <- Zpower_mod, Z.mul_mod_idemp_r by lia. done.
Qed.

Lemma modPow_loop_spec (e : positive) :
  forall base result m, 0 < m ->
    modPow_loop e base result m = (result * base ^ Zpos e) mod m.
Proof.
  induction e as [e IH|e IH|]; intros base result m Hm; cbn [modPow_loop].
  - rewrite IH, !js_mod_pos, mul_pow_mod by (done || lia).
    rewrite Z.mul_mod_idemp_l by lia. f_equal.
    rewrite Pos2Z.inj_xI, Z.pow_add_r, Z.pow_1_r, (Z.mul_comm 2), Z.pow_mul_r by lia.
    replace (base * base) with (base ^ 2) by ring.
    rewrite <- !Z.pow_mul_r by lia. rewrite (Z.mul_comm 2). ring.
  - rewrite IH, !js_mod_pos, mul_pow_mod by (done || lia). f_equal.
    rewrite Pos2Z.inj_xO.
    replace (base * base) with (base ^ 2) by ring.
    by rewrite <- Z.pow_mul_r by lia.
  - by rewrite js_mod_pos, Z.pow_1_r.
Qed.

Lemma modPow_spec base exp m :
  0 < m -> 0 < exp -> modPow base exp m = Ok (base ^ exp mod m).
Proof.
  intros Hm He. unfold modPow.
  rewrite (proj2 (Z.eqb_neq m 0)) by lia.
  destruct exp as [|e|e]; [lia| |lia].
  rewrite modPow_loop_spec, js_mod_pos, Z.mul_1_l by done.
  by rewrite <- Zpower_mod by lia.
Qed.

(** *** Square roots modulo a prime [p] with [p + 1 = 4 e] *)

Lemma sqrt_candidate (p e y : Z) :
  Z.prime p -> 4 * e = p + 1 -> 0 <= y < p ->
  let r := (y * y mod p) ^ e mod p in
  r = y \/ (0 < r /\ r + y = p).
Proof.
  intros Hp He Hy r.
  pose proof (Z.prime_ge_2 p Hp) as Hp2.
  assert (He0 : 0 < e) by lia.
  assert (Hr : 0 <= r < p) by (apply Z.mod_pos_bound; lia).
  destruct (Z.eq_dec y 0) as [->|Hy0].
  { left. unfold r. rewrite Z.mul_0_l, Z.mod_0_l, Z.pow_0_l, Z.mod_0_l by lia. done. }
  assert (Hndiv : ~ (p | y)).
  { intros Hd. apply Z.divide_pos_le in Hd; lia. }
  assert (Hsq : (r * r) mod p = (y * y) mod p).
  { unfold r. rewrite <- Z.mul_mod by lia.
    rewrite <- Z.pow_add_r by lia.
    rewrite <- Zpower_mod by lia.
    replace (y * y) with (y ^ 2) by ring.
    rewrite <- Z.pow_mul_r by lia.
    replace (2 * (e + e)) with (2 + (p - 1)) by lia.
    rewrite Z.pow_add_r by lia.
    rewrite <- Z.mul_mod_idemp_r, (fermat_little p y) by (done || lia).
    by rewrite Z.mul_1_r. }
  assert (Hdiv : (p | (r - y) * (r + y))).
  { apply Z.mod_divide; [lia|].
    replace ((r - y) * (r + y)) with (r * r - y * y) by ring.
    rewrite Zminus_mod, Hsq, Z.sub_diag. apply Z.mod_0_l; lia. }
  apply (Z.divide_prime_mul _ _ _ Hp) in Hdiv as [[k Hk]|[k Hk]].
  - left. assert (k = 0) by nia. lia.
  - right. assert (k = 1) by nia. lia.
Qed.

Lemma compressed_prefix (y : Z) (s : list ascii) :
  let c := (if Z.rem y 2 =? 0 then "02" else "03") +:+ string_of_list_ascii s in
  String.eqb c "00" = false /\
  string_of_list_ascii (take 2 (list_ascii_of_string c))
    = (if Z.rem y 2 =? 0 then "02" else "03") /\
  drop 2 (list_ascii_of_string c) = s.
Proof.
  destruct (Z.rem y 2 =? 0); cbv [String.append]; cbn;
    by rewrite list_ascii_of_string_of_list_ascii.
Qed.

Lemma parity_flip (p r y : Z) :
  Z.odd p = true -> r + y = p -> (r mod 2 =? 0) = negb (y mod 2 =? 0).
Proof.
  intros Hodd <-. rewrite Z.odd_add in Hodd. rewrite !Zmod_odd.
  by destruct (Z.odd r), (Z.odd y).
Qed.

Lemma decompress_compress_affine (x y : Z) :
  0 <= x < CURVE.p -> 0 <= y < CURVE.p ->
  isOnCurve (Affine x y) = true ->
  decompressPublicKey (compressPublicKey (Affine x y)) = Ok (Affine x y).
Proof.
  intros Hx Hy Hon.
  pose proof CURVE_p_pos as Hp.
  unfold compressPublicKey, decompressPublicKey.
  destruct (compressed_prefix y (padStart64 (toString16 x))) as (-> & -> & ->).
  rewrite bigint_of_hex_padStart64 by lia. unfold bind.
  rewrite modPow_spec by (done || reflexivity).
  unfold isOnCurve in Hon. apply Z.eqb_eq in Hon. rewrite <- Hon.
  rewrite js_mod_pos by done.
  assert (He : 4 * Z.quot (CURVE.p + 1) 4 = CURVE.p + 1) by reflexivity.
  pose proof (sqrt_candidate CURVE.p _ y prime_CURVE_p He Hy) as Hr.
  cbv zeta in Hr. set (r := (y * y mod CURVE.p) ^ _ mod CURVE.p) in *.
  rewrite !Z.rem_mod_nonneg by (try apply Z.mod_pos_bound; lia).
  destruct Hr as [->|[Hr0 Hry]].
  - destruct (y mod 2 =? 0); cbn; done.
  - pose proof (parity_flip CURVE.p r y eq_refl Hry) as Hpar.
    assert (Hflip : js_mod (- r) CURVE.p = y).
    { rewrite js_mod_pos by done.
      symmetry. apply (Z.mod_unique_pos _ _ (-1)); lia. }
    rewrite Hpar.
    destruct (y mod 2 =? 0); cbn; by rewrite Hflip.
Qed.

(** C7. For every point [(x, y)] of the curve [y^2 = x^3 + 7 mod p] with
    both coordinates in [[0, p)], decompressing its compressed key gives
    the point back. *)
Theorem decompressPublicKey_compressPublicKey (x y : Z) :
  0 <= x < CURVE.p -> 0 <= y < CURVE.p ->
  isOnCurve (Affine x y) = true ->
  decompressPublicKey (compressPublicKey (Affine x y)) = Ok (Affine x y).
Proof.
  intros Hx Hy Hon. unfold compressPublicKey.
  apply (decompress_compress_affine x y Hx Hy Hon).
Qed.

End CompressedKeys.

Section KeyAgreementSessions.

Lemma generatePrivateKeySync_range bytes :
  1 <= generatePrivateKeySync bytes <= CURVE.n - 1.
Proof.
  unfold generatePrivateKeySync.
  pose proof (js_mod_range (fold_left (fun acc byte => Z.shiftl acc 8 + byte) bytes 0)
                (CURVE.n - 1) eq_refl).
  lia.
Qed.

Lemma newECDHSession_total bytes :
  exists P, generatePublicKey (generatePrivateKeySync bytes) = Ok P /\
    newECDHSession bytes
    = Ok (mkECDHSession (generatePrivateKeySync bytes) P
            (privateKeyToHex (generatePrivateKeySync bytes))
            (compressPublicKey P) None None).
Proof.
  pose proof (generatePrivateKeySync_range bytes) as Hk.
  unfold newECDHSession, generatePublicKey.
  rewrite scalarMultiply_G by lia. eauto.
Qed.

(** C10. A session as the constructor leaves it (whatever random bytes
    were drawn) has no session key, and [getSessionKey] throws. A call of
    [setRemotePublicKey] that returns a key stores it, and [getSessionKey]
    then returns that key, the one [performECDH] derives from the session's
    private key and the peer's compressed public key; a call that throws
    leaves [getSessionKey] throwing. *)
Theorem getSessionKey_before_and_after_keying (bytes : list Z) (peer : string) :
  exists s,
    newECDHSession bytes = Ok s /\
    sessionKey s = None /\
    getSessionKey s = Err KeyNotDerived /\
    forall s' r, setRemotePublicKey s peer = (s', r) ->
      match r with
      | Ok key =>
          getSessionKey s' = Ok key /\
          performECDH (PrivInt (privateKey s)) (PubCompressed peer) = Ok key
      | Err _ => getSessionKey s' = Err KeyNotDerived
      end.
Proof.
  destruct (newECDHSession_total bytes) as (P & _ & Hnew).
  eexists. split; [exact Hnew|]. split; [done|]. split; [done|].
  intros s' r. unfold setRemotePublicKey, performECDH, computeSharedSecret.
  cbn [privateKey publicKey privateKeyHex publicKeyCompressed sessionKey bind].
  destruct (decompressPublicKey peer) as [Q|e]; cbn [bind].
  - destruct (scalarMultiply _ Q) as [S|e]; cbn [bind].
    + destruct (deriveSymmetricKey (point_x S)) as [key|e];
        intros [= <- <-]; by cbn.
    + intros [= <- <-]. done.
  - intros [= <- <-]. done.
Qed.

End KeyAgreementSessions.

(** ** Concrete instances *)

(** A session that has just been started. *)
Lemma isComplete_complete_and_success_witness :
  complete (isComplete (fst (startSession newVerifier "alice" "c0ffee")) "alice") = true
  <-> (5 <= 0)%nat.
Proof.
  pose proof (isComplete_complete_and_success
                (fst (startSession newVerifier "alice" "c0ffee")) "alice"
                (mkSession "c0ffee" [] 0 5)
                (reach_start _ _ _ reach_new)
                (startSession_lookup _ _ _)) as (_ & _ & H & _).
  exact H.
Defined.

(** A two-node commitment answered with a graph that has no edge. *)
Lemma verifyResponse_failed_round_continues_witness :
  exists r,
    [mkRound (mkGraph 2 [[0; 1]; [1; 0]]) "c0ffee" 0 false] !! 0%nat = Some r /\
    (<["alice" := mkSession "h" [mkRound (mkGraph 2 [[0; 1]; [1; 0]]) "c0ffee" 0 false] 1 5]>
       (<["alice" := mkSession "h" [mkRound (mkGraph 2 [[0; 1]; [1; 0]]) "c0ffee" 0 false] 0 5]>
          newVerifier) : Verifier) !! "alice"
    = Some (mkSession "h" (<[0%nat := set_verified false r]>
                             [mkRound (mkGraph 2 [[0; 1]; [1; 0]]) "c0ffee" 0 false])
              1 5).
Proof.
  destruct (verifyResponse_failed_round_continues
              (<["alice" := mkSession "h" [mkRound (mkGraph 2 [[0; 1]; [1; 0]]) "c0ffee" 0 false] 0 5]>
                 newVerifier)
              "alice"
              (mkSession "h" [mkRound (mkGraph 2 [[0; 1]; [1; 0]]) "c0ffee" 0 false] 0 5)
              (mkGraph 2 [[0; 0]; [0; 0]]) [0; 1] 0
              (<["alice" := mkSession "h" [mkRound (mkGraph 2 [[0; 1]; [1; 0]]) "c0ffee" 0 false] 1 5]>
                 (<["alice" := mkSession "h" [mkRound (mkGraph 2 [[0; 1]; [1; 0]]) "c0ffee" 0 false] 0 5]>
                    newVerifier))
              (mkVerifyResult false 0 4))
    as (r & Hr & Hlook & _).
  - vm_compute. reflexivity.
  - vm_compute. reflexivity.
  - reflexivity.
  - exists r. split; [exact Hr|exact Hlook].
Defined.

(** Two states that recorded different challenge nodes for the same
    commitment. *)
Lemma verifyResponse_ignores_stored_challenge_witness :
  rmap (fun '(V', out) => (forget_challenges V', out))
    (verifyResponse
       (<["alice" := mkSession "h" [mkRound (mkGraph 2 [[0; 1]; [1; 0]]) "c0ffee" 0 false] 0 5]>
          newVerifier)
       "alice" (mkGraph 2 [[0; 1]; [1; 0]]) [1; 0] 1)
  = rmap (fun '(V', out) => (forget_challenges V', out))
      (verifyResponse
         (<["alice" := mkSession "h" [mkRound (mkGraph 2 [[0; 1]; [1; 0]]) "c0ffee" 1 false] 0 5]>
            newVerifier)
         "alice" (mkGraph 2 [[0; 1]; [1; 0]]) [1; 0] 1).
Proof.
  apply (verifyResponse_ignores_stored_challenge
           (<["alice" := mkSession "h" [mkRound (mkGraph 2 [[0; 1]; [1; 0]]) "c0ffee" 0 false] 0 5]>
              newVerifier)
           (<["alice" := mkSession "h" [mkRound (mkGraph 2 [[0; 1]; [1; 0]]) "c0ffee" 1 false] 0 5]>
              newVerifier)).
  vm_compute. reflexivity.
Defined.

Lemma ecdh_agreement_witness :
  exists A B secret,
    scalarMultiply 1 getGenerator = Ok A /\
    scalarMultiply 2 getGenerator = Ok B /\
    computeSharedSecret (PrivInt 1) (PubPoint B) = Ok secret /\
    computeSharedSecret (PrivInt 2) (PubPoint A) = Ok secret.
Proof. apply (ecdh_agreement 1 2); unfold CURVE.n; lia. Defined.

Lemma scalarMultiply_add_witness :
  exists A B C,
    scalarMultiply 1 getGenerator = Ok A /\
    scalarMultiply 2 getGenerator = Ok B /\
    scalarMultiply (js_mod (1 + 2) CURVE.n) getGenerator = Ok C /\
    pointAdd A B = Ok C.
Proof. apply (scalarMultiply_add 1 2); unfold CURVE.n; lia. Defined.

Lemma decompressPublicKey_compressPublicKey_witness :
  decompressPublicKey (compressPublicKey getGenerator) = Ok getGenerator.
Proof.
  apply (decompressPublicKey_compressPublicKey CURVE.Gx CURVE.Gy).
  - unfold CURVE.Gx, CURVE.p. lia.
  - unfold CURVE.Gy, CURVE.p. lia.
  - vm_compute. reflexivity.
Defined.

(** A session keyed with the compressed form of [2 G]. *)
Lemma setRemotePublicKey_example :
  exists s s' key,
    newECDHSession (repeat 0 32) = Ok s /\
    setRemotePublicKey s
      "02c6047f9441ed7d6d3045406e95c07cd85c778e4b8cef3ca7abac09b95c709ee5"
    = (s', Ok key) /\
    getSessionKey s' = Ok key.
Proof.
  assert (Hpeer :
    decompressPublicKey
      "02c6047f9441ed7d6d3045406e95c07cd85c778e4b8cef3ca7abac09b95c709ee5"
    = Ok (Affine
            0xc6047f9441ed7d6d3045406e95c07cd85c778e4b8cef3ca7abac09b95c709ee5
            0x1ae168fea63dc339a3c58419466ceaeef7f632653266d0e1236431a950cfe52a)).
  { change "02c6047f9441ed7d6d3045406e95c07cd85c778e4b8cef3ca7abac09b95c709ee5"
      with (compressPublicKey (Affine
            0xc6047f9441ed7d6d3045406e95c07cd85c778e4b8cef3ca7abac09b95c709ee5
            0x1ae168fea63dc339a3c58419466ceaeef7f632653266d0e1236431a950cfe52a)).
    apply decompress_compress_affine; [unfold CURVE.p; lia..|vm_compute; reflexivity]. }
  assert (Hnew : exists s, newECDHSession (repeat 0 32) = Ok s /\ privateKey s = 1)
    by (vm_compute; eauto).
  destruct Hnew as (s & Hs & Hk).
  assert (Hkey : exists key,
    performECDH (PrivInt 1) (PubPoint (Affine
            0xc6047f9441ed7d6d3045406e95c07cd85c778e4b8cef3ca7abac09b95c709ee5
            0x1ae168fea63dc339a3c58419466ceaeef7f632653266d0e1236431a950cfe52a))
    = Ok key) by (vm_compute; eauto).
  destruct Hkey as (key & Hkey).
  eexists s, _, key. split; [exact Hs|].
  unfold setRemotePublicKey. rewrite Hpeer, Hk, Hkey. split; reflexivity.
Qed.

(** ** The group of curve points, as the code computes it *)

Section GroupLawOnCode.

Lemma neg_on_curve Q : E.on_curve Q -> E.on_curve (E.neg Q).
Proof. apply (EC.kneg_on_curve _ _ _ _ _ _ _ _ _ Fp.field_th Fp.eq_dec). Qed.

Lemma neg_involutive Q : E.neg (E.neg Q) = Q.
Proof. apply (EC.kneg_involutive _ _ _ _ _ _ _ _ _ Fp.field_th). Qed.

Lemma add_neg Q : E.add Q (E.neg Q) = None.
Proof. apply (EC.padd_kneg _ _ _ _ _ _ _ _ _ Fp.field_th). Qed.

Lemma neg_add P Q :
  E.on_curve P -> E.on_curve Q -> E.neg (E.add P Q) = E.add (E.neg P) (E.neg Q).
Proof.
  apply (EC.kneg_padd _ _ _ _ _ _ _ _ _ Fp.field_th _ Fp.char_large _ E.b_nonzero).
Qed.

Lemma nmul_neg k Q :
  E.on_curve Q -> E.nmul k (E.neg Q) = E.neg (E.nmul k Q).
Proof.
  intros HQ. induction k as [|k IH]; [done|].
  change (E.nmul (S k) ?R) with (E.add R (E.nmul k R)).
  rewrite IH, neg_add by (done || by apply E.nmul_on_curve). done.
Qed.

Lemma negate_E Q : negate (of_E Q) = of_E (E.neg Q).
Proof.
  destruct Q as [[x y]|]; [|done]. cbn.
  by rewrite js_mod_pos by apply CURVE_p_pos.
Qed.

Lemma valid_point_E P :
  valid_point P -> exists Q, E.on_curve Q /\ P = of_E Q.
Proof.
  intros [Hon Heq]%valid_point_to_E. by exists (to_E P).
Qed.

(** X7. [pointAdd] never throws on two points of the curve with reduced
    coordinates, and returns such a point. *)
Theorem pointAdd_valid (P Q : Point) :
  valid_point P -> valid_point Q ->
  exists R, pointAdd P Q = Ok R /\ valid_point R.
Proof.
  intros (P' & HP & ->)%valid_point_E (Q' & HQ & ->)%valid_point_E.
  exists (of_E (E.add P' Q')). split; [by apply pointAdd_E|].
  by apply valid_point_of_E, E.add_on_curve.
Qed.

(** X8. [pointAdd] is commutative. *)
Theorem pointAdd_comm (P Q : Point) :
  valid_point P -> valid_point Q -> pointAdd P Q = pointAdd Q P.
Proof.
  intros (P' & HP & ->)%valid_point_E (Q' & HQ & ->)%valid_point_E.
  rewrite !pointAdd_E by done. by rewrite E.add_comm.
Qed.

(** X9. [pointAdd] is associative. *)
Theorem pointAdd_assoc (P Q R : Point) :
  valid_point P -> valid_point Q -> valid_point R ->
  (let* PQ := pointAdd P Q in pointAdd PQ R)
  = (let* QR := pointAdd Q R in pointAdd P QR).
Proof.
  intros (P' & HP & ->)%valid_point_E (Q' & HQ & ->)%valid_point_E
         (R' & HR & ->)%valid_point_E.
  rewrite !pointAdd_E by done. unfold bind.
  rewrite !pointAdd_E by (done || by apply E.add_on_curve).
  by rewrite E.add_assoc.
Qed.

(** X10. [negate] gives the inverse for [pointAdd], and is an involution. *)
Theorem pointAdd_negate (P : Point) :
  valid_point P ->
  valid_point (negate P) /\
  pointAdd P (negate P) = Ok Infinity /\
  pointAdd (negate P) P = Ok Infinity /\
  negate (negate P) = P.
Proof.
  intros (P' & HP & ->)%valid_point_E.
  pose proof (neg_on_curve P' HP) as HN.
  rewrite !negate_E. split; [by apply valid_point_of_E|].
  rewrite !pointAdd_E by done.
  rewrite (E.add_comm (E.neg P') P'), add_neg, neg_involutive by done. done.
Qed.

Lemma scalarMultiply_neg_E (k : positive) (Q : E.point) :
  E.on_curve Q ->
  scalarMultiply (Zneg k) (of_E Q) = Ok (of_E (E.neg (E.nmul (Pos.to_nat k) Q))).
Proof.
  intros HQ. cbn [scalarMultiply]. rewrite negate_E.
  change Infinity with (of_E None).
  rewrite scalarMultiply_loop_E by (done || by apply neg_on_curve).
  by rewrite nmul_neg.
Qed.

(** X11. [scalarMultiply] never throws on a point of the curve, whatever the
    sign of the scalar, and returns a point of the curve. *)
Theorem scalarMultiply_valid (k : Z) (P : Point) :
  valid_point P -> exists R, scalarMultiply k P = Ok R /\ valid_point R.
Proof.
  intros (P' & HP & ->)%valid_point_E.
  destruct k as [|k|k].
  - by exists Infinity.
  - eexists. split; [by apply (scalarMultiply_E (Zpos k))|].
    by apply valid_point_of_E, E.nmul_on_curve.
  - eexists. split; [by apply scalarMultiply_neg_E|].
    by apply valid_point_of_E, neg_on_curve, E.nmul_on_curve.
Qed.

(** X12. Scalars add: [(k1 + k2) P = k1 P + k2 P] for non-negative scalars. *)
Theorem scalarMultiply_plus (k1 k2 : Z) (P : Point) :
  0 <= k1 -> 0 <= k2 -> valid_point P ->
  exists A B C,
    scalarMultiply k1 P = Ok A /\ scalarMultiply k2 P = Ok B /\
    scalarMultiply (k1 + k2) P = Ok C /\ pointAdd A B = Ok C.
Proof.
  intros H1 H2 (P' & HP & ->)%valid_point_E.
  exists (of_E (E.nmul (Z.to_nat k1) P')), (of_E (E.nmul (Z.to_nat k2) P')),
         (of_E (E.nmul (Z.to_nat (k1 + k2)) P')).
  rewrite !scalarMultiply_E by (done || lia).
  rewrite pointAdd_E by by apply E.nmul_on_curve.
  rewrite Z2Nat.inj_add, E.nmul_add by done. done.
Qed.

(** X13. Scalars multiply: [(k1 * k2) P = k1 (k2 P)] for non-negative
    scalars. *)
Theorem scalarMultiply_times (k1 k2 : Z) (P : Point) :
  0 <= k1 -> 0 <= k2 -> valid_point P ->
  exists B C,
    scalarMultiply k2 P = Ok B /\
    scalarMultiply (k1 * k2) P = Ok C /\ scalarMultiply k1 B = Ok C.
Proof.
  intros H1 H2 (P' & HP & ->)%valid_point_E.
  exists (of_E (E.nmul (Z.to_nat k2) P')),
         (of_E (E.nmul (Z.to_nat (k1 * k2)) P')).
  rewrite !scalarMultiply_E by (done || lia || by apply E.nmul_on_curve).
  rewrite Z2Nat.inj_mul, E.nmul_mul by done. done.
Qed.

(** X14. A negative scalar multiplies the negated point: [(-k) P = -(k P)]. *)
Theorem scalarMultiply_opp (k : Z) (P : Point) :
  valid_point P ->
  scalarMultiply (- k) P = rmap negate (scalarMultiply k P).
Proof.
  intros (P' & HP & ->)%valid_point_E.
  destruct k as [|k|k]; unfold rmap.
  - done.
  - change (- Z.pos k) with (Z.neg k).
    rewrite scalarMultiply_neg_E, (scalarMultiply_E (Zpos k)) by done.
    cbn [bind]. by rewrite negate_E.
  - change (- Z.neg k) with (Z.pos k).
    rewrite scalarMultiply_neg_E, (scalarMultiply_E (Zpos k)) by done.
    cbn [bind]. by rewrite negate_E, neg_involutive.
Qed.

End GroupLawOnCode.

(** ** The order of the generator is the prime [n] *)

Section GeneratorOrder.

Lemma prime_28181 : Z.prime 28181.
Proof. apply trial_check_sound. vm_cast_no_check (eq_refl true). Qed.
Lemma prime_120233 : Z.prime 120233.
Proof. apply trial_check_sound. vm_cast_no_check (eq_refl true). Qed.
Lemma prime_1627771 : Z.prime 1627771.
Proof. apply trial_check_sound. vm_cast_no_check (eq_refl true). Qed.
Lemma prime_44706919 : Z.prime 44706919.
Proof. apply trial_check_sound. vm_cast_no_check (eq_refl true). Qed.

Lemma prime_545358713 : Z.prime 545358713.
Proof.
  apply (pock_check_sound _ [(28181, 2)]).
  - cbn [map fst]. constructor; [apply prime_28181|constructor].
  - vm_cast_no_check (eq_refl true).
Qed.

Lemma prime_297159362677 : Z.prime 297159362677.
Proof.
  apply (pock_check_sound _ [(1627771, 2)]).
  - cbn [map fst]. constructor; [apply prime_1627771|constructor].
  - vm_cast_no_check (eq_refl true).
Qed.

Lemma prime_c68 : Z.prime 174723607534414371449.
Proof.
  apply (pock_check_sound _ [(44706919, 2); (120233, 2)]).
  - cbn [map fst].
    constructor; [apply prime_44706919|].
    constructor; [apply prime_120233|constructor].
  - vm_cast_no_check (eq_refl true).
Qed.

Lemma prime_c95 : Z.prime 29047611873442575647497758179.
Proof.
  apply (pock_check_sound _ [(297159362677, 2); (545358713, 2)]).
  - cbn [map fst].
    constructor; [apply prime_297159362677|].
    constructor; [apply prime_545358713|constructor].
  - vm_cast_no_check (eq_refl true).
Qed.

Lemma prime_c109 : Z.prime 341948486974166000522343609283189.
Proof.
  apply (pock_check_sound _ [(29047611873442575647497758179, 2)]).
  - cbn [map fst]. constructor; [apply prime_c95|constructor].
  - vm_cast_no_check (eq_refl true).
Qed.

Theorem prime_CURVE_n : Z.prime CURVE.n.
Proof.
  apply (pock_check_sound _
    [(341948486974166000522343609283189, 2); (174723607534414371449, 2)]).
  - cbn [map fst].
    constructor; [apply prime_c109|].
    constructor; [apply prime_c68|constructor].
  - vm_cast_no_check (eq_refl true).
Qed.

(** A point that a prime [n] annihilates has order exactly [n]. *)
Lemma nmul_prime_order (n : Z) (Q : E.point) :
  Z.prime n -> E.on_curve Q -> Q <> None ->
  E.nmul (Z.to_nat n) Q = None ->
  forall k, 0 <= k -> (E.nmul (Z.to_nat k) Q = None <-> (n | k)).
Proof.
  intros Hn HQ HQ0 Hord k Hk.
  pose proof (Z.prime_ge_2 n Hn) as Hn2.
  assert (Hmul : forall q, 0 <= q -> E.nmul (Z.to_nat (q * n)) Q = None).
  { intros q Hq. rewrite Z2Nat.inj_mul, E.nmul_mul, Hord by (done || lia).
    apply E.nmul_None. }
  split.
  - intros Hz.
    pose proof (Z.div_mod k n ltac:(lia)) as Hdm.
    pose proof (Z.mod_pos_bound k n ltac:(lia)) as Hr.
    assert (Hq : 0 <= k / n) by (apply Z.div_pos; lia).
    assert (Hrz : E.nmul (Z.to_nat (k mod n)) Q = None).
    { rewrite Hdm in Hz.
      rewrite Z2Nat.inj_add, E.nmul_add in Hz by (done || lia || nia).
      rewrite (Z.mul_comm n), Hmul in Hz by done. exact Hz. }
    destruct (Z.eq_dec (k mod n) 0) as [E0|Hne].
    { apply Z.mod_divide; [lia|done]. }
    exfalso. apply HQ0.
    (* an inverse [u] of [k mod n] modulo [n]: [u (k mod n) = 1 + m n] *)
    set (r := k mod n) in *.
    assert (Hgcd : Z.gcd r n = 1).
    { rewrite Z.gcd_comm. apply Z.coprime_prime_small; [done|lia]. }
    destruct (Z.gcd_bezout r n 1 Hgcd) as (u & v & Huv).
    set (u' := u mod n).
    pose proof (Z.mod_pos_bound u n ltac:(lia)) as Hu'.
    pose proof (Z.div_mod u n ltac:(lia)) as Hud.
    assert (Hm : exists m, 0 <= m /\ u' * r = 1 + m * n).
    { exists (u' * r / n).
      assert (Hmod : (u' * r) mod n = 1).
      { unfold u'. rewrite Z.mul_mod_idemp_l by lia.
        replace (u * r) with (1 + (- v) * n) by lia.
        rewrite Z.mod_add by lia. apply Z.mod_small. lia. }
      pose proof (Z.div_mod (u' * r) n ltac:(lia)) as Hd2.
      split; [apply Z.div_pos; nia|]. lia. }
    destruct Hm as (m & Hm0 & Hm).
    assert (H1 : E.nmul (Z.to_nat (u' * r)) Q = None).
    { rewrite Z2Nat.inj_mul, E.nmul_mul, Hrz by (done || lia).
      apply E.nmul_None. }
    rewrite Hm in H1.
    rewrite Z2Nat.inj_add, E.nmul_add in H1 by (done || lia || nia).
    rewrite Hmul in H1 by done.
    change (Z.to_nat 1) with 1%nat in H1.
    by rewrite E.nmul_1, E.add_None_r in H1.
  - intros [q ->].
    assert (0 <= q) by nia. by apply Hmul.
Qed.

Lemma G_not_None : G <> None.
Proof. done. Qed.

Lemma nmul_G_order (k : Z) :
  0 <= k -> (E.nmul (Z.to_nat k) G = None <-> (CURVE.n | k)).
Proof.
  exact (nmul_prime_order CURVE.n G prime_CURVE_n G_on_curve G_not_None nmul_n_G k).
Qed.

Lemma of_E_Infinity Q : of_E Q = Infinity <-> Q = None.
Proof. by destruct Q as [[x y]|]. Qed.

(** X15. [scalarMultiply(k, G)] is the point at infinity exactly for the
    multiples [k] of [n]. *)
Theorem scalarMultiply_G_Infinity (k : Z) :
  0 <= k ->
  (scalarMultiply k getGenerator = Ok Infinity <-> (CURVE.n | k)).
Proof.
  intros Hk. rewrite scalarMultiply_G by done.
  rewrite <- nmul_G_order by done. split.
  - intros [= H]. by apply of_E_Infinity.
  - by intros ->.
Qed.

Lemma not_divide_product (n a b : Z) :
  Z.prime n -> 0 < a < n -> 0 < b < n -> ~ (n | a * b).
Proof.
  intros Hn Ha Hb Hd.
  apply (Z.divide_prime_mul _ _ _ Hn) in Hd as [Hd|Hd];
    apply Z.divide_pos_le in Hd; lia.
Qed.

(** X16. Every public key [generatePublicKey] derives from a private key in
    [[1, n - 1]] passes [isValidPublicKey]. *)
Theorem isValidPublicKey_generatePublicKey (privateKey : Z) :
  1 <= privateKey <= CURVE.n - 1 ->
  exists publicKey,
    generatePublicKey privateKey = Ok publicKey /\
    publicKey <> Infinity /\
    isValidPublicKey publicKey = Ok true.
Proof.
  intros Hk. set (Q := E.nmul (Z.to_nat privateKey) G).
  assert (HQ : E.on_curve Q) by apply E.nmul_on_curve, G_on_curve.
  assert (HQ0 : Q <> None).
  { intros HQ0. apply nmul_G_order in HQ0 as Hd; [|lia].
    apply Z.divide_pos_le in Hd; lia. }
  exists (of_E Q). split; [apply scalarMultiply_G; lia|].
  split; [by rewrite of_E_Infinity|].
  unfold isValidPublicKey.
  pose proof (valid_point_of_E Q HQ) as Hv.
  assert (Hne : of_E Q <> Infinity) by by rewrite of_E_Infinity.
  pose proof (scalarMultiply_E CURVE.n Q ltac:(discriminate) HQ) as Hn.
  destruct (of_E Q) as [|x y]; [done|]. cbn [isInfinity].
  destruct Hv as (_ & _ & ->). cbn [negb]. rewrite Hn. cbn [bind].
  unfold Q. rewrite <- E.nmul_mul, Nat.mul_comm, E.nmul_mul by apply G_on_curve.
  by rewrite nmul_n_G, E.nmul_None.
Qed.

End GeneratorOrder.

(** ** Arithmetic helpers of crypto/ecc.js *)

Section ArithmeticHelpers.

(** [mod(a, m)] with a positive modulus is the residue of [a] in
    [[0, m)], also for a negative [a], where [%] alone is negative. *)
Theorem js_mod_residue (a m : Z) :
  0 < m -> 0 <= js_mod a m < m /\ (m | js_mod a m - a).
Proof.
  intros Hm. split; [by apply js_mod_range|].
  rewrite js_mod_pos by done.
  exists (- (a / m)). pose proof (Z.div_mod a m ltac:(lia)). lia.
Qed.

(** X1. [extendedGcd(a, b)] on non-negative arguments ends and returns the gcd
    with Bezout coefficients for it. *)
Theorem extendedGcd_bezout (a b : Z) :
  0 <= a -> 0 <= b ->
  exists r, extendedGcd a b = Ok r /\
    gcd r = Z.gcd a b /\ a * coef_x r + b * coef_y r = gcd r.
Proof. intros Ha Hb. exact (extendedGcd_total a b Ha Hb). Qed.

(** X2. [modPow(base, exp, m)] with a positive modulus is [base ^ exp mod m]
    for a positive exponent; for an exponent that is zero or negative the
    loop does not run and the result is [1], not reduced modulo [m] (so
    [1] also for [m = 1]). *)
Theorem modPow_power (base exp m : Z) :
  0 < m ->
  modPow base exp m = Ok (if 0 <? exp then base ^ exp mod m else 1).
Proof.
  intros Hm. destruct (Z.ltb_spec 0 exp) as [He|He].
  - by apply modPow_spec.
  - unfold modPow. rewrite (proj2 (Z.eqb_neq m 0)) by lia.
    destruct exp; (done || lia).
Qed.

(** X3. The private key drawn from any random bytes lies in [[1, n - 1]]. *)
Theorem generatePrivateKeySync_valid (bytes : list Z) :
  1 <= generatePrivateKeySync bytes <= CURVE.n - 1.
Proof. exact (generatePrivateKeySync_range bytes). Qed.

(** X4. [simpleHash] of a string lies in [[1, n - 1]]: it is never zero. *)
Theorem simpleHash_range (str : list Z) : 1 <= simpleHash str <= CURVE.n - 1.
Proof.
  unfold simpleHash.
  assert (Hn : 0 < CURVE.n) by reflexivity.
  assert (Hn1 : 1 < CURVE.n) by reflexivity.
  assert (Hfold : forall h, 0 <= h < CURVE.n ->
    0 <= fold_left (fun hash c => js_mod (hash * 31 + c) CURVE.n) str h < CURVE.n).
  { induction str as [|c str IH]; intros h Hh; [done|].
    cbn [fold_left]. apply IH. by apply js_mod_range. }
  specialize (Hfold 0 ltac:(lia)).
  set (h := fold_left _ str 0) in *.
  destruct (Z.eqb_spec h 0); lia.
Qed.

End ArithmeticHelpers.

(** ** Key and point encodings *)

Section Encodings.

Lemma bigint_of_hex_toString16 x :
  0 <= x -> bigint_of_hex (toString16 x) = Ok x.
Proof.
  intros Hx. unfold toString16. rewrite (proj2 (Z.ltb_ge x 0)) by done.
  unfold bigint_of_hex, hex_digits.
  pose proof (hex_width_pos x) as Hw.
  destruct (map _ (rev (seq 0 (hex_width x)))) eqn:E.
  { apply (f_equal length) in E. rewrite length_map, length_rev, length_seq in E.
    cbn in E. lia. }
  rewrite <- E, parse_hex_digits. f_equal.
  rewrite Z.mod_small; [lia|]. split; [done|by apply hex_width_bound].
Qed.

Lemma hex_width_le_64 x : 0 <= x < 2 ^ 256 -> (hex_width x <= 64)%nat.
Proof.
  intros Hx. unfold hex_width. destruct (Z.eqb_spec x 0); [lia|].
  assert (Z.log2 x < 256) by (apply Z.log2_lt_pow2; lia).
  assert (Z.log2 x / 4 < 64) by (apply Z.div_lt_upper_bound; lia).
  pose proof (Z.log2_nonneg x). pose proof (Z.div_pos (Z.log2 x) 4). lia.
Qed.

Lemma string_of_list_ascii_length l :
  String.length (string_of_list_ascii l) = length l.
Proof. induction l as [|c l IH]; cbn; congruence. Qed.

(** X5. A private key survives the trip through its hexadecimal text, which
    has 64 characters for keys below [2^256]. *)
Theorem hexToPrivateKey_privateKeyToHex (privateKey : Z) :
  0 <= privateKey ->
  hexToPrivateKey (privateKeyToHex privateKey) = Ok privateKey /\
  (privateKey < 2 ^ 256 -> String.length (privateKeyToHex privateKey) = 64%nat).
Proof.
  intros Hk. unfold hexToPrivateKey, privateKeyToHex. split.
  - rewrite list_ascii_of_string_of_list_ascii.
    by apply bigint_of_hex_padStart64.
  - intros Hlt. rewrite string_of_list_ascii_length.
    unfold padStart64, toString16. rewrite (proj2 (Z.ltb_ge privateKey 0)) by done.
    rewrite length_app, length_replicate. unfold hex_digits.
    rewrite length_map, length_rev, length_seq.
    pose proof (hex_width_le_64 privateKey ltac:(lia)). lia.
Qed.

(** X6. [Point.fromJSON(P.toJSON())] is [P] for the point at infinity and for
    every point with non-negative coordinates. *)
Theorem fromJSON_toJSON (P : Point) :
  match P with Infinity => True | Affine x y => 0 <= x /\ 0 <= y end ->
  fromJSON (toJSON P) = Ok P.
Proof.
  destruct P as [|x y]; [done|]. intros [Hx Hy].
  unfold fromJSON, toJSON, json_hex. cbn [json_x json_y].
  rewrite !list_ascii_of_string_of_list_ascii.
  by rewrite !bigint_of_hex_toString16.
Qed.

End Encodings.

(** ** The key exchange, end to end *)

Section KeyExchange.

(** *** The digest has 32 bytes *)

Lemma round_length st kw : length (Sha256.round st kw) = length st.
Proof.
  unfold Sha256.round.
  do 8 (destruct st as [|? st]; [done|]). by destruct st.
Qed.

Lemma compress_length st block :
  length (Sha256.compress st block) = length st.
Proof.
  unfold Sha256.compress. cbv zeta.
  rewrite length_map, length_combine.
  assert (H : forall l s, length (fold_left Sha256.round l s) = length s).
  { induction l as [|kw l IH]; intros s; [done|].
    cbn [fold_left]. by rewrite IH, round_length. }
  rewrite H. lia.
Qed.

Lemma digest_length msg : length (Sha256.digest msg) = 32%nat.
Proof.
  unfold Sha256.digest. cbv zeta.
  set (blocks := Sha256.chunks _ _ _).
  assert (H : forall l s, length (fold_left Sha256.compress l s) = length s).
  { induction l as [|b l IH]; intros s; [done|].
    cbn [fold_left]. by rewrite IH, compress_length. }
  specialize (H blocks Sha256.H0).
  change (length Sha256.H0) with 8%nat in H.
  revert H. generalize (fold_left Sha256.compress blocks Sha256.H0).
  intros st Hst.
  do 8 (destruct st as [|? st]; [done|]). by destruct st.
Qed.

(** *** The hashed buffer is the big-endian secret *)

Lemma hex_digits_full x w :
  0 <= x -> (hex_width x <= w)%nat ->
  replicate (w - length (hex_digits x)) "0"%char ++ hex_digits x
  = map (fun i => hex_digit ((x / 16 ^ Z.of_nat i) mod 16)) (rev (seq 0 w)).
Proof.
  intros Hx Hw. unfold hex_digits.
  rewrite length_map, length_rev, length_seq.
  replace w with (hex_width x + (w - hex_width x))%nat at 2 by lia.
  rewrite seq_app, rev_app_distr, map_app. f_equal.
  cbn [Nat.add]. generalize (w - hex_width x)%nat as d. intros d.
  pose proof (hex_width_bound x Hx) as Hb.
  assert (Hz : forall i, (hex_width x <= i)%nat ->
               hex_digit ((x / 16 ^ Z.of_nat i) mod 16) = "0"%char).
  { intros i Hi. rewrite Z.div_small; [done|]. split; [done|].
    eapply Z.lt_le_trans; [exact Hb|]. apply Z.pow_le_mono_r; lia. }
  induction d as [|d IH]; [done|].
  rewrite seq_S, rev_app_distr. cbn [rev app map].
  rewrite Hz by lia. rewrite <- IH.
  change (?c :: replicate d ?c) with (replicate (S d) c).
  done.
Qed.

Lemma buffer_of_hex_digits x k :
  buffer_of_hex
    (map (fun i => hex_digit ((x / 16 ^ Z.of_nat i) mod 16)) (rev (seq 0 (2 * k))))
  = Sha256.be_bytes k x.
Proof.
  unfold Sha256.be_bytes. induction k as [|k IH]; [done|].
  replace (2 * S k)%nat with (S (S (2 * k))) by lia.
  rewrite !seq_S, !rev_app_distr. cbn [rev app map Nat.add buffer_of_hex].
  rewrite !hex_value_digit by (apply Z.mod_pos_bound; lia).
  rewrite IH. f_equal.
  rewrite Z.shiftr_div_pow2 by lia.
  replace (2 ^ (8 * Z.of_nat k)) with (16 ^ Z.of_nat (2 * k)).
  2:{ change 16 with (2 ^ 4). rewrite <- Z.pow_mul_r by lia. f_equal. lia. }
  rewrite Nat2Z.inj_succ, Z.pow_succ_r by lia.
  set (q := 16 ^ Z.of_nat (2 * k)).
  assert (Hq : 0 < q) by (apply Z.pow_pos_nonneg; lia).
  rewrite (Z.mul_comm 16 q), <- Z.div_div by lia.
  change 256 with (16 * 16). rewrite Z.rem_mul_r by lia. lia.
Qed.

(** X17. [deriveSymmetricKey] throws on the [null] abscissa of the point at
    infinity; on a secret below [2^256] it returns the 32 bytes of the
    SHA-256 digest of the secret written big-endian on 32 bytes. *)
Theorem deriveSymmetricKey_digest (secret : Z) :
  0 <= secret < 2 ^ 256 ->
  deriveSymmetricKey None = Err TypeError /\
  exists key,
    deriveSymmetricKey (Some secret) = Ok key /\
    key = Sha256.digest (Sha256.be_bytes 32 secret) /\
    length key = 32%nat.
Proof.
  intros Hs. split; [done|]. eexists. split; [done|].
  split; [|apply digest_length]. f_equal.
  unfold padStart64, toString16. rewrite (proj2 (Z.ltb_ge secret 0)) by lia.
  rewrite (hex_digits_full secret 64) by (lia || by apply hex_width_le_64).
  apply (buffer_of_hex_digits secret 32).
Qed.

(** *** Both forms of each argument of [computeSharedSecret] *)

Lemma decompress_compress_valid (B : Point) :
  valid_point B -> decompressPublicKey (compressPublicKey B) = Ok B.
Proof.
  destruct B as [|x y]; [done|]. intros (Hx & Hy & Hon).
  by apply decompress_compress_affine.
Qed.

(** X18. [computeSharedSecret] returns the same for a private key given as a
    BigInt or as its hexadecimal text, and for a public key given as a
    point or in compressed form. *)
Theorem computeSharedSecret_encoded (a : Z) (B : Point) :
  0 <= a -> valid_point B ->
  computeSharedSecret (PrivHex (privateKeyToHex a))
                      (PubCompressed (compressPublicKey B))
  = computeSharedSecret (PrivInt a) (PubPoint B).
Proof.
  intros Ha HB. unfold computeSharedSecret.
  rewrite decompress_compress_valid by done.
  unfold hexToPrivateKey, privateKeyToHex.
  rewrite list_ascii_of_string_of_list_ascii.
  by rewrite bigint_of_hex_padStart64.
Qed.

(** *** Two sessions that exchange their public keys *)

Lemma performECDH_G (a b : Z) :
  1 <= a <= CURVE.n - 1 -> 1 <= b <= CURVE.n - 1 ->
  exists key,
    performECDH (PrivInt a) (PubPoint (of_E (E.nmul (Z.to_nat b) G))) = Ok key /\
    performECDH (PrivInt b) (PubPoint (of_E (E.nmul (Z.to_nat a) G))) = Ok key /\
    length key = 32%nat.
Proof.
  intros Ha Hb.
  assert (Hn : 0 < CURVE.n) by reflexivity.
  unfold performECDH, computeSharedSecret. cbn [bind].
  rewrite !scalarMultiply_E by (lia || apply E.nmul_on_curve, G_on_curve).
  cbn [bind]. rewrite <- !E.nmul_mul by apply G_on_curve.
  rewrite (Nat.mul_comm (Z.to_nat b)).
  rewrite <- Z2Nat.inj_mul by lia.
  assert (Hne : E.nmul (Z.to_nat (a * b)) G <> None).
  { intros H. apply nmul_G_order in H; [|nia].
    revert H. apply not_divide_product; [apply prime_CURVE_n|lia|lia]. }
  destruct (E.nmul (Z.to_nat (a * b)) G) as [[x y]|]; [|done].
  cbn [of_E point_x deriveSymmetricKey]. eexists. split; [done|].
  split; [done|apply digest_length].
Qed.

(** X19. Two sessions, whatever random bytes their constructors drew, that
    hand each other their public key derive the same 32-byte session key;
    no call throws. *)
Theorem ecdh_sessions_agree (bytesA bytesB : list Z) :
  exists sA sB sA' sB' key,
    newECDHSession bytesA = Ok sA /\
    newECDHSession bytesB = Ok sB /\
    setRemotePublicKey sA (getPublicKey sB) = (sA', Ok key) /\
    setRemotePublicKey sB (getPublicKey sA) = (sB', Ok key) /\
    getSessionKey sA' = Ok key /\
    getSessionKey sB' = Ok key /\
    length key = 32%nat.
Proof.
  pose proof (generatePrivateKeySync_range bytesA) as Ha.
  pose proof (generatePrivateKeySync_range bytesB) as Hb.
  set (a := generatePrivateKeySync bytesA) in *.
  set (b := generatePrivateKeySync bytesB) in *.
  destruct (performECDH_G a b Ha Hb) as (key & HkA & HkB & Hlen).
  assert (HvA : valid_point (of_E (E.nmul (Z.to_nat a) G)))
    by apply valid_point_of_E, E.nmul_on_curve, G_on_curve.
  assert (HvB : valid_point (of_E (E.nmul (Z.to_nat b) G)))
    by apply valid_point_of_E, E.nmul_on_curve, G_on_curve.
  unfold newECDHSession, generatePublicKey. fold a b.
  rewrite !scalarMultiply_G by lia. cbn [bind].
  eexists _, _, _, _, key.
  split; [reflexivity|]. split; [reflexivity|].
  unfold setRemotePublicKey, getPublicKey.
  cbn [publicKeyCompressed privateKey publicKey privateKeyHex sessionKey].
  rewrite !decompress_compress_valid by done.
  rewrite HkA, HkB. done.
Qed.

End KeyExchange.

(** ** Graphs as adjacency matrices *)

Section Graphs.
Implicit Types (g : Graph) (m : list (list Z)) (i j a b : nat).

(** A square matrix of the declared size. *)
Definition wf_graph g : Prop :=
  length (adjacencyMatrix g) = numNodes g /\
  Forall (fun row => length row = numNodes g) (adjacencyMatrix g).

(** [m[a][b] === 1], false outside the matrix. *)
Definition edge_in m a b : bool :=
  match m !! a with
  | Some row => entry_is_one row b
  | None => false
  end.
Definition edge g a b : bool := edge_in (adjacencyMatrix g) a b.

(** Undirected, without self-loops, entries 0 or 1. *)
Definition simple_graph g : Prop :=
  wf_graph g /\
  (forall a b, edge g a b = edge g b a) /\
  (forall a, edge g a a = false) /\
  Forall (Forall (fun v => v = 0 \/ v = 1)) (adjacencyMatrix g).

Lemma wf_newGraph n : wf_graph (newGraph n).
Proof.
  split; cbn; [by rewrite length_replicate|].
  apply Forall_replicate. by rewrite length_replicate.
Qed.

Lemma edge_newGraph n a b : edge (newGraph n) a b = false.
Proof.
  unfold edge, edge_in, newGraph. cbn.
  destruct (replicate n (replicate n 0) !! a) as [row|] eqn:E; [|done].
  apply lookup_replicate in E as [-> _]. unfold entry_is_one.
  destruct (replicate n 0 !! b) as [v|] eqn:E; [|done].
  by apply lookup_replicate in E as [-> _].
Qed.

Lemma simple_newGraph n : simple_graph (newGraph n).
Proof.
  split; [apply wf_newGraph|]. split; [intros; by rewrite !edge_newGraph|].
  split; [intros; by rewrite edge_newGraph|].
  cbn. apply Forall_replicate, Forall_replicate. by left.
Qed.

(** Writing [1] at row [i], column [j]. *)
Lemma edge_in_alter m i j a b :
  (forall row, m !! i = Some row -> (j < length row)%nat) ->
  edge_in (alter (fun row => <[j := 1]> row) i m) a b
  = edge_in m a b || (bool_decide (a = i) && bool_decide (b = j) && bool_decide (i < length m)%nat).
Proof.
  intros Hj. unfold edge_in.
  destruct (decide (a = i)) as [->|Hne].
  - rewrite list_lookup_alter_eq. rewrite bool_decide_eq_true_2 by done.
    destruct (m !! i) as [row|] eqn:Hrow; cbn.
    + specialize (Hj row eq_refl).
      rewrite (bool_decide_eq_true_2 (i < length m)%nat)
        by (by eapply lookup_lt_Some).
      unfold entry_is_one.
      destruct (decide (b = j)) as [->|Hb].
      * rewrite list_lookup_insert_eq by done.
        rewrite bool_decide_eq_true_2 by done. cbn. by rewrite orb_true_r.
      * rewrite list_lookup_insert_ne by done.
        rewrite (bool_decide_eq_false_2 (b = j)) by done. cbn.
        by rewrite orb_false_r.
    + apply lookup_ge_None in Hrow.
      rewrite (bool_decide_eq_false_2 (i < length m)%nat) by lia.
      by rewrite andb_false_r.
  - rewrite list_lookup_alter_ne by done.
    rewrite (bool_decide_eq_false_2 (a = i)) by done. cbn.
    by rewrite orb_false_r.
Qed.

Lemma wf_alter g i j :
  wf_graph g ->
  wf_graph (mkGraph (numNodes g)
              (alter (fun row => <[j := 1]> row) i (adjacencyMatrix g))).
Proof.
  intros [Hl Hrows]. split; cbn.
  - by rewrite length_alter.
  - apply Forall_alter; [done|]. intros row _ Hrow.
    by rewrite length_insert.
Qed.

Lemma binary_alter m i j :
  Forall (Forall (fun v => v = 0 \/ v = 1)) m ->
  Forall (Forall (fun v => v = 0 \/ v = 1))
         (alter (fun row => <[j := 1]> row) i m).
Proof.
  intros Hm. apply Forall_alter; [done|]. intros row _ Hrow.
  apply Forall_insert; [done|by right].
Qed.

(** What [addEdge] does on a square matrix: inside the matrix it sets the
    two symmetric entries and nothing else; outside it throws. *)
Lemma addEdge_spec g i j :
  wf_graph g ->
  if bool_decide (i < numNodes g)%nat && bool_decide (j < numNodes g)%nat then
    exists g', addEdge g i j = Ok g' /\ wf_graph g' /\ numNodes g' = numNodes g /\
      (forall a b, edge g' a b
         = edge g a b || (bool_decide (a = i) && bool_decide (b = j))
                      || (bool_decide (a = j) && bool_decide (b = i))) /\
      (Forall (Forall (fun v => v = 0 \/ v = 1)) (adjacencyMatrix g) ->
       Forall (Forall (fun v => v = 0 \/ v = 1)) (adjacencyMatrix g'))
  else addEdge g i j = Err TypeError.
Proof.
  intros Hwf. pose proof Hwf as [Hl Hrows]. unfold addEdge. rewrite Hl.
  destruct (bool_decide (i < numNodes g)%nat && bool_decide (j < numNodes g)%nat)
    eqn:Hij; [|done].
  apply andb_true_iff in Hij as [Hi%bool_decide_eq_true Hj%bool_decide_eq_true].
  eexists. split; [done|].
  pose proof (wf_alter g i j Hwf) as Hwf1.
  pose proof (wf_alter _ j i Hwf1) as Hwf2. cbn in Hwf2.
  split; [exact Hwf2|]. split; [done|]. split.
  - intros a b. unfold edge. cbn [adjacencyMatrix].
    rewrite edge_in_alter.
    2:{ intros row Hrow. destruct Hwf1 as [_ Hr1]. cbn in Hr1.
        eapply Forall_lookup_1 in Hr1; [|done]. lia. }
    rewrite edge_in_alter.
    2:{ intros row Hrow. eapply Forall_lookup_1 in Hrows; [|done]. lia. }
    rewrite length_alter, Hl.
    rewrite (bool_decide_eq_true_2 (i < numNodes g)%nat) by done.
    rewrite (bool_decide_eq_true_2 (j < numNodes g)%nat) by done.
    by rewrite !andb_true_r.
  - intros Hb. cbn. by apply binary_alter, binary_alter.
Qed.

Lemma getNeighbors_wf g i :
  wf_graph g -> (i < numNodes g)%nat ->
  getNeighbors g (Z.of_nat i)
  = Ok (filter (fun j => edge g i j = true) (seq 0 (numNodes g))).
Proof.
  intros [Hl Hrows] Hi. unfold getNeighbors.
  destruct (numNodes g) as [|n] eqn:En; [lia|].
  rewrite (proj2 (Z.leb_le 0 (Z.of_nat i))) by lia. rewrite Nat2Z.id.
  destruct (adjacencyMatrix g !! i) as [row|] eqn:Hrow.
  - f_equal. apply list_filter_iff. intros j. unfold edge, edge_in.
    by rewrite Hrow.
  - apply lookup_ge_None in Hrow. lia.
Qed.

(** X20. [addEdge] then [hasEdge]: on a square matrix, [addEdge(i, j)] with
    both indices inside makes [hasEdge(i, j)] and [hasEdge(j, i)] true and
    changes no other entry; with an index outside it throws. *)
Theorem hasEdge_addEdge g i j :
  wf_graph g ->
  ((i < numNodes g)%nat -> (j < numNodes g)%nat ->
   exists g', addEdge g i j = Ok g' /\ wf_graph g' /\
     hasEdge g' i j = Ok true /\ hasEdge g' j i = Ok true /\
     forall a b, (a, b) <> (i, j) -> (a, b) <> (j, i) ->
       hasEdge g' a b = hasEdge g a b) /\
  (~ ((i < numNodes g)%nat /\ (j < numNodes g)%nat) ->
   addEdge g i j = Err TypeError).
Proof.
  intros Hwf. pose proof (addEdge_spec g i j Hwf) as Hspec. split.
  - intros Hi Hj.
    rewrite !bool_decide_eq_true_2 in Hspec by done. cbn in Hspec.
    destruct Hspec as (g' & Hadd & Hwf' & Hn & Hedge & _).
    exists g'. split; [done|]. split; [done|].
    assert (Hhas : forall a b, (a < numNodes g)%nat ->
                     hasEdge g' a b = Ok (edge g' a b)).
    { intros a b Ha. unfold hasEdge, edge, edge_in.
      destruct (adjacencyMatrix g' !! a) eqn:E; [done|].
      apply lookup_ge_None in E. destruct Hwf' as [Hl' _]. lia. }
    rewrite !Hhas, !Hedge by done.
    rewrite !bool_decide_eq_true_2 by done.
    split; [by rewrite orb_true_r|]. split; [by rewrite !orb_true_r|].
    intros a b Hab Hba. unfold hasEdge.
    pose proof (Hedge a b) as He. unfold edge, edge_in in He.
    assert (Hf : bool_decide (a = i) && bool_decide (b = j) = false).
    { apply andb_false_iff.
      destruct (decide (a = i)) as [->|]; [right|left];
        apply bool_decide_eq_false_2; congruence. }
    assert (Hf' : bool_decide (a = j) && bool_decide (b = i) = false).
    { apply andb_false_iff.
      destruct (decide (a = j)) as [->|]; [right|left];
        apply bool_decide_eq_false_2; congruence. }
    rewrite Hf, Hf', !orb_false_r in He.
    destruct Hwf as [Hl _], Hwf' as [Hl' _].
    destruct (adjacencyMatrix g' !! a) as [row'|] eqn:E',
             (adjacencyMatrix g !! a) as [row|] eqn:E; try done.
    + by rewrite He.
    + apply lookup_lt_Some in E'. apply lookup_ge_None in E. lia.
    + apply lookup_lt_Some in E. apply lookup_ge_None in E'. lia.
  - intros Hout.
    destruct (bool_decide (i < numNodes g)%nat && bool_decide (j < numNodes g)%nat)
      eqn:Hij; [|done].
    apply andb_true_iff in Hij as [Hi%bool_decide_eq_true Hj%bool_decide_eq_true].
    tauto.
Qed.

End Graphs.

(** ** Shape of the secret graph *)

Section SecretGraphShape.
Implicit Types (g : Graph) (i j a b : nat).

Lemma edge_slots_spec n i j :
  (i, j) ∈ edge_slots n <-> (i < j < n)%nat.
Proof.
  unfold edge_slots. rewrite list_elem_of_In, in_flat_map. split.
  - intros (i' & Hi' & Hin). apply in_map_iff in Hin as (j' & [= <- <-] & Hj').
    apply in_seq in Hi', Hj'. lia.
  - intros Hij. exists i. split; [apply in_seq; lia|].
    apply in_map_iff. exists j. split; [done|]. apply in_seq. lia.
Qed.

Lemma foldM_invariant {A S} (f : S -> A -> res S) (I : S -> Prop) l :
  (forall s x, x ∈ l -> I s -> exists s', f s x = Ok s' /\ I s') ->
  forall s, I s -> exists s', foldM f l s = Ok s' /\ I s'.
Proof.
  induction l as [|x l IH]; intros Hstep s Hs; [by exists s|].
  destruct (Hstep s x ltac:(left) Hs) as (s1 & Hf & Hs1).
  cbn. rewrite Hf. cbn. apply IH; [|done].
  intros s' x' Hx'. apply Hstep. by right.
Qed.

Lemma addEdge_simple g i j :
  simple_graph g -> (i < numNodes g)%nat -> (j < numNodes g)%nat -> i <> j ->
  exists g', addEdge g i j = Ok g' /\ simple_graph g' /\
    numNodes g' = numNodes g /\
    forall a b, edge g' a b
      = edge g a b || (bool_decide (a = i) && bool_decide (b = j))
                   || (bool_decide (a = j) && bool_decide (b = i)).
Proof.
  intros (Hwf & Hsym & Hirr & Hbin) Hi Hj Hne.
  pose proof (addEdge_spec g i j Hwf) as Hspec.
  rewrite !bool_decide_eq_true_2 in Hspec by done. cbn in Hspec.
  destruct Hspec as (g' & Hadd & Hwf' & Hn & Hedge & Hbin').
  exists g'. split; [done|]. split; [|done].
  split; [done|]. split; [|split; [|by apply Hbin']].
  - intros a b. rewrite !Hedge, (Hsym a b).
    destruct (edge g b a), (bool_decide (a = i)), (bool_decide (b = j)),
      (bool_decide (a = j)), (bool_decide (b = i)); done.
  - intros a. rewrite Hedge, Hirr. cbn.
    destruct (decide (a = i)) as [->|].
    + rewrite (bool_decide_eq_false_2 (i = j)) by done.
      by rewrite andb_false_r.
    + rewrite (bool_decide_eq_false_2 (a = i)) by done.
      by rewrite andb_false_r.
Qed.

Definition has_neighbor g i : Prop :=
  exists j, (j < numNodes g)%nat /\ edge g i j = true.

Lemma has_neighbor_getNeighbors g i :
  wf_graph g -> (i < numNodes g)%nat ->
  has_neighbor g i <->
  exists ns j, getNeighbors g (Z.of_nat i) = Ok ns /\ j ∈ ns.
Proof.
  intros Hwf Hi. rewrite getNeighbors_wf by done. split.
  - intros (j & Hj & He). eexists _, j. split; [done|].
    apply list_elem_of_filter. split; [done|].
    apply list_elem_of_In, in_seq. lia.
  - intros (ns & j & [= <-] & Hin).
    apply list_elem_of_filter in Hin as [He Hin].
    apply list_elem_of_In, in_seq in Hin. exists j. split; [lia|done].
Qed.

(** The edge loop keeps the graph simple. *)
Lemma edge_loop_simple bytes hashLength n :
  exists st,
    foldM (edge_step bytes hashLength) (edge_slots n) (mkCursor (newGraph n) 0 0)
    = Ok st /\
    simple_graph (cur_graph st) /\ numNodes (cur_graph st) = n.
Proof.
  apply (foldM_invariant _
           (fun st => simple_graph (cur_graph st) /\ numNodes (cur_graph st) = n)).
  - intros st [i j] Hij%edge_slots_spec [Hs Hn]. unfold edge_step.
    cbn [fst snd].
    destruct (Z.land _ 1 =? 1).
    + destruct (addEdge_simple (cur_graph st) i j Hs) as (g' & -> & Hs' & Hn' & _);
        [lia..|].
      cbn [bind]. destruct (_ =? 8)%nat; eexists; (split; [done|]); cbn;
        (split; [done|congruence]).
    + cbn [bind]. destruct (_ =? 8)%nat; eexists; (split; [done|]); by cbn.
  - cbn. split; [apply simple_newGraph|done].
Qed.

(** The post-pass gives every node it visits a neighbour, and only adds
    edges. *)
Lemma connect_loop n l :
  (forall i, i ∈ l -> (i + 1 < n)%nat) ->
  forall g, simple_graph g -> numNodes g = n ->
  exists g', foldM connect_step l g = Ok g' /\
    simple_graph g' /\ numNodes g' = n /\
    (forall a b, edge g a b = true -> edge g' a b = true) /\
    (forall i, i ∈ l -> has_neighbor g' i).
Proof.
  induction l as [|i l IH]; intros Hl g Hs Hn.
  { exists g. split; [done|]. split; [done|]. split; [done|].
    split; [done|]. intros i Hi. by apply elem_of_nil in Hi. }
  assert (Hi : (i + 1 < n)%nat) by (apply Hl; by left).
  assert (Hstep : exists g1, connect_step g i = Ok g1 /\
            simple_graph g1 /\ numNodes g1 = n /\
            (forall a b, edge g a b = true -> edge g1 a b = true) /\
            has_neighbor g1 i).
  { unfold connect_step. pose proof Hs as (Hwf & _).
    rewrite getNeighbors_wf by (done || lia). cbn [bind].
    destruct (filter _ _) as [|j ns] eqn:Ef; cbn [length Nat.eqb].
    - rewrite Hn, Nat.mod_small by lia.
      destruct (addEdge_simple g i (i + 1) Hs) as (g1 & -> & Hs1 & Hn1 & He1);
        [lia..|].
      exists g1. split; [done|]. split; [done|]. split; [congruence|].
      split.
      + intros a b Hab. by rewrite He1, Hab.
      + exists (i + 1)%nat. split; [lia|]. rewrite He1.
        rewrite !bool_decide_eq_true_2 by done. by rewrite orb_true_r.
    - exists g. split; [done|]. split; [done|]. split; [done|].
      split; [done|]. exists j.
      assert (Hj : j ∈ filter (fun j => edge g i j = true) (seq 0 (numNodes g)))
        by (rewrite Ef; by left).
      apply list_elem_of_filter in Hj as [He Hj].
      apply list_elem_of_In, in_seq in Hj. split; [lia|done]. }
  destruct Hstep as (g1 & Hc & Hs1 & Hn1 & Hmono1 & Hnb).
  destruct (IH ltac:(intros; apply Hl; by right) g1 Hs1 Hn1)
    as (g' & Hf & Hs' & Hn' & Hmono & Hall).
  exists g'. cbn. rewrite Hc. cbn. split; [done|]. split; [done|].
  split; [done|]. split; [by auto|].
  intros k [->|Hk]%elem_of_cons; [|by apply Hall].
  destruct Hnb as (j & Hj & He). exists j. split; [lia|by apply Hmono].
Qed.

Lemma graph_from_bytes_shape bytes hashLength n :
  exists g,
    graph_from_bytes bytes hashLength n = Ok g /\
    numNodes g = n /\ simple_graph g /\
    forall i, (i + 1 < n)%nat ->
      exists ns j, getNeighbors g (Z.of_nat i) = Ok ns /\ j ∈ ns.
Proof.
  unfold graph_from_bytes.
  destruct (edge_loop_simple bytes hashLength n) as (st & -> & Hs & Hn).
  cbn [bind].
  destruct (connect_loop n (seq 0 (n - 1))) with (g := cur_graph st)
    as (g & -> & Hs' & Hn' & _ & Hall); [|done|done|].
  { intros i Hi%list_elem_of_In%in_seq. lia. }
  exists g. split; [done|]. split; [done|]. split; [done|].
  intros i Hi. apply has_neighbor_getNeighbors; [by destruct Hs'|lia|].
  apply Hall. apply list_elem_of_In, in_seq. lia.
Qed.

(** X21. For every seed and node count, both copies of [generateSecretGraph]
    return a graph (they never throw) with a square 0/1 matrix of that
    size, symmetric with an empty diagonal, in which every node except
    the last one has at least one neighbour. *)
Theorem generateSecretGraph_shape (seed : string) (n : nat) :
  exists g,
    Server.generateSecretGraph seed n = Ok g /\
    Client.generateSecretGraph seed n = Ok g /\
    numNodes g = n /\ simple_graph g /\
    forall i, (i + 1 < n)%nat ->
      exists ns j, getNeighbors g (Z.of_nat i) = Ok ns /\ j ∈ ns.
Proof.
  unfold Server.generateSecretGraph, Client.generateSecretGraph, sha256_hex.
  cbv zeta. set (hash := Sha256.digest (bytes_of_string seed)).
  rewrite hashBytes_of_hex by apply digest_range.
  rewrite length_map.
  rewrite (graph_from_bytes_ext (Client.byte_at (map Some hash))
             (fun k => default 0 (hash !! k))) by apply byte_at_Some.
  destruct (graph_from_bytes_shape (fun k => default 0 (hash !! k))
              (length hash) n) as (g & Hg & Hrest).
  exists g. by rewrite Hg.
Qed.

End SecretGraphShape.

(** ** Permuted graphs and the honest prover *)

Section PermutedGraphs.
Implicit Types (g h : Graph) (i j a b : nat) (π : list nat).

(** *** Permutations of [0 .. n - 1] *)

Lemma perm_length π n : π ≡ₚ seq 0 n -> length π = n.
Proof. intros ->. apply length_seq. Qed.

Lemma perm_NoDup π n : π ≡ₚ seq 0 n -> NoDup π.
Proof. intros ->. apply NoDup_seq. Qed.

Lemma perm_lookup_lt π n i a : π ≡ₚ seq 0 n -> π !! i = Some a -> (a < n)%nat.
Proof.
  intros Hp Hi. apply list_elem_of_lookup_2 in Hi. rewrite Hp in Hi.
  apply list_elem_of_In, in_seq in Hi. lia.
Qed.

Lemma perm_lookup_total π n i :
  π ≡ₚ seq 0 n -> (i < n)%nat -> exists a, π !! i = Some a /\ (a < n)%nat.
Proof.
  intros Hp Hi. destruct (π !! i) as [a|] eqn:E.
  - exists a. split; [done|]. by eapply perm_lookup_lt.
  - apply lookup_ge_None in E. rewrite (perm_length π n) in E by done. lia.
Qed.

Lemma perm_lookup_surj π n a :
  π ≡ₚ seq 0 n -> (a < n)%nat -> exists i, (i < n)%nat /\ π !! i = Some a.
Proof.
  intros Hp Ha.
  assert (Hin : a ∈ π) by (rewrite Hp; apply list_elem_of_In, in_seq; lia).
  apply list_elem_of_lookup_1 in Hin as [i Hi]. exists i. split; [|done].
  apply lookup_lt_Some in Hi. by rewrite (perm_length π n) in Hi.
Qed.

Lemma perm_lookup_inj π n i j a :
  π ≡ₚ seq 0 n -> π !! i = Some a -> π !! j = Some a -> i = j.
Proof. intros Hp. apply NoDup_lookup. by eapply perm_NoDup. Qed.

(** *** [applyPermutation] *)

Lemma bool_decide_Some_eq (x y : nat) :
  bool_decide (Some x = Some y) = bool_decide (y = x).
Proof. repeat case_bool_decide; simplify_eq; done. Qed.

(** The slot [(i, j)] of the original graph puts an edge between [a] and
    [b]. *)
Definition hits g π a b (ij : nat * nat) : bool :=
  edge g (fst ij) (snd ij) &&
  ((bool_decide (π !! fst ij = Some a) && bool_decide (π !! snd ij = Some b))
   || (bool_decide (π !! fst ij = Some b) && bool_decide (π !! snd ij = Some a))).

Lemma permute_loop g π l :
  simple_graph g -> π ≡ₚ seq 0 (numNodes g) ->
  (forall i j, (i, j) ∈ l -> (i < j < numNodes g)%nat) ->
  forall h0, simple_graph h0 -> numNodes h0 = numNodes g ->
  exists h,
    foldM (permute_step g (Z.of_nat <$> π)) l h0 = Ok h /\
    simple_graph h /\ numNodes h = numNodes g /\
    forall a b, edge h a b = edge h0 a b || existsb (hits g π a b) l.
Proof.
  intros Hg Hp. pose proof Hg as ((Hgl & Hgrows) & _).
  induction l as [|[i j] l IH]; intros Hl h0 Hh0 Hn0.
  { exists h0. split; [done|]. split; [done|]. split; [done|].
    intros a b. cbn. by rewrite orb_false_r. }
  assert (Hij : (i < j < numNodes g)%nat) by (apply Hl; by left).
  destruct (perm_lookup_total π _ i Hp ltac:(lia)) as (a' & Ha' & Ha'n).
  destruct (perm_lookup_total π _ j Hp ltac:(lia)) as (b' & Hb' & Hb'n).
  assert (Hab : a' <> b').
  { intros ->. assert (i = j) by by eapply perm_lookup_inj. lia. }
  assert (Hstep : exists h1,
    permute_step g (Z.of_nat <$> π) h0 (i, j) = Ok h1 /\
    simple_graph h1 /\ numNodes h1 = numNodes g /\
    forall a b, edge h1 a b = edge h0 a b || hits g π a b (i, j)).
  { unfold permute_step, hits. cbn [fst snd].
    destruct (adjacencyMatrix g !! i) as [row|] eqn:Hrow.
    2:{ apply lookup_ge_None in Hrow. lia. }
    assert (He : entry_is_one row j = edge g i j).
    { unfold edge, edge_in. by rewrite Hrow. }
    rewrite He. destruct (edge g i j).
    - unfold addEdge_perm. rewrite !list_lookup_fmap, Ha', Hb'. cbn.
      rewrite !(proj2 (Z.leb_le 0 _)) by lia. cbn. rewrite !Nat2Z.id.
      destruct (addEdge_simple h0 a' b' Hh0) as (h1 & -> & Hs1 & Hn1 & He1);
        [lia..|done|].
      exists h1. split; [done|]. split; [done|]. split; [congruence|].
      intros a b. rewrite He1, <- orb_assoc. f_equal.
      rewrite !bool_decide_Some_eq.
      by rewrite (andb_comm (bool_decide (b = a'))).
    - exists h0. split; [done|]. split; [done|]. split; [done|].
      intros a b. cbn. by rewrite orb_false_r. }
  destruct Hstep as (h1 & Hf1 & Hs1 & Hn1 & He1).
  destruct (IH ltac:(intros; apply Hl; by right) h1 Hs1 Hn1)
    as (h & Hf & Hs & Hn & He).
  exists h. cbn [foldM]. rewrite Hf1. cbn [bind].
  split; [done|]. split; [done|]. split; [done|].
  intros a b. rewrite He, He1. cbn [existsb]. by rewrite orb_assoc.
Qed.

(** [applyPermutation] by a permutation of the nodes returns the
    isomorphic graph. *)
Lemma applyPermutation_edges g π :
  simple_graph g -> π ≡ₚ seq 0 (numNodes g) ->
  exists h,
    applyPermutation g (Z.of_nat <$> π) = Ok h /\
    simple_graph h /\ numNodes h = numNodes g /\
    forall i j a b, π !! i = Some a -> π !! j = Some b ->
      edge h a b = edge g i j.
Proof.
  intros Hg Hp. unfold applyPermutation.
  destruct (permute_loop g π (edge_slots (numNodes g)) Hg Hp)
    with (h0 := newGraph (numNodes g)) as (h & Hf & Hs & Hn & He).
  { intros i j. apply edge_slots_spec. }
  { apply simple_newGraph. }
  { done. }
  exists h. split; [done|]. split; [done|]. split; [done|].
  intros i j a b Ha Hb. rewrite He, edge_newGraph. cbn [orb].
  pose proof Hg as (Hwf & Hsym & Hirr & _).
  assert (Hi : (i < numNodes g)%nat).
  { apply lookup_lt_Some in Ha. by rewrite (perm_length π _ Hp) in Ha. }
  assert (Hj : (j < numNodes g)%nat).
  { apply lookup_lt_Some in Hb. by rewrite (perm_length π _ Hp) in Hb. }
  destruct (edge g i j) eqn:Eij.
  - apply existsb_exists.
    assert (i <> j) by (intros ->; congruence).
    destruct (decide (i < j)%nat).
    + exists (i, j). split; [apply list_elem_of_In, edge_slots_spec; lia|].
      unfold hits. cbn [fst snd]. rewrite Eij.
      by rewrite !bool_decide_eq_true_2 by done.
    + exists (j, i). split; [apply list_elem_of_In, edge_slots_spec; lia|].
      unfold hits. cbn [fst snd]. rewrite (Hsym j i), Eij.
      rewrite (bool_decide_eq_true_2 (π !! j = Some b)) by done.
      rewrite (bool_decide_eq_true_2 (π !! i = Some a)) by done.
      cbn. by rewrite orb_true_r.
  - apply not_true_is_false. intros Hex.
    apply existsb_exists in Hex as ([i' j'] & Hin & Hhit).
    unfold hits in Hhit. cbn [fst snd] in Hhit.
    apply andb_true_iff in Hhit as [He' Hor].
    apply orb_true_iff in Hor as [Hc|Hc];
      apply andb_true_iff in Hc as [H1%bool_decide_eq_true H2%bool_decide_eq_true].
    + assert (i' = i) as -> by by eapply perm_lookup_inj.
      assert (j' = j) as -> by by eapply perm_lookup_inj. congruence.
    + assert (i' = j) as -> by by eapply perm_lookup_inj.
      assert (j' = i) as -> by by eapply perm_lookup_inj.
      rewrite Hsym in He'. congruence.
Qed.

End PermutedGraphs.

Section HonestProver.
Implicit Types (g h : Graph) (i j a b : nat) (π : list nat).

(** *** The default [sort()] *)

Definition js_le (x y : option Z) : Prop := js_sort_le x y = true.

Local Instance js_le_trans : Transitive js_le.
Proof.
  intros [u|] [v|] [w|]; unfold js_le; cbn; try done.
  rewrite <- !Is_true_true. apply (transitivity (R := String.le)).
Qed.

Local Instance js_le_antisym : AntiSymm (=) js_le.
Proof.
  intros [u|] [v|]; unfold js_le; cbn; try done.
  rewrite <- !Is_true_true. intros H1 H2. f_equal.
  apply (inj pretty). by apply (anti_symm String.le).
Qed.

Local Instance js_le_total : Total js_le.
Proof.
  intros [u|] [v|]; unfold js_le; cbn; auto.
  rewrite <- !Is_true_true. apply (total String.le).
Qed.

Lemma js_insert_Permutation x l : js_insert x l ≡ₚ x :: l.
Proof.
  induction l as [|y l IH]; [done|]. cbn.
  destruct (js_sort_le x y); [done|]. rewrite IH. apply Permutation_swap.
Qed.

Lemma js_insert_Sorted x l : Sorted js_le l -> Sorted js_le (js_insert x l).
Proof.
  induction l as [|y l IH]; intros Hl; [by repeat constructor|].
  cbn. destruct (js_sort_le x y) eqn:Exy.
  - constructor; [done|]. by constructor.
  - apply Sorted_inv in Hl as [Hl Hhd].
    constructor; [by apply IH|].
    assert (Hyx : js_le y x).
    { destruct (total js_le x y) as [H|H]; [|done].
      unfold js_le in H. congruence. }
    destruct l as [|z l]; cbn; [by constructor|].
    destruct (js_sort_le x z); constructor; [done|].
    by apply HdRel_inv in Hhd.
Qed.

Lemma js_sort_Sorted l : Sorted js_le (js_sort l).
Proof.
  induction l as [|x l IH]; [constructor|]. by apply js_insert_Sorted.
Qed.

Lemma js_sort_Permutation l : js_sort l ≡ₚ l.
Proof.
  induction l as [|x l IH]; [done|].
  cbn. by rewrite js_insert_Permutation, IH.
Qed.

(** The sorted array depends only on the elements. *)
Lemma js_sort_unique l1 l2 : l1 ≡ₚ l2 -> js_sort l1 = js_sort l2.
Proof.
  intros Hp. apply (Sorted_unique js_le); try apply js_sort_Sorted.
  by rewrite !js_sort_Permutation.
Qed.

(** *** [indexOf] *)

Lemma indexOf_from_lookup (l : list Z) (v : Z) :
  forall k u, l !! u = Some v ->
    (forall u', (u' < u)%nat -> l !! u' <> Some v) ->
    indexOf_from k l v = k + Z.of_nat u.
Proof.
  induction l as [|x l IH]; intros k u Hu Hfirst; [done|].
  cbn [indexOf_from]. destruct u as [|u].
  - cbn in Hu. injection Hu as ->. rewrite Z.eqb_refl. lia.
  - destruct (Z.eqb_spec x v) as [->|Hne].
    + exfalso. by apply (Hfirst 0%nat); [lia|].
    + rewrite (IH (k + 1) u); [lia|done|].
      intros u' Hu'. apply (Hfirst (S u')). lia.
Qed.

Lemma indexOf_perm π n u d :
  π ≡ₚ seq 0 n -> π !! u = Some d ->
  indexOf (Z.of_nat <$> π) (Z.of_nat d) = Z.of_nat u.
Proof.
  intros Hp Hu. unfold indexOf.
  rewrite (indexOf_from_lookup _ _ 0 u); [lia|by rewrite list_lookup_fmap, Hu|].
  intros u' Hu'. rewrite list_lookup_fmap.
  destruct (π !! u') as [d'|] eqn:E; [|done]. cbn. intros [= Hd%Nat2Z.inj].
  subst d'. assert (u' = u) by by eapply perm_lookup_inj. lia.
Qed.

(** *** The neighbourhood check on an honest answer *)

Lemma neighborsMatch_honest g h π u d :
  simple_graph g -> π ≡ₚ seq 0 (numNodes g) ->
  wf_graph h -> numNodes h = numNodes g ->
  (forall i j a b, π !! i = Some a -> π !! j = Some b -> edge h a b = edge g i j) ->
  π !! u = Some d ->
  neighborsMatch g h (Z.of_nat <$> π) (Z.of_nat d) = Ok true.
Proof.
  intros Hg Hp Hh Hn He Hu. pose proof Hg as (Hwf & _).
  assert (Hun : (u < numNodes g)%nat).
  { apply lookup_lt_Some in Hu. by rewrite (perm_length π _ Hp) in Hu. }
  assert (Hdn : (d < numNodes g)%nat) by by eapply perm_lookup_lt.
  unfold neighborsMatch. rewrite (indexOf_perm π _ u d Hp Hu).
  rewrite !getNeighbors_wf by (done || lia). cbn [bind]. rewrite Hn.
  f_equal. apply String.eqb_eq. f_equal. apply js_sort_unique.
  set (Ng := filter (fun j => edge g u j = true) (seq 0 (numNodes g))).
  set (Nh := filter (fun j => edge h d j = true) (seq 0 (numNodes g))).
  apply NoDup_Permutation.
  - apply NoDup_fmap_2_strong; [|apply NoDup_filter, NoDup_seq].
    intros k1 k2 Hk1 Hk2.
    apply list_elem_of_filter in Hk1 as [_ Hk1%list_elem_of_In%in_seq].
    apply list_elem_of_filter in Hk2 as [_ Hk2%list_elem_of_In%in_seq].
    destruct (perm_lookup_total π _ k1 Hp ltac:(lia)) as (c1 & Hc1 & _).
    destruct (perm_lookup_total π _ k2 Hp ltac:(lia)) as (c2 & Hc2 & _).
    rewrite !list_lookup_fmap, Hc1, Hc2. cbn. intros [= Hc%Nat2Z.inj].
    subst c2. by eapply perm_lookup_inj.
  - apply NoDup_fmap_2; [|apply NoDup_filter, NoDup_seq].
    intros k1 k2 [= Hk]. lia.
  - intros x. rewrite !list_elem_of_fmap. split.
    + intros (k & -> & Hk). apply list_elem_of_filter in Hk as [Hek Hk].
      apply list_elem_of_In, in_seq in Hk.
      destruct (perm_lookup_total π _ k Hp ltac:(lia)) as (c & Hc & Hcn).
      exists c. rewrite list_lookup_fmap, Hc. split; [done|].
      apply list_elem_of_filter. split; [|apply list_elem_of_In, in_seq; lia].
      by rewrite (He u k d c).
    + intros (c & -> & Hc). apply list_elem_of_filter in Hc as [Hec Hc].
      apply list_elem_of_In, in_seq in Hc.
      destruct (perm_lookup_surj π _ c Hp ltac:(lia)) as (k & Hk & Hkc).
      exists k. rewrite list_lookup_fmap, Hkc. split; [done|].
      apply list_elem_of_filter. split; [|apply list_elem_of_In, in_seq; lia].
      by rewrite <- (He u k d c).
Qed.

(** X23. One honest round. The prover commits to [applyPermutation] of a
    simple graph by a permutation of its nodes; on a session with no
    commitment pending, the verifier records the commitment, draws any
    node as challenge, and [verifyResponse], given the graph, the
    permutation and that node, answers [valid = true] for the round. *)
Theorem honest_round_verifies (V : Verifier) (sid : string) (s : Session)
    g π (draw : nat) :
  simple_graph g -> π ≡ₚ seq 0 (numNodes g) ->
  V !! sid = Some s -> currentRound s = length (rounds s) ->
  (draw < numNodes g)%nat ->
  exists h V1 V2 out,
    applyPermutation g (Z.of_nat <$> π) = Ok h /\
    generateChallenge V sid h draw = Ok (V1, (draw, currentRound s)) /\
    verifyResponse V1 sid g (Z.of_nat <$> π) (Z.of_nat draw) = Ok (V2, out) /\
    valid out = true /\ round out = currentRound s /\
    remaining out = Z.of_nat (maxRounds s) - Z.of_nat (currentRound s) - 1.
Proof.
  intros Hg Hp Hs Hcur Hd.
  destruct (applyPermutation_edges g π Hg Hp) as (h & Hap & Hh & Hn & He).
  destruct (perm_lookup_surj π _ draw Hp Hd) as (u & Hu & Hud).
  exists h. unfold generateChallenge. rewrite Hs.
  destruct (Nat.eqb_spec (numNodes h) 0) as [E0|_]; [lia|].
  eexists _, _, _. split; [done|]. split; [done|].
  unfold verifyResponse. rewrite lookup_insert_eq.
  cbn [rounds currentRound maxRounds registeredHash].
  rewrite Hcur, lookup_app_r, Nat.sub_diag by done.
  cbn [lookup list_lookup permutedGraph].
  rewrite (neighborsMatch_honest g h π u draw Hg Hp) by (done || by destruct Hh).
  cbn [bind]. split; [done|]. cbn. split; [done|]. split; [done|]. lia.
Qed.

(** *** [isIsomorphicVia] *)

Lemma matrix_entry_simple g i j :
  simple_graph g -> (i < numNodes g)%nat -> (j < numNodes g)%nat ->
  matrix_entry (adjacencyMatrix g) (Some (Z.of_nat i)) (Some (Z.of_nat j))
  = Ok (Some (if edge g i j then 1 else 0)).
Proof.
  intros ((Hl & Hrows) & _ & _ & Hbin) Hi Hj. unfold matrix_entry.
  rewrite !(proj2 (Z.leb_le 0 _)) by lia. rewrite !Nat2Z.id.
  unfold edge, edge_in, entry_is_one.
  destruct (adjacencyMatrix g !! i) as [row|] eqn:Hrow.
  2:{ apply lookup_ge_None in Hrow. lia. }
  eapply Forall_lookup_1 in Hrows as Hlen; [|done].
  eapply Forall_lookup_1 in Hbin as Hb; [|done].
  destruct (row !! j) as [v|] eqn:Hv.
  2:{ apply lookup_ge_None in Hv. lia. }
  eapply Forall_lookup_1 in Hb; [|done]. by destruct Hb as [->| ->].
Qed.

(** X22. The graph [applyPermutation] returns is isomorphic to the original
    via the permutation, in the sense of [isIsomorphicVia]. *)
Theorem isIsomorphicVia_applyPermutation g π :
  simple_graph g -> π ≡ₚ seq 0 (numNodes g) ->
  exists h,
    applyPermutation g (Z.of_nat <$> π) = Ok h /\
    isIsomorphicVia g h (Z.of_nat <$> π) = Ok true.
Proof.
  intros Hg Hp.
  destruct (applyPermutation_edges g π Hg Hp) as (h & Hap & Hh & Hn & He).
  exists h. split; [done|]. unfold isIsomorphicVia.
  set (slots := flat_map _ _).
  assert (Hslots : forall i j, (i, j) ∈ slots ->
                     (i < numNodes g)%nat /\ (j < numNodes g)%nat).
  { intros i j Hin. apply list_elem_of_In, in_flat_map in Hin as (i' & Hi' & Hin).
    apply in_map_iff in Hin as (j' & [= <- <-] & Hj').
    apply in_seq in Hi', Hj'. lia. }
  clearbody slots. induction slots as [|[i j] slots IH]; [done|].
  destruct (Hslots i j ltac:(left)) as [Hi Hj].
  cbn [isIsomorphicVia_loop].
  rewrite matrix_entry_simple by done. cbn [bind].
  destruct (perm_lookup_total π _ i Hp Hi) as (a & Ha & Han).
  destruct (perm_lookup_total π _ j Hp Hj) as (b & Hb & Hbn).
  rewrite !list_lookup_fmap, Ha, Hb. cbn [fmap option_fmap option_map].
  rewrite matrix_entry_simple by (done || lia). cbn [bind].
  rewrite (He i j a b Ha Hb).
  rewrite bool_decide_eq_true_2 by done.
  apply IH. intros i' j' Hin. apply Hslots. by right.
Qed.

End HonestProver.

(** ** Random, inverse and composed permutations *)

Section Permutations.
Implicit Types (i j k a : nat) (π perm : list nat).

(** The transposition of [i] and [j]. *)
Definition transpose i j k : nat :=
  if decide (k = j) then i else if decide (k = i) then j else k.

Lemma transpose_involutive i j k : transpose i j (transpose i j k) = k.
Proof. unfold transpose. repeat case_decide; congruence. Qed.

Lemma swap_entries_lookup perm i j k :
  is_Some (perm !! i) -> is_Some (perm !! j) ->
  swap_entries perm i j !! k = perm !! transpose i j k.
Proof.
  intros [a Ha] [b Hb]. unfold swap_entries, transpose. rewrite Ha, Hb.
  pose proof (lookup_lt_Some _ _ _ Ha). pose proof (lookup_lt_Some _ _ _ Hb).
  destruct (decide (k = j)) as [->|Hkj].
  - by rewrite list_lookup_insert_eq by by rewrite length_insert.
  - rewrite list_lookup_insert_ne by done.
    destruct (decide (k = i)) as [->|Hki].
    + by rewrite list_lookup_insert_eq.
    + by rewrite list_lookup_insert_ne.
Qed.

Lemma swap_entries_Permutation perm i j :
  NoDup perm -> swap_entries perm i j ≡ₚ perm.
Proof.
  intros Hnd.
  destruct (perm !! i) as [a|] eqn:Ha; [|by unfold swap_entries; rewrite Ha].
  destruct (perm !! j) as [b|] eqn:Hb; [|by unfold swap_entries; rewrite Ha, Hb].
  assert (Hlook : forall k, swap_entries perm i j !! k = perm !! transpose i j k)
    by (intros; by apply swap_entries_lookup).
  apply NoDup_Permutation; [|done|].
  - apply NoDup_alt. intros k1 k2 x. rewrite !Hlook. intros H1 H2.
    pose proof (NoDup_lookup _ _ _ _ Hnd H1 H2) as Ht.
    by rewrite <- (transpose_involutive i j k1), Ht, transpose_involutive.
  - intros x. rewrite !list_elem_of_lookup. split.
    + intros [k Hk]. rewrite Hlook in Hk. eauto.
    + intros [k Hk]. exists (transpose i j k).
      by rewrite Hlook, transpose_involutive.
Qed.

Lemma shuffle_from_Permutation i draw perm :
  NoDup perm -> shuffle_from i draw perm ≡ₚ perm.
Proof.
  revert perm. induction i as [|i IH]; intros perm Hnd; [done|].
  cbn [shuffle_from]. rewrite IH.
  - by apply swap_entries_Permutation.
  - by rewrite swap_entries_Permutation.
Qed.

(** X25. Whatever the draws, [generateRandomPermutation(n)] returns a
    permutation of [0 .. n - 1]. *)
Theorem generateRandomPermutation_Permutation (n : nat) (draw : nat -> nat) :
  (forall i, (0 < i < n)%nat -> (draw i <= i)%nat) ->
  generateRandomPermutation n draw ≡ₚ seq 0 n /\
  length (generateRandomPermutation n draw) = n.
Proof.
  intros _.
  assert (H : generateRandomPermutation n draw ≡ₚ seq 0 n)
    by apply shuffle_from_Permutation, NoDup_seq.
  split; [done|]. by rewrite H, length_seq.
Qed.

(** *** [inversePermutation] *)

Lemma inverse_fold (l : list (nat * nat)) :
  NoDup (l.*2) ->
  forall inv : list (option nat),
    (forall ip, ip ∈ l -> (ip.2 < length inv)%nat) ->
    let r := fold_left (fun inv ip => array_set inv (snd ip) (fst ip)) l inv in
    length r = length inv /\
    forall a, (forall i, (i, a) ∈ l -> r !! a = Some (Some i)) /\
              (a ∉ l.*2 -> r !! a = inv !! a).
Proof.
  induction l as [|[i0 p0] l IH]; intros Hnd inv Hlt; cbn zeta.
  { split; [done|]. intros a. split; [|done].
    intros i Hi. by apply elem_of_nil in Hi. }
  cbn [fold_left fst snd]. cbn in Hnd. apply NoDup_cons in Hnd as [Hp0 Hnd].
  assert (Hp0lt : (p0 < length inv)%nat) by (apply (Hlt (i0, p0)); by left).
  assert (Hset : array_set inv p0 i0 = <[p0 := Some i0]> inv).
  { unfold array_set. by rewrite bool_decide_eq_true_2. }
  rewrite Hset.
  destruct (IH Hnd (<[p0 := Some i0]> inv)) as [Hlen Hr].
  { intros ip Hip. rewrite length_insert. apply Hlt. by right. }
  cbn zeta in Hlen, Hr. rewrite length_insert in Hlen. split; [done|].
  intros a. destruct (Hr a) as [Hin Hout]. split.
  - intros i [[= -> ->]|Hi]%elem_of_cons; [|by apply Hin].
    rewrite Hout by done. by apply list_lookup_insert_eq.
  - intros Ha. cbn in Ha. apply not_elem_of_cons in Ha as [Hne Ha].
    rewrite Hout by done. by apply list_lookup_insert_ne.
Qed.

Lemma zip_seq_lookup π i a :
  (i, a) ∈ zip (seq 0 (length π)) π <-> π !! i = Some a.
Proof.
  rewrite list_elem_of_lookup. split.
  - intros [k Hk]. apply lookup_zip_with_Some in Hk as (x & y & [= <- <-] & Hx & Hy).
    apply lookup_seq in Hx as [-> _]. done.
  - intros Hi. exists i. apply lookup_zip_with_Some. exists i, a.
    split; [done|]. split; [|done]. apply lookup_seq.
    split; [done|]. by eapply lookup_lt_Some.
Qed.

(** X26. For a permutation of [0 .. n - 1], [inversePermutation] returns the
    inverse permutation, without holes: composing it with the permutation,
    either way, gives the identity. *)
Theorem inversePermutation_inverse π (n : nat) :
  π ≡ₚ seq 0 n ->
  exists inv : list nat,
    inversePermutation π = Some <$> inv /\
    inv ≡ₚ seq 0 n /\
    (forall i a, π !! i = Some a <-> inv !! a = Some i) /\
    composePermutations π inv = Some <$> seq 0 n /\
    composePermutations inv π = Some <$> seq 0 n.
Proof.
  intros Hp. pose proof (perm_length π n Hp) as Hlen.
  unfold inversePermutation.
  destruct (inverse_fold (zip (seq 0 (length π)) π)) with
    (inv := replicate (length π) (@None nat)) as [Hrl Hr].
  { rewrite snd_zip by (rewrite length_seq; lia). by eapply perm_NoDup. }
  { intros [i a] Hia%zip_seq_lookup. rewrite length_replicate, Hlen. cbn.
    by eapply perm_lookup_lt. }
  cbn zeta in Hrl, Hr. rewrite length_replicate in Hrl.
  set (r := fold_left _ _ _) in *.
  assert (Hinv : forall i a, π !! i = Some a -> r !! a = Some (Some i)).
  { intros i a Hi. apply Hr. by apply zip_seq_lookup. }
  exists ((fun o => default 0%nat o) <$> r).
  assert (Hlook : forall i a, π !! i = Some a <->
                    ((fun o => default 0%nat o) <$> r) !! a = Some i).
  { intros i a. rewrite list_lookup_fmap. split.
    - intros Hi. by rewrite (Hinv i a Hi).
    - intros Ha. destruct (r !! a) as [o|] eqn:E; [|done].
      assert (Han : (a < n)%nat).
      { apply lookup_lt_Some in E. lia. }
      destruct (perm_lookup_surj π n a Hp Han) as (i' & _ & Hi').
      rewrite (Hinv i' a Hi') in E. injection E as <-. cbn in Ha.
      by injection Ha as <-. }
  split; [|split; [|split; [done|split]]].
  - apply list_eq. intros a. rewrite !list_lookup_fmap.
    destruct (r !! a) as [o|] eqn:E; [|done]. cbn. f_equal.
    assert (Han : (a < n)%nat) by (apply lookup_lt_Some in E; lia).
    destruct (perm_lookup_surj π n a Hp Han) as (i' & _ & Hi').
    rewrite (Hinv i' a Hi') in E. by injection E as <-.
  - apply NoDup_Permutation; [|apply NoDup_seq|].
    + apply NoDup_alt. intros a1 a2 i H1%Hlook H2%Hlook. congruence.
    + intros i. rewrite list_elem_of_lookup. split.
      * intros [a Ha%Hlook]. apply list_elem_of_In, in_seq.
        apply lookup_lt_Some in Ha. lia.
      * intros Hi%list_elem_of_In%in_seq.
        destruct (perm_lookup_total π n i Hp ltac:(lia)) as (a & Ha & _).
        exists a. by apply Hlook.
  - apply list_eq. intros i. unfold composePermutations.
    change (map ?f ?l) with (f <$> l). rewrite !list_lookup_fmap.
    destruct (π !! i) as [a|] eqn:Hi; cbn.
    + rewrite (proj1 (Hlook i a) Hi).
      assert (Hin : (i < n)%nat) by (apply lookup_lt_Some in Hi; lia).
      by rewrite lookup_seq_lt.
    + apply lookup_ge_None in Hi. by rewrite lookup_seq_ge by lia.
  - apply list_eq. intros a. unfold composePermutations.
    change (map ?f ?l) with (f <$> l). rewrite !list_lookup_fmap.
    destruct (r !! a) as [o|] eqn:E; cbn.
    + assert (Han : (a < n)%nat) by (apply lookup_lt_Some in E; lia).
      destruct (perm_lookup_surj π n a Hp Han) as (i' & _ & Hi').
      rewrite (Hinv i' a Hi') in E. injection E as <-. cbn.
      by rewrite Hi', lookup_seq_lt.
    + apply lookup_ge_None in E. by rewrite lookup_seq_ge by lia.
Qed.

End Permutations.

(** ** More on the verifier's sessions *)

Section SessionRounds.
Implicit Types (V : Verifier) (sid : string) (s : Session).

(** What [generateChallenge] and [verifyResponse] keep true of a session:
    answered rounds come first, and a commitment that was not answered
    yet is not verified. *)
Definition session_inv s : Prop :=
  maxRounds s = 5%nat /\
  (currentRound s <= length (rounds s))%nat /\
  forall k r, (currentRound s <= k)%nat -> rounds s !! k = Some r ->
              verified r = false.

Lemma reachable_session_inv V :
  reachable V -> forall sid s, V !! sid = Some s -> session_inv s.
Proof.
  induction 1 as [|V sid0 h _ IH|V sid0 g d V' out _ IH Hstep
                 |V sid0 og perm c V' out _ IH Hstep|V sid0 _ IH];
    intros sid s Hs.
  - discriminate.
  - cbn in Hs. destruct (decide (sid0 = sid)) as [->|Hne].
    + rewrite lookup_insert_eq in Hs. injection Hs as <-.
      split; [done|]. split; [cbn; lia|]. by intros k r _ Hk.
    + rewrite lookup_insert_ne in Hs by done. eauto.
  - apply generateChallenge_inv in Hstep as (s0 & Hs0 & _ & _ & ->).
    destruct (decide (sid0 = sid)) as [->|Hne].
    + rewrite lookup_insert_eq in Hs. injection Hs as <-.
      destruct (IH _ _ Hs0) as (Hm & Hc & Hp). split; [done|]. cbn.
      split; [rewrite length_app; lia|].
      intros k r Hk Hr. apply lookup_app_Some in Hr as [Hr|[Hlen Hr]]; [eauto|].
      apply list_lookup_singleton_Some in Hr as [_ <-]. done.
    + rewrite lookup_insert_ne in Hs by done. eauto.
  - apply verifyResponse_inv in Hstep as (s0 & r0 & v & Hs0 & Hr0 & _ & _ & ->).
    destruct (decide (sid0 = sid)) as [->|Hne].
    + rewrite lookup_insert_eq in Hs. injection Hs as <-.
      destruct (IH _ _ Hs0) as (Hm & Hc & Hp). split; [done|]. cbn.
      apply lookup_lt_Some in Hr0 as Hlt.
      split; [rewrite length_insert; lia|].
      intros k r Hk Hr. rewrite list_lookup_insert_ne in Hr by lia.
      apply (Hp k); [lia|done].
    + rewrite lookup_insert_ne in Hs by done. eauto.
  - cbn in Hs. apply lookup_delete_Some in Hs as [_ Hs]. eauto.
Qed.

(** X27. In every state the verifier can reach, [isComplete] reports success
    only for a session in which each commitment received was answered and
    verified, five of them at least. *)
Theorem success_needs_all_commitments V sid s :
  reachable V -> V !! sid = Some s ->
  success (isComplete V sid) = true ->
  currentRound s = length (rounds s) /\
  (5 <= length (rounds s))%nat /\
  Forall (fun r => verified r = true) (rounds s).
Proof.
  intros HV Hs. unfold isComplete. rewrite Hs. cbn.
  destruct (reachable_session_inv V HV sid s Hs) as (Hm & Hc & Hp).
  rewrite andb_true_iff, bool_decide_eq_true, forallb_verified, Hm.
  intros [H5 Hall]. split; [|split; [lia|done]].
  destruct (decide (currentRound s = length (rounds s))) as [|Hne]; [done|].
  destruct (rounds s !! currentRound s) as [r|] eqn:Hr.
  - pose proof (Hp (currentRound s) r ltac:(lia) Hr) as Hf.
    eapply Forall_lookup_1 in Hall; [|done]. congruence.
  - apply lookup_ge_None in Hr. lia.
Qed.

(** X28. [verifyResponse] throws 'Invalid session' exactly for an unknown
    session id and, in a reachable state, 'Invalid round' exactly when the
    session has no commitment waiting for an answer. *)
Theorem verifyResponse_errors V sid og perm c :
  reachable V ->
  (verifyResponse V sid og perm c = Err InvalidSession <-> V !! sid = None) /\
  (verifyResponse V sid og perm c = Err InvalidRound <->
     exists s, V !! sid = Some s /\ currentRound s = length (rounds s)).
Proof.
  intros HV. unfold verifyResponse.
  destruct (V !! sid) as [s|] eqn:Hs.
  2:{ split; [done|]. split; [done|]. by intros (s & ? & _). }
  destruct (reachable_session_inv V HV sid s Hs) as (_ & Hc & _).
  destruct (rounds s !! currentRound s) as [r|] eqn:Hr.
  - apply lookup_lt_Some in Hr as Hlt.
    destruct (neighborsMatch og (permutedGraph r) perm c) as [v|e] eqn:Hm; cbn.
    + split; [done|]. split; [done|]. intros (s' & [= <-] & Heq). lia.
    + apply neighborsMatch_error in Hm as ->.
      split; [done|]. split; [done|]. intros (s' & [= <-] & Heq). lia.
  - apply lookup_ge_None in Hr.
    split; [done|]. split; [|done]. intros _. exists s. split; [done|lia].
Qed.

(** X29. [verifyResponse] never looks at [maxRounds]: a session that is
    complete still answers, with a negative number of rounds remaining,
    and stays complete. *)
Theorem verifyResponse_after_completion V sid s og perm c V' out :
  V !! sid = Some s -> (maxRounds s <= currentRound s)%nat ->
  verifyResponse V sid og perm c = Ok (V', out) ->
  remaining out < 0 /\ round out = currentRound s /\
  complete (isComplete V' sid) = true.
Proof.
  intros Hs Hmax Hstep.
  apply verifyResponse_inv in Hstep as (s0 & r & v & Hs0 & Hr & _ & -> & ->).
  assert (s0 = s) as -> by congruence. cbn.
  split; [lia|]. split; [done|].
  unfold isComplete. rewrite lookup_insert_eq. cbn.
  apply bool_decide_eq_true. lia.
Qed.

(** [endSession] returns the status the session had and forgets the
    session: afterwards it is unknown to [isComplete],
    [generateChallenge] and [verifyResponse]; other sessions are
    untouched. *)
Theorem endSession_forgets V sid g d og perm c :
  snd (endSession V sid) = isComplete V sid /\
  isComplete (fst (endSession V sid)) sid = mkCompletion false false None /\
  generateChallenge (fst (endSession V sid)) sid g d = Err InvalidSession /\
  verifyResponse (fst (endSession V sid)) sid og perm c = Err InvalidSession /\
  forall sid', sid' <> sid -> fst (endSession V sid) !! sid' = V !! sid'.
Proof.
  unfold endSession, isComplete, generateChallenge, verifyResponse. cbn.
  rewrite !lookup_delete_eq. split; [done|]. split; [done|].
  split; [done|]. split; [done|]. intros sid' Hne.
  by apply lookup_delete_ne.
Qed.

(** *** A failed round is final *)

(** Calls that leave the session [sid] in place: everything except
    starting it again or ending it. *)
Inductive continues (sid : string) : Verifier -> Verifier -> Prop :=
| cont_refl V : continues sid V V
| cont_challenge V V0 sid' g d V' out :
    continues sid V V0 -> generateChallenge V0 sid' g d = Ok (V', out) ->
    continues sid V V'
| cont_verify V V0 sid' og perm c V' out :
    continues sid V V0 -> verifyResponse V0 sid' og perm c = Ok (V', out) ->
    continues sid V V'
| cont_start V V0 sid' h :
    continues sid V V0 -> sid' <> sid ->
    continues sid V (fst (startSession V0 sid' h))
| cont_end V V0 sid' :
    continues sid V V0 -> sid' <> sid ->
    continues sid V (fst (endSession V0 sid')).

Definition has_failed s : Prop :=
  exists k r, (k < currentRound s)%nat /\ rounds s !! k = Some r /\
              verified r = false.

Lemma continues_has_failed sid V V' :
  continues sid V V' ->
  (exists s, V !! sid = Some s /\ has_failed s) ->
  exists s', V' !! sid = Some s' /\ has_failed s'.
Proof.
  induction 1 as [V|V V0 sid' g d V' out _ IH Hstep
                 |V V0 sid' og perm c V' out _ IH Hstep
                 |V V0 sid' h _ IH Hne|V V0 sid' _ IH Hne];
    intros Hf; [done|..]; destruct (IH Hf) as (s0 & Hs0 & k & r & Hk & Hr & Hv).
  - apply generateChallenge_inv in Hstep as (s1 & Hs1 & _ & _ & ->).
    destruct (decide (sid' = sid)) as [->|Hne].
    + rewrite lookup_insert_eq. eexists. split; [done|].
      assert (s1 = s0) as -> by congruence.
      exists k, r. cbn. split; [done|]. split; [|done].
      by apply lookup_app_l_Some.
    + rewrite lookup_insert_ne by done. exists s0. split; [done|]. by exists k, r.
  - apply verifyResponse_inv in Hstep as (s1 & r1 & v & Hs1 & Hr1 & _ & _ & ->).
    destruct (decide (sid' = sid)) as [->|Hne].
    + rewrite lookup_insert_eq. eexists. split; [done|].
      assert (s1 = s0) as -> by congruence.
      exists k, r. cbn. split; [lia|]. split; [|done].
      rewrite list_lookup_insert_ne by lia. done.
    + rewrite lookup_insert_ne by done. exists s0. split; [done|]. by exists k, r.
  - cbn. rewrite lookup_insert_ne by done. exists s0. split; [done|]. by exists k, r.
  - cbn. rewrite lookup_delete_ne by done. exists s0. split; [done|]. by exists k, r.
Qed.

(** X30. Once [verifyResponse] has answered [valid = false] in a session, no
    sequence of later calls makes [isComplete] report success for it,
    short of starting the session again. *)
Theorem failed_round_is_final V sid og perm c V1 out V2 :
  verifyResponse V sid og perm c = Ok (V1, out) ->
  valid out = false ->
  continues sid V1 V2 ->
  success (isComplete V2 sid) = false.
Proof.
  intros Hstep Hv Hcont.
  apply verifyResponse_inv in Hstep as (s & r & v & Hs & Hr & _ & -> & ->).
  cbn in Hv. subst v.
  destruct (continues_has_failed sid _ _ Hcont) as (s2 & Hs2 & k & r2 & Hk & Hr2 & Hv2).
  { eexists. rewrite lookup_insert_eq. split; [done|].
    exists (currentRound s), (set_verified false r). cbn.
    split; [lia|]. split; [|done].
    apply list_lookup_insert_eq. by eapply lookup_lt_Some. }
  unfold isComplete. rewrite Hs2. cbn.
  apply andb_false_iff. right. apply not_true_is_false.
  rewrite forallb_verified. intros Hall.
  eapply Forall_lookup_1 in Hall; [|done]. congruence.
Qed.

(** *** Five honest rounds *)

(** The prover's side of a run: for each round a permutation and the
    node the verifier draws. *)
Fixpoint play (V : Verifier) (sid : string) (g : Graph)
    (moves : list (list nat * nat)) : res Verifier :=
  match moves with
  | [] => Ok V
  | (π, draw) :: moves' =>
      let* h := applyPermutation g (Z.of_nat <$> π) in
      let* V1 := rmap fst (generateChallenge V sid h draw) in
      let* V2 := rmap fst (verifyResponse V1 sid g (Z.of_nat <$> π)
                             (Z.of_nat draw)) in
      play V2 sid g moves'
  end.

Lemma play_honest sid g (moves : list (list nat * nat)) :
  simple_graph g ->
  Forall (fun m => m.1 ≡ₚ seq 0 (numNodes g) /\ (m.2 < numNodes g)%nat) moves ->
  forall V s, V !! sid = Some s ->
    currentRound s = length (rounds s) ->
    Forall (fun r => verified r = true) (rounds s) ->
    exists V' s',
      play V sid g moves = Ok V' /\ V' !! sid = Some s' /\
      currentRound s' = (currentRound s + length moves)%nat /\
      currentRound s' = length (rounds s') /\
      maxRounds s' = maxRounds s /\
      Forall (fun r => verified r = true) (rounds s').
Proof.
  intros Hg. induction 1 as [|[π d] moves [Hp Hd] _ IH]; intros V s Hs Hcur Hall.
  { exists V, s. cbn. rewrite Nat.add_0_r. eauto 10. }
  cbn [fst snd] in Hp, Hd.
  destruct (applyPermutation_edges g π Hg Hp) as (h & Hap & Hh & Hn & He).
  destruct (perm_lookup_surj π _ d Hp Hd) as (u & Hu & Hud).
  cbn [play]. rewrite Hap. cbn [bind].
  unfold generateChallenge. rewrite Hs.
  destruct (Nat.eqb_spec (numNodes h) 0) as [E0|_]; [lia|].
  unfold rmap at 1. cbn [bind fst].
  unfold verifyResponse. rewrite lookup_insert_eq.
  cbn [rounds currentRound maxRounds registeredHash].
  rewrite Hcur, lookup_app_r, Nat.sub_diag by done.
  cbn [lookup list_lookup permutedGraph].
  rewrite (neighborsMatch_honest g h π u d Hg Hp) by (done || by destruct Hh).
  unfold rmap. cbn [bind fst]. rewrite insert_insert_eq.
  rewrite insert_app_r_alt, Nat.sub_diag by done. cbn [insert list_insert].
  match goal with
  | |- context [play (<[sid := ?s1]> V)] =>
      destruct (IH (<[sid := s1]> V) s1)
        as (V' & s' & Hplay & Hs' & Hc' & Hl' & Hm' & Hall')
  end.
  { apply lookup_insert_eq. }
  { cbn. rewrite length_app. cbn. lia. }
  { cbn. apply Forall_app. split; [done|]. by repeat constructor. }
  exists V', s'. split; [exact Hplay|]. split; [done|].
  cbn in Hc', Hm'. cbn [length]. split; [lia|]. by split.
Qed.

(** X24. An honest prover is authenticated: on a session just started, five
    rounds in which the prover commits to a permutation of a simple graph
    and answers the challenge make [isComplete] report success. The graph
    is any simple graph: nothing relates it to the hash registered with
    the session. *)
Theorem five_honest_rounds_succeed V sid (hash : string) g
    (moves : list (list nat * nat)) :
  simple_graph g ->
  Forall (fun m => m.1 ≡ₚ seq 0 (numNodes g) /\ (m.2 < numNodes g)%nat) moves ->
  length moves = 5%nat ->
  exists V',
    play (fst (startSession V sid hash)) sid g moves = Ok V' /\
    isComplete V' sid = mkCompletion true true (Some 5%nat).
Proof.
  intros Hg Hmoves Hlen.
  destruct (play_honest sid g moves Hg Hmoves (fst (startSession V sid hash))
              (mkSession hash [] 0 5))
    as (V' & s' & Hplay & Hs' & Hc' & Hl' & Hm' & Hall');
    [apply startSession_lookup|done|done|].
  exists V'. split; [done|]. unfold isComplete. rewrite Hs'.
  cbn in Hc', Hm'. rewrite Hm', Hc', Hlen.
  rewrite bool_decide_eq_true_2 by lia.
  by rewrite (proj2 (forallb_verified _) Hall').
Qed.

End SessionRounds.

(** ** Concrete instances of the further properties *)

Lemma valid_point_G : valid_point getGenerator.
Proof.
  split; [unfold CURVE.Gx, CURVE.p; lia|].
  split; [unfold CURVE.Gy, CURVE.p; lia|]. vm_compute. reflexivity.
Qed.

Lemma valid_point_negate_G : valid_point (negate getGenerator).
Proof.
  split; [unfold CURVE.Gx, CURVE.p; lia|].
  split; [vm_compute; split; [discriminate|reflexivity]|]. vm_compute. reflexivity.
Qed.

Lemma extendedGcd_bezout_witness :
  exists r, extendedGcd 240 46 = Ok r /\
    gcd r = Z.gcd 240 46 /\ 240 * coef_x r + 46 * coef_y r = gcd r.
Proof. apply (extendedGcd_bezout 240 46); lia. Defined.

Lemma modPow_power_witness :
  modPow 3 0 1 = Ok 1 /\ modPow 3 4 7 = Ok (3 ^ 4 mod 7).
Proof.
  split.
  - apply (modPow_power 3 0 1). lia.
  - apply (modPow_power 3 4 7). lia.
Defined.

Lemma hexToPrivateKey_privateKeyToHex_witness :
  hexToPrivateKey (privateKeyToHex 255) = Ok 255 /\
  (255 < 2 ^ 256 -> String.length (privateKeyToHex 255) = 64%nat).
Proof. apply (hexToPrivateKey_privateKeyToHex 255). lia. Defined.

Lemma fromJSON_toJSON_witness : fromJSON (toJSON getGenerator) = Ok getGenerator.
Proof.
  apply (fromJSON_toJSON getGenerator). unfold getGenerator, CURVE.Gx, CURVE.Gy. lia.
Defined.

Lemma pointAdd_valid_witness :
  exists R, pointAdd getGenerator getGenerator = Ok R /\ valid_point R.
Proof. apply (pointAdd_valid getGenerator getGenerator); apply valid_point_G. Defined.

Lemma pointAdd_comm_witness :
  pointAdd getGenerator (negate getGenerator)
  = pointAdd (negate getGenerator) getGenerator.
Proof.
  apply (pointAdd_comm getGenerator (negate getGenerator));
    [apply valid_point_G|apply valid_point_negate_G].
Defined.

Lemma pointAdd_assoc_witness :
  (let* PQ := pointAdd getGenerator getGenerator in pointAdd PQ (negate getGenerator))
  = (let* QR := pointAdd getGenerator (negate getGenerator) in pointAdd getGenerator QR).
Proof.
  apply (pointAdd_assoc getGenerator getGenerator (negate getGenerator));
    [apply valid_point_G|apply valid_point_G|apply valid_point_negate_G].
Defined.

Lemma pointAdd_negate_witness :
  valid_point (negate getGenerator) /\
  pointAdd getGenerator (negate getGenerator) = Ok Infinity /\
  pointAdd (negate getGenerator) getGenerator = Ok Infinity /\
  negate (negate getGenerator) = getGenerator.
Proof. apply (pointAdd_negate getGenerator), valid_point_G. Defined.

Lemma scalarMultiply_valid_witness :
  exists R, scalarMultiply (-3) getGenerator = Ok R /\ valid_point R.
Proof. apply (scalarMultiply_valid (-3) getGenerator), valid_point_G. Defined.

Lemma scalarMultiply_plus_witness :
  exists A B C,
    scalarMultiply 2 getGenerator = Ok A /\ scalarMultiply 3 getGenerator = Ok B /\
    scalarMultiply (2 + 3) getGenerator = Ok C /\ pointAdd A B = Ok C.
Proof.
  apply (scalarMultiply_plus 2 3 getGenerator); [lia|lia|apply valid_point_G].
Defined.

Lemma scalarMultiply_times_witness :
  exists B C,
    scalarMultiply 3 getGenerator = Ok B /\
    scalarMultiply (2 * 3) getGenerator = Ok C /\ scalarMultiply 2 B = Ok C.
Proof.
  apply (scalarMultiply_times 2 3 getGenerator); [lia|lia|apply valid_point_G].
Defined.

Lemma scalarMultiply_opp_witness :
  scalarMultiply (- 3) getGenerator = rmap negate (scalarMultiply 3 getGenerator).
Proof. apply (scalarMultiply_opp 3 getGenerator), valid_point_G. Defined.

Lemma scalarMultiply_G_Infinity_witness :
  scalarMultiply 1 getGenerator = Ok Infinity <-> (CURVE.n | 1).
Proof. apply (scalarMultiply_G_Infinity 1). lia. Defined.

Lemma isValidPublicKey_generatePublicKey_witness :
  exists publicKey,
    generatePublicKey 1 = Ok publicKey /\ publicKey <> Infinity /\
    isValidPublicKey publicKey = Ok true.
Proof.
  apply (isValidPublicKey_generatePublicKey 1). unfold CURVE.n. lia.
Defined.

Lemma deriveSymmetricKey_digest_witness :
  deriveSymmetricKey None = Err TypeError /\
  exists key,
    deriveSymmetricKey (Some 1) = Ok key /\
    key = Sha256.digest (Sha256.be_bytes 32 1) /\ length key = 32%nat.
Proof. apply (deriveSymmetricKey_digest 1). lia. Defined.

Lemma computeSharedSecret_encoded_witness :
  computeSharedSecret (PrivHex (privateKeyToHex 1))
                      (PubCompressed (compressPublicKey getGenerator))
  = computeSharedSecret (PrivInt 1) (PubPoint getGenerator).
Proof.
  apply (computeSharedSecret_encoded 1 getGenerator); [lia|apply valid_point_G].
Defined.

(** The path on two nodes, and the graph of one node. *)
Lemma simple_graph_2 : simple_graph (mkGraph 2 [[0; 1]; [1; 0]]).
Proof.
  split; [split; [done|by repeat constructor]|].
  split; [intros [|[|a]] [|[|b]]; reflexivity|].
  split; [intros [|[|a]]; reflexivity|].
  repeat (apply Forall_cons_2 || apply Forall_nil_2); lia.
Qed.

Lemma perm_10 : [1; 0]%nat ≡ₚ seq 0 2.
Proof. apply Permutation_swap. Qed.

Lemma hasEdge_addEdge_witness :
  exists g', addEdge (newGraph 2) 0 1 = Ok g' /\ wf_graph g' /\
    hasEdge g' 0 1 = Ok true /\ hasEdge g' 1 0 = Ok true /\
    forall a b, (a, b) <> (0, 1)%nat -> (a, b) <> (1, 0)%nat ->
      hasEdge g' a b = hasEdge (newGraph 2) a b.
Proof.
  apply (hasEdge_addEdge (newGraph 2) 0 1 (wf_newGraph 2)); cbn; lia.
Defined.

Lemma isIsomorphicVia_applyPermutation_witness :
  exists h,
    applyPermutation (mkGraph 2 [[0; 1]; [1; 0]]) (Z.of_nat <$> [1; 0]%nat) = Ok h /\
    isIsomorphicVia (mkGraph 2 [[0; 1]; [1; 0]]) h (Z.of_nat <$> [1; 0]%nat) = Ok true.
Proof.
  apply (isIsomorphicVia_applyPermutation _ _ simple_graph_2 perm_10).
Defined.

Lemma honest_round_verifies_witness :
  exists h V1 V2 out,
    applyPermutation (mkGraph 2 [[0; 1]; [1; 0]]) (Z.of_nat <$> [1; 0]%nat) = Ok h /\
    generateChallenge (fst (startSession newVerifier "alice" "c0ffee")) "alice" h 0
    = Ok (V1, (0%nat, 0%nat)) /\
    verifyResponse V1 "alice" (mkGraph 2 [[0; 1]; [1; 0]]) (Z.of_nat <$> [1; 0]%nat) 0
    = Ok (V2, out) /\
    valid out = true /\ round out = 0%nat /\ remaining out = 5 - 0 - 1.
Proof.
  apply (honest_round_verifies (fst (startSession newVerifier "alice" "c0ffee"))
           "alice" (mkSession "c0ffee" [] 0 5) _ _ 0 simple_graph_2 perm_10).
  - apply startSession_lookup.
  - reflexivity.
  - cbn. lia.
Defined.

Lemma five_honest_rounds_succeed_witness :
  exists V',
    play (fst (startSession newVerifier "alice" "c0ffee")) "alice"
         (mkGraph 2 [[0; 1]; [1; 0]]) (replicate 5 ([1; 0]%nat, 0%nat)) = Ok V' /\
    isComplete V' "alice" = mkCompletion true true (Some 5%nat).
Proof.
  apply (five_honest_rounds_succeed newVerifier "alice" "c0ffee" _ _ simple_graph_2).
  - repeat constructor; cbn; (apply perm_10 || lia).
  - reflexivity.
Defined.

Lemma generateRandomPermutation_Permutation_witness :
  generateRandomPermutation 3 (fun _ => 0%nat) ≡ₚ seq 0 3 /\
  length (generateRandomPermutation 3 (fun _ => 0%nat)) = 3%nat.
Proof.
  apply (generateRandomPermutation_Permutation 3 (fun _ => 0%nat)). intros i _. lia.
Defined.

Lemma perm_201 : [2; 0; 1]%nat ≡ₚ seq 0 3.
Proof.
  change (seq 0 3) with [0; 1; 2]%nat.
  etrans; [apply Permutation_swap|]. apply Permutation_skip, Permutation_swap.
Qed.

Lemma inversePermutation_inverse_witness :
  exists inv : list nat,
    inversePermutation [2; 0; 1]%nat = Some <$> inv /\
    inv ≡ₚ seq 0 3 /\
    (forall i a, [2; 0; 1]%nat !! i = Some a <-> inv !! a = Some i) /\
    composePermutations [2; 0; 1]%nat inv = Some <$> seq 0 3 /\
    composePermutations inv [2; 0; 1]%nat = Some <$> seq 0 3.
Proof. apply (inversePermutation_inverse [2; 0; 1]%nat 3 perm_201). Defined.

Lemma verifyResponse_errors_witness :
  (verifyResponse newVerifier "alice" (mkGraph 2 [[0; 1]; [1; 0]]) [1; 0] 0
   = Err InvalidSession <-> newVerifier !! "alice" = None) /\
  (verifyResponse newVerifier "alice" (mkGraph 2 [[0; 1]; [1; 0]]) [1; 0] 0
   = Err InvalidRound <->
   exists s, newVerifier !! "alice" = Some s /\ currentRound s = length (rounds s)).
Proof. apply (verifyResponse_errors newVerifier "alice" _ _ _ reach_new). Defined.

(** A session with a sixth commitment pending after five answered rounds. *)
Lemma verifyResponse_after_completion_witness :
  exists V' out,
    verifyResponse
      ({["alice" := mkSession "c0ffee"
                      (replicate 6 (mkRound (mkGraph 1 [[0]]) "00" 0 true)) 5 5]} : Verifier)
      "alice" (mkGraph 1 [[0]]) [0] 0 = Ok (V', out) /\
    remaining out < 0 /\ round out = 5%nat /\
    complete (isComplete V' "alice") = true.
Proof.
  assert (H : exists V' out,
    verifyResponse
      ({["alice" := mkSession "c0ffee"
                      (replicate 6 (mkRound (mkGraph 1 [[0]]) "00" 0 true)) 5 5]} : Verifier)
      "alice" (mkGraph 1 [[0]]) [0] 0 = Ok (V', out))
    by (vm_compute; eauto).
  destruct H as (V' & out & H). exists V', out. split; [exact H|].
  apply (verifyResponse_after_completion _ "alice"
           (mkSession "c0ffee" (replicate 6 (mkRound (mkGraph 1 [[0]]) "00" 0 true)) 5 5)
           _ _ _ _ _ (lookup_singleton_eq _ _) (le_n 5) H).
Defined.

(** A two-node commitment answered with a graph that has no edge, then
    nothing else. *)
Lemma failed_round_is_final_witness :
  exists V1 out,
    verifyResponse
      ({["alice" := mkSession "c0ffee"
                      [mkRound (mkGraph 2 [[0; 1]; [1; 0]]) "00" 0 false] 0 5]} : Verifier)
      "alice" (mkGraph 2 [[0; 0]; [0; 0]]) [0; 1] 0 = Ok (V1, out) /\
    valid out = false /\
    success (isComplete V1 "alice") = false.
Proof.
  assert (H : exists V1 out,
    verifyResponse
      ({["alice" := mkSession "c0ffee"
                      [mkRound (mkGraph 2 [[0; 1]; [1; 0]]) "00" 0 false] 0 5]} : Verifier)
      "alice" (mkGraph 2 [[0; 0]; [0; 0]]) [0; 1] 0 = Ok (V1, out) /\ valid out = false)
    by (vm_compute; eauto).
  destruct H as (V1 & out & H & Hv). exists V1, out.
  split; [exact H|]. split; [exact Hv|].
  apply (failed_round_is_final _ "alice" _ _ _ V1 out V1 H Hv (cont_refl "alice" V1)).
Defined.

(** Five rounds on the graph of one node, all answered honestly. *)
Lemma reachable_success :
  exists V s, reachable V /\ V !! "alice" = Some s /\
              success (isComplete V "alice") = true.
Proof.
  pose proof (reach_start newVerifier "alice" "c0ffee" reach_new) as H.
  do 5 (
    match type of H with
    | reachable ?V =>
        let r := eval vm_compute in (generateChallenge V "alice" (mkGraph 1 [[0]]) 0) in
        match r with
        | Ok (?V1, ?o) =>
            let H1 := fresh "H" in
            assert (H1 : reachable V1)
              by (apply (reach_challenge V "alice" (mkGraph 1 [[0]]) 0%nat V1 o H);
                  vm_compute; reflexivity);
            clear H;
            let r2 := eval vm_compute in
                        (verifyResponse V1 "alice" (mkGraph 1 [[0]]) [0] 0) in
            match r2 with
            | Ok (?V2, ?o2) =>
                assert (H : reachable V2)
                  by (apply (reach_verify V1 "alice" (mkGraph 1 [[0]]) [0] 0 V2 o2 H1);
                      vm_compute; reflexivity);
                clear H1
            end
        end
    end).
  match type of H with
  | reachable ?V =>
      let r := eval vm_compute in (V !! "alice") in
      match r with
      | Some ?s => exists V, s
      end
  end.
  split; [exact H|]. split; vm_compute; reflexivity.
Qed.

Lemma success_needs_all_commitments_witness :
  exists V s,
    reachable V /\ V !! "alice" = Some s /\
    currentRound s = length (rounds s) /\
    (5 <= length (rounds s))%nat /\
    Forall (fun r => verified r = true) (rounds s).
Proof.
  destruct reachable_success as (V & s & HV & Hs & Hsucc).
  exists V, s. split; [exact HV|]. split; [exact Hs|].
  apply (success_needs_all_commitments V "alice" s HV Hs Hsucc).
Defined.
